(** * Caption rewriter: a shallow embedding of the application logic

    The development follows the TypeScript sources:
    - [types.ts]               the row, stats and session records;
    - [services/fileParser.ts] spreadsheet parsing and the rich-text export;
    - [services/storage.ts]    the local-storage history;
    - [services/gemini.ts]     the provider routing of [rewriteCaption];
    - [components/DataPreview.tsx] the diff view;
    - [App.tsx]                spreadsheet import, download and the batch
                               processor with its pool of three workers.

    Definitions come first (one module per source file), the properties
    after them. *)

From stdpp Require Import base option list strings gmap countable.
From Stdlib Require Import NArith ZArith Lia.

Set Default Proof Using "Type".

(* ================================================================= *)
(** ** JavaScript strings *)

(** A JavaScript string is a sequence of UTF-16 code units. *)
Module JS.

Definition jsstring := list N.

(** A literal made of ASCII characters only. *)
Definition str (s : string) : jsstring :=
  Ascii.N_of_ascii <$> String.list_ascii_of_string s.
Global Arguments str : simpl never.

(** [!s], [s || d]: the empty string is the only falsy string. *)
Definition truthy (s : jsstring) : bool :=
  match s with [] => false | _ :: _ => true end.

Definition or_else (s d : jsstring) : jsstring := if truthy s then s else d.

(** Truthiness of [string | undefined]. *)
Definition truthy_opt (o : option jsstring) : bool :=
  match o with Some s => truthy s | None => false end.

(** [o || undefined] on [string | undefined]. *)
Definition or_undefined (o : option jsstring) : option jsstring :=
  if truthy_opt o then o else None.

Definition eqb (s t : jsstring) : bool := bool_decide (s = t).

(** [String.prototype.toLowerCase], on the letters A-Z. The other code
    units are left as they are: the only capitals outside ASCII whose
    lower case contains an ASCII letter are U+212A (to k) and U+0130 (to i
    followed by U+0307), and neither can complete one of the tokens the
    application searches for. *)
Definition lower (c : N) : N :=
  if ((65 <=? c) && (c <=? 90))%N then (c + 32)%N else c.

Definition toLowerCase (s : jsstring) : jsstring := lower <$> s.

Fixpoint startsWith (s t : jsstring) : bool :=
  match t, s with
  | [], _ => true
  | _ :: _, [] => false
  | b :: t', a :: s' => (a =? b)%N && startsWith s' t'
  end.

(** [s.includes(t)]: [t] occurs in [s] as a contiguous run. *)
Fixpoint includes (s t : jsstring) : bool :=
  startsWith s t ||
  match s with
  | [] => false
  | _ :: s' => includes s' t
  end.

(** White space and line terminators of ECMAScript: the class [\s] of
    regular expressions and the code units removed by [trim]. *)
Definition isWhiteSpace (c : N) : bool :=
  bool_decide (c ∈ [0x09; 0x0A; 0x0B; 0x0C; 0x0D; 0x20; 0xA0; 0x1680;
                    0x2028; 0x2029; 0x202F; 0x205F; 0x3000; 0xFEFF]%N)
  || ((0x2000 <=? c) && (c <=? 0x200A))%N.

Fixpoint trimStart (s : jsstring) : jsstring :=
  match s with
  | [] => []
  | c :: s' => if isWhiteSpace c then trimStart s' else s
  end.

Definition trimEnd (s : jsstring) : jsstring := rev (trimStart (rev s)).

Definition trim (s : jsstring) : jsstring := trimEnd (trimStart s).

Fixpoint digits (u : Decimal.uint) : jsstring :=
  match u with
  | Decimal.Nil => []
  | Decimal.D0 u => 48%N :: digits u
  | Decimal.D1 u => 49%N :: digits u
  | Decimal.D2 u => 50%N :: digits u
  | Decimal.D3 u => 51%N :: digits u
  | Decimal.D4 u => 52%N :: digits u
  | Decimal.D5 u => 53%N :: digits u
  | Decimal.D6 u => 54%N :: digits u
  | Decimal.D7 u => 55%N :: digits u
  | Decimal.D8 u => 56%N :: digits u
  | Decimal.D9 u => 57%N :: digits u
  end.

(** The integers that a double holds exactly, each with its neighbours:
    [Number.isSafeInteger]. *)
Definition safeInteger (n : Z) : bool := (Z.abs n <=? 2 ^ 53 - 1)%Z.

(** [String(n)] for a safe integer: its decimal digits, with a minus sign
    when negative. Beyond the safe integers a number is a double that
    stands for many integers and [String] prints the shortest digits that
    read back as it ([String(2 ** 60)] ends in three zeros): such numbers
    are outside the model, and [numberToString] is used at safe integers
    only (a status code, a count of rows, a cell that [safeValue]
    accepts). *)
Definition numberToString (n : Z) : jsstring :=
  match Z.to_int n with
  | Decimal.Pos u => digits u
  | Decimal.Neg u => 45%N :: digits u
  end.

(** The values a parsed spreadsheet cell can hold. Numbers are restricted
    to the integers, and [VNum n] stands for a number of JavaScript only
    when [n] is a safe integer. *)
Inductive jsvalue :=
| VStr (s : jsstring)
| VNum (n : Z)
| VBool (b : bool).

Definition safeValue (v : jsvalue) : bool :=
  match v with
  | VNum n => safeInteger n
  | _ => true
  end.

(** Truthiness of [jsvalue | undefined]. *)
Definition truthy_value (v : option jsvalue) : bool :=
  match v with
  | None => false
  | Some (VStr s) => truthy s
  | Some (VNum n) => negb (n =? 0)%Z
  | Some (VBool b) => b
  end.

(** [String(v)]. *)
Definition String (v : option jsvalue) : jsstring :=
  match v with
  | None => str "undefined"
  | Some (VStr s) => s
  | Some (VNum n) => numberToString n
  | Some (VBool true) => str "true"
  | Some (VBool false) => str "false"
  end.

(** A plain object with string keys: its own properties in the order
    [Object.keys] lists them. *)
Definition object := list (jsstring * jsvalue).

Definition keys (o : object) : list jsstring := fst <$> o.

(** [o[k]], with [None] for [undefined]. *)
Fixpoint get (o : object) (k : jsstring) : option jsvalue :=
  match o with
  | [] => None
  | (k', v) :: o' => if eqb k' k then Some v else get o' k
  end.

(** [a.find(p)]. *)
Fixpoint find {A} (p : A → bool) (l : list A) : option A :=
  match l with
  | [] => None
  | x :: l' => if p x then Some x else find p l'
  end.

(** The completion of a call that may throw: [Throw] carries the
    [message] of the error. *)
Inductive Result (A : Type) :=
| Ok (a : A)
| Throw (message : jsstring).
Arguments Ok {A} a.
Arguments Throw {A} message.

#[export] Instance Result_ret : MRet Result := fun _ a => Ok a.

#[export] Instance Result_bind : MBind Result := fun _ _ k m =>
  match m with
  | Ok a => k a
  | Throw message => Throw message
  end.

(** [try { body } catch (error) { handler error.message }] *)
Definition try_catch {A} (body : Result A) (handler : jsstring → Result A)
  : Result A :=
  match body with
  | Ok a => Ok a
  | Throw message => handler message
  end.

End JS.

Import JS.

(* ================================================================= *)
(** ** types.ts *)

Module Status.
Inductive t := pending | processing | completed | error.

Definition eqb (a b : t) : bool :=
  match a, b with
  | pending, pending | processing, processing
  | completed, completed | error, error => true
  | _, _ => false
  end.
End Status.

#[export] Instance Status_eq_dec : EqDecision Status.t.
Proof. solve_decision. Defined.

(** [rewritten] is [string | null]; the optional fields are [None] when
    absent or [undefined]. *)
Record CaptionRow := {
  id : jsstring;
  original : jsstring;
  rewritten : option jsstring;
  status : Status.t;
  imagePath : option jsstring;
  imageData : option jsstring;
  error : option jsstring
}.

Record ProcessingStats := {
  total : nat;
  completed : nat;
  failed : nat
}.

Record HistorySession := {
  session_id : jsstring;
  timestamp : N;
  name : jsstring;
  stats : ProcessingStats;
  session_data : list CaptionRow
}.

Module StatusText.
(** The status as the string literal of the union type. *)
Definition to_string (s : Status.t) : jsstring :=
  match s with
  | Status.pending => str "pending"
  | Status.processing => str "processing"
  | Status.completed => str "completed"
  | Status.error => str "error"
  end.
End StatusText.

(* ================================================================= *)
(** ** The diff library *)

(** [Diff.diffChars] belongs to the third-party package [diff]; the
    application only consumes the list of changes it returns. The library
    is taken as a parameter, and [Spec] records the part of its contract
    the properties below rely on. *)
Module Diff.

Record Change := {
  value : jsstring;
  added : bool;
  removed : bool
}.

Class Lib := diffChars : jsstring → jsstring → list Change.

Definition sameKind (p q : Change) : bool :=
  Bool.eqb (added p) (added q) && Bool.eqb (removed p) (removed q).

(** Consecutive changes are of different kinds (the library merges runs of
    one kind into a single change). *)
Fixpoint alternating (l : list Change) : bool :=
  match l with
  | [] => true
  | p :: l' =>
      match l' with
      | [] => true
      | q :: _ => negb (sameKind p q) && alternating l'
      end
  end.

(** The text of the changes that are not [added] (resp. not [removed]). *)
Definition oldText (l : list Change) : jsstring :=
  mjoin (value <$> filter (fun p => added p = false) l).

Definition newText (l : list Change) : jsstring :=
  mjoin (value <$> filter (fun p => removed p = false) l).

Class Spec (L : Lib) : Prop := {
  (** the changes that are not additions spell the old string *)
  diff_old : ∀ o n, oldText (diffChars o n) = o;
  (** the changes that are not removals spell the new string *)
  diff_new : ∀ o n, newText (diffChars o n) = n;
  (** a change carries at least one character, unless both strings are
      empty *)
  diff_nonempty : ∀ o n p,
    p ∈ diffChars o n → value p = [] → o = [] ∧ n = [];
  (** no change is both an addition and a removal *)
  diff_exclusive : ∀ o n p,
    p ∈ diffChars o n → added p && removed p = false;
  diff_alternating : ∀ o n, alternating (diffChars o n) = true
}.

(** A diff that never looks for a common part: a concrete library that
    meets [Spec]. *)
Definition wholesale : Lib := fun o n =>
  if bool_decide (o = n) then
    match o with
    | [] => []
    | _ => [ {| value := o; added := false; removed := false |} ]
    end
  else
    (match o with
     | [] => []
     | _ => [ {| value := o; added := false; removed := true |} ]
     end) ++
    (match n with
     | [] => []
     | _ => [ {| value := n; added := true; removed := false |} ]
     end).

End Diff.

(* ================================================================= *)
(** ** services/fileParser.ts *)

Module FileParser.

(** *** The worksheet read by [parseExcel] *)

(** The first sheet of a workbook as [XLSX.utils.sheet_to_json] sees it: a
    header row and data rows whose cells may be empty. The header cells
    are strings, one for each of the first columns; a data row may reach
    beyond them. The header names are taken to be distinct, not to look
    like array indices, as [Object.keys] would list such keys first, and
    not to be of the form [__EMPTY], [__EMPTY_1], ... *)
Record Sheet := {
  header : list jsstring;
  rows : list (list (option jsvalue))
}.

(** The key that [sheet_to_json] makes up for the [k]-th column without
    a header cell: [__EMPTY], [__EMPTY_1], [__EMPTY_2], ... *)
Definition emptyKey (k : nat) : jsstring :=
  match k with
  | 0 => str "__EMPTY"
  | S _ => str "__EMPTY_" ++ numberToString (Z.of_nat k)
  end.

(** One data row as an object: the cells that are present, keyed by their
    header, in column order; [k] counts the columns without header passed
    so far. *)
Fixpoint rowObject (hdr : list jsstring) (k : nat)
    (cells : list (option jsvalue)) : object :=
  match cells with
  | [] => []
  | cell :: cells' =>
      let key := match hdr with h :: _ => h | [] => emptyKey k end in
      let rest := match hdr with
                  | _ :: hdr' => rowObject hdr' k cells'
                  | [] => rowObject [] (S k) cells'
                  end in
      match cell with
      | Some v => (key, v) :: rest
      | None => rest
      end
  end.

(** [sheet_to_json] with its default options: empty cells give no
    property, and rows without any cell are skipped. *)
Definition sheet_to_json (s : Sheet) : list object :=
  filter (fun o => o ≠ []) (rowObject (header s) 0 <$> rows s).

(** [parseExcel]: the rows of the first sheet. A file that cannot be read
    rejects the promise; the caller then reports it and imports nothing. *)
Definition parseExcel (s : Sheet) : list object := sheet_to_json s.

(** *** [extractRewrittenText] *)

(** Case folding of the [i] flag: without the [u] flag a character
    outside ASCII never folds to an ASCII letter. *)
Definition canon (c : N) : N :=
  if ((97 <=? c) && (c <=? 122))%N then (c - 32)%N else c.

(** The alternatives of the pattern, in the order they are tried. *)
Definition markers : list jsstring :=
  [ [0x6539; 0x5199]%N ++ str "caption";   (* 改写caption *)
    str "Rewritten Caption";
    [0x6539; 0x5199; 0x540E]%N;            (* 改写后 *)
    str "Final Caption" ].

(** The text left after marker [m] when [s] starts with it. *)
Fixpoint matchMarker (m s : jsstring) : option jsstring :=
  match m, s with
  | [], _ => Some s
  | _ :: _, [] => None
  | b :: m', a :: s' =>
      if (canon a =? canon b)%N then matchMarker m' s' else None
  end.

(** [:] or the full-width colon U+FF1A. *)
Definition isColon (c : N) : bool := ((c =? 0x3A) || (c =? 0xFF1A))%N.

(** [\s*[:：]\s*([\s\S]+)$] on the text after a marker; the result is the
    capture group. Both [\s*] are greedy. When only white space follows
    the colon, the second [\s*] gives back its last code unit, which is
    then the whole capture. *)
Definition matchTail (s : jsstring) : option jsstring :=
  match trimStart s with
  | c :: rest =>
      if isColon c then
        match trimStart rest with
        | [] => match rev rest with
                | c' :: _ => Some [c']
                | [] => None
                end
        | g => Some g
        end
      else None
  | [] => None
  end.

Fixpoint matchAlternatives (ms : list jsstring) (s : jsstring)
  : option jsstring :=
  match ms with
  | [] => None
  | m :: ms' =>
      match matchMarker m s ≫= matchTail with
      | Some g => Some g
      | None => matchAlternatives ms' s
      end
  end.

(** [fullText.match(/(?:...)\s*[:：]\s*([\s\S]+)$/i)]: capture group 1 of
    the leftmost match. *)
Fixpoint regexMatch (s : jsstring) : option jsstring :=
  match matchAlternatives markers s with
  | Some g => Some g
  | None =>
      match s with
      | [] => None
      | _ :: s' => regexMatch s'
      end
  end.

Definition extractRewrittenText (fullText : option jsstring) : jsstring :=
  match fullText with
  | None => []
  | Some [] => []
  | Some text =>
      match regexMatch text with
      | Some g => if truthy g then trim g else text
      | None => text
      end
  end.

(** *** [exportToCSV] *)

(** The objects [handleDownload] builds, one per row. *)
Record ExportItem := {
  ID : jsstring;
  OriginalCaption : jsstring;
  RewrittenCaption : jsstring;
  ImagePath : jsstring;
  Status : jsstring;
  Error : jsstring
}.

Inductive RunStyle :=
| Plain
| GreenBoldUnderline      (* a removed part, in the original column *)
| GreenBold.              (* an added part, in the rewritten column *)

Record TextRun := { t : jsstring; pr : RunStyle }.

(** A caption cell as it is assigned to the worksheet:
    [{ t: 's', r: runs }], or [{ t: 's', ...text }] when there is no run,
    which spreads the code units of the text. Neither has the property
    [v] that holds the value of a cell. *)
Inductive Cell :=
| Rich (r : list TextRun)
| Bare (s : jsstring).

(** [cell.v] of a caption cell. *)
Definition cellValue (c : Cell) : option jsstring := None.

Record SheetRow := {
  colID : jsstring;
  colOriginal : Cell;
  colRewritten : Cell;
  colImagePath : jsstring;
  colStatus : jsstring;
  colError : jsstring
}.

Record Workbook := {
  sheetName : jsstring;
  headerRow : list jsstring;
  body : list SheetRow
}.

Section ExportToCSV.
Context {L : Diff.Lib}.

(** The original column: additions are skipped, removals highlighted. *)
Definition originalRuns (diff : list Diff.Change) : list TextRun :=
  omap (fun part =>
    if Diff.added part then None
    else if Diff.removed part
         then Some {| t := Diff.value part; pr := GreenBoldUnderline |}
         else Some {| t := Diff.value part; pr := Plain |}) diff.

(** The rewritten column: removals are skipped, additions highlighted. *)
Definition rewrittenRuns (diff : list Diff.Change) : list TextRun :=
  omap (fun part =>
    if Diff.removed part then None
    else if Diff.added part
         then Some {| t := Diff.value part; pr := GreenBold |}
         else Some {| t := Diff.value part; pr := Plain |}) diff.

Definition richTextRow (item : ExportItem) : SheetRow :=
  let originalText := or_else (OriginalCaption item) [] in
  let rawRewritten := or_else (RewrittenCaption item) [] in
  let cleanRewritten := extractRewrittenText (Some rawRewritten) in
  let diff := Diff.diffChars originalText cleanRewritten in
  let oruns := originalRuns diff in
  let rruns := rewrittenRuns diff in
  {| colID := ID item;
     colOriginal := if (0 <? length oruns)%nat then Rich oruns
                    else Bare originalText;
     colRewritten := if (0 <? length rruns)%nat then Rich rruns
                     else Bare cleanRewritten;
     colImagePath := ImagePath item;
     colStatus := Status item;
     colError := Error item |}.

Definition exportToCSV (data : list ExportItem) : Workbook :=
  {| sheetName := str "Rewritten Captions";
     headerRow := [ str "ID"; str "Original Caption (Diff)";
                    str "Rewritten Caption (Diff)"; str "Image Path";
                    str "Status"; str "Error" ];
     body := richTextRow <$> data |}.

End ExportToCSV.

(** *** The file written by [XLSX.writeFile], read back by [parseExcel] *)

(** What the spreadsheet library is taken to do with the worksheet that
    [exportToCSV] hands to it. A cell is written when it has a value
    [v]: the cells placed by [sheet_add_aoa] have the string they were
    given, the caption cells have none. A text that was written is read
    back as the same text (the texts are taken to be such that the file
    format holds them: at most 32767 characters, and no character that
    XML cannot carry); whether an empty text comes back as an empty
    string or as no cell at all is left to the library ([keep]). *)
Definition textCell (keep : bool) (s : jsstring) : option jsvalue :=
  if keep || truthy s then Some (VStr s) else None.

Definition fileRow (keep : bool) (r : SheetRow) : list (option jsvalue) :=
  [ textCell keep (colID r);
    (fun s => VStr s) <$> cellValue (colOriginal r);
    (fun s => VStr s) <$> cellValue (colRewritten r);
    textCell keep (colImagePath r);
    textCell keep (colStatus r);
    textCell keep (colError r) ].

Definition fileSheet (keep : bool) (wb : Workbook) : Sheet :=
  {| header := headerRow wb; rows := fileRow keep <$> body wb |}.

(** The rows [parseExcel] returns for the file of the workbook [wb]. *)
Definition readBack (keep : bool) (wb : Workbook) : list object :=
  parseExcel (fileSheet keep wb).

End FileParser.

(* ================================================================= *)
(** ** components/DataPreview.tsx *)

Module DataPreview.

(** The component has its own copy of the helper, with the same body. *)
Definition extractRewrittenText := FileParser.extractRewrittenText.

Inductive ViewType := original_view | rewritten_view.

(** The spans [DiffView] renders. *)
Inductive Span :=
| Highlight (s : jsstring)        (* green background *)
| Unchanged (s : jsstring).

Section DiffView.
Context {L : Diff.Lib}.

Definition DiffView (original rewritten : jsstring) (type : ViewType)
  : list Span :=
  let cleanRewritten := extractRewrittenText (Some rewritten) in
  let diff := Diff.diffChars (or_else original []) (or_else cleanRewritten []) in
  omap (fun part =>
    match type with
    | original_view =>
        if Diff.added part then None
        else if Diff.removed part then Some (Highlight (Diff.value part))
        else Some (Unchanged (Diff.value part))
    | rewritten_view =>
        if Diff.removed part then None
        else if Diff.added part then Some (Highlight (Diff.value part))
        else Some (Unchanged (Diff.value part))
    end) diff.

End DiffView.

End DataPreview.

(* ================================================================= *)
(** ** services/storage.ts *)

Module Storage.

(** *** Local storage *)

(** A JSON value that is not a list of sessions. [FArr] is a non-empty
    array holding something else than sessions, [FObj] any object. *)
Inductive Foreign :=
| FNull
| FBool (b : bool)
| FNum (n : Z)
| FStr (s : jsstring)
| FObj
| FArr.

(** What [JSON.parse] returns for a text it accepts. A list of sessions is
    kept as such; the order of the keys inside an object plays no role. A
    property whose value is [undefined] is left out by [JSON.stringify]
    and reads as [undefined] again after [JSON.parse]: both are [None]. *)
Inductive JsonValue :=
| Sessions (l : list HistorySession)
| Other (f : Foreign).

(** The string kept under a key. A JSON text is represented by the value
    it denotes, so that [JSON.parse (JSON.stringify v)] is [v]; [Text] is a
    string that [JSON.parse] rejects, the empty string among them. *)
Inductive Stored :=
| Text (s : jsstring)
| Json (v : JsonValue).

(** The entry under [STORAGE_KEY], and the values the storage has room
    for: [setItem] throws on the others (quota exceeded). *)
Record LocalStorage := {
  history : option Stored;
  fits : JsonValue → bool
}.

Definition STORAGE_KEY : jsstring := str "caption_rewriter_history".

Definition getItem (ls : LocalStorage) : option Stored := history ls.

(** [localStorage.setItem(STORAGE_KEY, JSON.stringify(v))] *)
Definition setItem (ls : LocalStorage) (v : JsonValue) : Result LocalStorage :=
  if fits ls v then Ok {| history := Some (Json v); fits := fits ls |}
  else Throw (str "QuotaExceededError").

Definition JSON_parse (raw : Stored) : Result JsonValue :=
  match raw with
  | Text _ => Throw (str "SyntaxError")
  | Json v => Ok v
  end.

(** Truthiness of the stored string: a JSON text is never empty. *)
Definition nonEmpty (raw : Stored) : bool :=
  match raw with
  | Text s => truthy s
  | Json _ => true
  end.

(** *** The heap of row objects and arrays *)

(** Rows are objects and row lists are arrays of references to them. *)
Record Heap := {
  objects : gmap nat CaptionRow;
  arrays : gmap nat (list nat)
}.

Definition alloc_object (h : Heap) (r : CaptionRow) : Heap * nat :=
  let l := fresh (dom (objects h)) in
  ({| objects := <[l := r]> (objects h); arrays := arrays h |}, l).

Definition alloc_array (h : Heap) (a : list nat) : Heap * nat :=
  let l := fresh (dom (arrays h)) in
  ({| objects := objects h; arrays := <[l := a]> (arrays h) |}, l).

(** The rows an array refers to. [None] stands for a dangling reference,
    which a JavaScript heap does not have. *)
Definition read_array (h : Heap) (a : nat) : option (list CaptionRow) :=
  ls ← arrays h !! a; mapM (fun l => objects h !! l) ls.

(** [data.map(row => ({ ...f row }))]: one new object per element. *)
Fixpoint map_objects (f : CaptionRow → CaptionRow) (h : Heap) (ls : list nat)
  : option (Heap * list nat) :=
  match ls with
  | [] => Some (h, [])
  | l :: ls' =>
      r ← objects h !! l;
      let '(h1, l') := alloc_object h (f r) in
      '(h2, ls'') ← map_objects f h1 ls';
      Some (h2, l' :: ls'')
  end.

(** [{ ...row, imageData: undefined }] *)
Definition strip (row : CaptionRow) : CaptionRow :=
  {| id := id row;
     original := original row;
     rewritten := rewritten row;
     status := status row;
     imagePath := imagePath row;
     imageData := None;
     error := error row |}.

Definition stripImageData (h : Heap) (data : nat) : option (Heap * nat) :=
  ls ← arrays h !! data;
  '(h1, ls') ← map_objects strip h ls;
  Some (alloc_array h1 ls').

(** *** Sessions *)

(** What the environment supplies to one call of [saveSession]: the
    identifier from [uuidv4], [Date.now()] and the formatted date. *)
Record Env := {
  uuid : jsstring;
  now : N;
  dateLabel : jsstring
}.

Definition getSessions (ls : LocalStorage) : Result JsonValue :=
  try_catch
    (match getItem ls with
     | Some raw => if nonEmpty raw then JSON_parse raw else Ok (Sessions [])
     | None => Ok (Sessions [])
     end)
    (fun _ => Ok (Sessions [])).

(** [[newSession, ...sessions]]: a TypeError when [sessions] is not
    iterable. A string spreads into its characters. *)
Definition prepend (s : HistorySession) (sessions : JsonValue)
  : Result JsonValue :=
  match sessions with
  | Sessions l => Ok (Sessions (s :: l))
  | Other (FStr []) => Ok (Sessions [s])
  | Other (FStr _) => Ok (Other FArr)
  | Other FArr => Ok (Other FArr)
  | Other _ => Throw (str "TypeError")
  end.

(** [a.slice(0, 20)] *)
Definition slice20 (v : JsonValue) : JsonValue :=
  match v with
  | Sessions l => Sessions (take 20 l)
  | Other f => Other f
  end.

(** 保存历史记录失败，可能是存储空间已满。 *)
Definition saveFailed : jsstring :=
  [0x4FDD; 0x5B58; 0x5386; 0x53F2; 0x8BB0; 0x5F55; 0x5931; 0x8D25; 0xFF0C;
   0x53EF; 0x80FD; 0x662F; 0x5B58; 0x50A8; 0x7A7A; 0x95F4; 0x5DF2; 0x6EE1;
   0x3002]%N.

(** What [saveSession] returns: the new session, and the array its [data]
    property refers to. *)
Record Saved := {
  session : HistorySession;
  dataRef : nat
}.

(** The objects made by [stripImageData] stay on the heap whether or not
    the rest of the [try] block throws; the storage changes only when
    [setItem] succeeds. The outer [None] is a dangling reference. *)
Definition saveSession (e : Env) (h : Heap) (ls : LocalStorage)
    (data : nat) (stats : ProcessingStats)
  : option (Result Saved * Heap * LocalStorage) :=
  '(h', stripped) ← stripImageData h data;
  rowsOut ← read_array h' stripped;
  let newSession :=
    {| session_id := uuid e;
       timestamp := now e;
       name := str "Session " ++ dateLabel e;
       stats := stats;
       session_data := rowsOut |} in
  let attempt :=
    try_catch
      (sessions ← getSessions ls;
       updatedSessions ← prepend newSession sessions;
       ls' ← setItem ls (slice20 updatedSessions);
       Ok ({| session := newSession; dataRef := stripped |}, ls'))
      (fun _ => Throw saveFailed) in
  Some
    match attempt with
    | Ok (saved, ls') => (Ok saved, h', ls')
    | Throw message => (Throw message, h', ls)
    end.

(** A series of saves, each with what its environment supplies, the array
    it is given and the stats; [None] as soon as one of them throws. The
    sessions returned are listed in the order of the calls. *)
Fixpoint saveAll (calls : list (Env * nat * ProcessingStats)) (h : Heap)
    (ls : LocalStorage) : option (list HistorySession * Heap * LocalStorage) :=
  match calls with
  | [] => Some ([], h, ls)
  | (e, data, stats) :: calls' =>
      match saveSession e h ls data stats with
      | Some (Ok saved, h', ls') =>
          '(l, h'', ls'') ← saveAll calls' h' ls';
          Some (session saved :: l, h'', ls'')
      | _ => None
      end
  end.

End Storage.

(* ================================================================= *)
(** ** services/gemini.ts *)

Module Gemini.

(** [DEFAULT_SYSTEM_PROMPT] comes from the constants module. *)
Class Constants := DEFAULT_SYSTEM_PROMPT : jsstring.

Record RewriteResult := {
  rewritten : jsstring;
  extractedOriginal : option jsstring
}.

Record Input := {
  text : option jsstring;
  imageData : option jsstring
}.

(** The requests sent over the network. The prompt templates are fixed
    texts around the fields kept here. *)
Inductive Request :=
| Fetch (url apiKey model systemInstruction text : jsstring)
| GenerateContent (apiKey model systemInstruction : jsstring)
    (image text : option jsstring).

(** What comes back from [fetch]. *)
Inductive FetchReply :=
| FetchRejected (message : jsstring)
    (* the promise rejects *)
| FetchNotOk (status : Z) (errMessage : option jsstring)
    (* [response.ok] is false; [errData.error?.message] *)
| FetchBadBody (message : jsstring)
    (* [response.json()] rejects *)
| FetchOk (content : option jsstring).
    (* [data.choices?.[0]?.message?.content] *)

(** What comes back from [ai.models.generateContent]: an error, or the
    text of the response together with what [JSON.parse] makes of it
    ([None] when it throws, else the [rewritten] and [extractedOriginal]
    properties). *)
Inductive GenReply :=
| GenRejected (message : jsstring)
| GenText (text : option jsstring)
    (parsed : option (option jsstring * option jsstring)).

(** The answer of the outside world to whichever request is made. *)
Record Net := {
  fetchReply : FetchReply;
  genReply : GenReply
}.

(** 目前仅支持纯文本改写 (Excel 模式)。如需处理图片，请切换回 Gemini 模型。
    with the space that precedes it in the template. *)
Definition textOnlyNotice : jsstring :=
  [0x0020; 0x76EE; 0x524D; 0x4EC5; 0x652F; 0x6301; 0x7EAF; 0x6587; 0x672C;
   0x6539; 0x5199; 0x0020; 0x0028; 0x0045; 0x0078; 0x0063; 0x0065; 0x006C;
   0x0020; 0x6A21; 0x5F0F; 0x0029; 0x3002; 0x5982; 0x9700; 0x5904; 0x7406;
   0x56FE; 0x7247; 0xFF0C; 0x8BF7; 0x5207; 0x6362; 0x56DE; 0x0020; 0x0047;
   0x0065; 0x006D; 0x0069; 0x006E; 0x0069; 0x0020; 0x6A21; 0x578B;
   0x3002]%N.

(** The separator between the default prompt and the custom rules:
    two line feeds, 附加规则文件内容, a colon and a line feed. *)
Definition rulesHeading : jsstring :=
  [0x000A; 0x000A; 0x9644; 0x52A0; 0x89C4; 0x5219; 0x6587; 0x4EF6; 0x5185;
   0x5BB9; 0x003A; 0x000A]%N.

Definition callOpenAICompatibleApi (apiKey modelName : jsstring)
    (input : Input) (systemInstruction : jsstring) (net : Net)
  : list Request * Result RewriteResult :=
  if truthy_opt (imageData input) then
    ([], Throw (modelName ++ textOnlyNotice))
  else
    match text input with
    | None | Some [] =>
        ([], Throw (str "No text input provided for text-only model."))
    | Some txt =>
        let baseUrl :=
          if includes modelName (str "deepseek")
          then Some (str "https://api.deepseek.com/chat/completions")
          else if includes modelName (str "moonshot")
          then Some (str "https://api.moonshot.cn/v1/chat/completions")
          else None in
        match baseUrl with
        | None => ([], Throw (str "Unknown model provider"))
        | Some url =>
            let fallback :=
              str "Failed to rewrite caption via external provider" in
            ([Fetch url apiKey modelName systemInstruction txt],
             match fetchReply net with
             | FetchRejected m => Throw (or_else m fallback)
             | FetchNotOk status errMessage =>
                 let m := match or_undefined errMessage with
                          | Some m => m
                          | None => str "API Error: " ++ numberToString status
                          end in
                 Throw (or_else m fallback)
             | FetchBadBody m => Throw (or_else m fallback)
             | FetchOk content =>
                 Ok {| rewritten :=
                         match or_undefined content with
                         | Some c => c
                         | None => str "No response generated"
                         end;
                       extractedOriginal := text input |}
             end)
        end
    end.

Section Rewrite.
Context {C : Constants}.

Definition rewriteCaption (apiKey modelName : jsstring) (input : Input)
    (customRules : jsstring) (net : Net)
  : list Request * Result RewriteResult :=
  if negb (truthy apiKey) then ([], Throw (str "API Key is missing"))
  else
    let systemInstruction :=
      if truthy customRules
      then DEFAULT_SYSTEM_PROMPT ++ rulesHeading ++ customRules
      else DEFAULT_SYSTEM_PROMPT in
    let isGoogleModel := includes modelName (str "gemini") in
    if negb isGoogleModel then
      callOpenAICompatibleApi apiKey modelName input systemInstruction net
    else
      let fallback := str "Failed to rewrite caption" in
      if truthy_opt (imageData input) then
        ([GenerateContent apiKey modelName systemInstruction
            (imageData input) (or_undefined (text input))],
         match genReply net with
         | GenRejected m => Throw (or_else m fallback)
         | GenText txt parsed =>
             let jsonText := match or_undefined txt with
                             | Some j => j
                             | None => str "{}"
                             end in
             let parsed := if truthy_opt txt then parsed
                           else Some (None, None) in
             match parsed with
             | Some (rw, eo) =>
                 Ok {| rewritten :=
                         match or_undefined rw with
                         | Some r => r
                         | None => str "Failed to generate caption"
                         end;
                       extractedOriginal :=
                         match or_undefined eo with
                         | Some e => Some e
                         | None =>
                             match or_undefined (text input) with
                             | Some i => Some i
                             | None => Some []
                             end
                         end |}
             | None =>
                 Ok {| rewritten := jsonText;
                       extractedOriginal := text input |}
             end
         end)
      else if truthy_opt (text input) then
        ([GenerateContent apiKey modelName systemInstruction
            None (text input)],
         match genReply net with
         | GenRejected m => Throw (or_else m fallback)
         | GenText txt _ =>
             Ok {| rewritten :=
                     match or_undefined txt with
                     | Some r => r
                     | None => str "No response generated"
                     end;
                   extractedOriginal := text input |}
         end)
      else ([], Throw (str "No input provided")).

End Rewrite.

End Gemini.

(* ================================================================= *)
(** ** App.tsx *)

Module App.

(** The state of the component that the handlers below read and write. *)
Record State := {
  apiKey : jsstring;
  customRules : jsstring;
  selectedModel : jsstring;
  data : list CaptionRow;
  isProcessing : bool;
  processingStats : ProcessingStats;
  stopProcessingRef : bool
}.

Definition setData (f : list CaptionRow → list CaptionRow) (s : State) : State :=
  {| apiKey := apiKey s; customRules := customRules s;
     selectedModel := selectedModel s; data := f (data s);
     isProcessing := isProcessing s; processingStats := processingStats s;
     stopProcessingRef := stopProcessingRef s |}.

Definition setProcessingStats (f : ProcessingStats → ProcessingStats)
    (s : State) : State :=
  {| apiKey := apiKey s; customRules := customRules s;
     selectedModel := selectedModel s; data := data s;
     isProcessing := isProcessing s; processingStats := f (processingStats s);
     stopProcessingRef := stopProcessingRef s |}.

Definition setIsProcessing (b : bool) (s : State) : State :=
  {| apiKey := apiKey s; customRules := customRules s;
     selectedModel := selectedModel s; data := data s;
     isProcessing := b; processingStats := processingStats s;
     stopProcessingRef := stopProcessingRef s |}.

Definition setStopProcessingRef (b : bool) (s : State) : State :=
  {| apiKey := apiKey s; customRules := customRules s;
     selectedModel := selectedModel s; data := data s;
     isProcessing := isProcessing s; processingStats := processingStats s;
     stopProcessingRef := b |}.

(** *** [handleExcelUpload] *)

Definition isCaptionKey (k : jsstring) : bool :=
  includes (toLowerCase k) (str "caption")
  || includes (toLowerCase k) (str "desc")
  || includes (toLowerCase k) [0x63CF; 0x8FF0]%N.          (* 描述 *)

Definition isImageKey (k : jsstring) : bool :=
  includes (toLowerCase k) (str "path")
  || includes (toLowerCase k) (str "image")
  || includes (toLowerCase k) (str "img")
  || includes (toLowerCase k) [0x56FE; 0x7247]%N.          (* 图片 *)

(** [Object.keys(row).find(...) || Object.keys(row)[0]] *)
Definition captionKey (row : object) : option jsstring :=
  match or_undefined (find isCaptionKey (keys row)) with
  | Some k => Some k
  | None => head (keys row)
  end.

Definition imageKey (row : object) : option jsstring :=
  find isImageKey (keys row).

(** [row[k]]; an [undefined] key reads the property named "undefined". *)
Definition getAt (row : object) (k : option jsstring) : option jsvalue :=
  get row (default (str "undefined") k).

Definition importRow (newId : jsstring) (row : object) : CaptionRow :=
  let cell := getAt row (captionKey row) in
  {| id := newId;
     original := if truthy_value cell then String cell else [];
     rewritten := None;
     status := Status.pending;
     imagePath := if truthy_opt (imageKey row)
                  then Some (String (getAt row (imageKey row)))
                  else None;
     imageData := None;
     error := None |}.

(** [item.original && item.original.trim() !== ''] *)
Definition hasCaption (item : CaptionRow) : bool :=
  truthy (original item) && negb (eqb (trim (original item)) []).

(** The rows built from the parsed sheet; [uuidv4 i] is the identifier
    drawn for the row at position [i]. *)
Definition processedData (uuidv4 : nat → jsstring) (jsonData : list object)
  : list CaptionRow :=
  filter (fun item => hasCaption item)
         (imap (fun i row => importRow (uuidv4 i) row) jsonData).

Definition handleExcelUpload (uuidv4 : nat → jsstring)
    (jsonData : list object) (s : State) : State :=
  let rows := processedData uuidv4 jsonData in
  setProcessingStats
    (fun _ => {| total := length rows; completed := 0; failed := 0 |})
    (setData (fun _ => rows) s).

(** *** [handleDownload] *)

Definition exportItem (item : CaptionRow) : FileParser.ExportItem :=
  {| FileParser.ID := id item;
     FileParser.OriginalCaption := original item;
     FileParser.RewrittenCaption := default [] (or_undefined (rewritten item));
     FileParser.ImagePath := default [] (or_undefined (imagePath item));
     FileParser.Status := StatusText.to_string (status item);
     FileParser.Error := default [] (or_undefined (error item)) |}.

Definition handleDownload {L : Diff.Lib} (s : State) : FileParser.Workbook :=
  FileParser.exportToCSV (exportItem <$> data s).

(** *** [startProcessing] and [stopProcessing] *)

Definition CONCURRENCY : nat := 3.

(** A worker is suspended at its [await], holding the queue position it
    claimed, or has returned. *)
Inductive Worker :=
| Waiting (currentIndex : nat)
| Returned.

(** One invocation of [rewriteCaption]: the row it is for and its input.
    The other arguments are those of the state. *)
Record Call := {
  originalIndex : nat;
  input : Gemini.Input
}.

(** A run of [startProcessing]: the component state, the variables of the
    closure ([itemsToProcess], [index]), the workers, and the log of the
    calls made so far, oldest first. The settings that the closure holds
    are those of the state, which no event of a run changes. *)
Record Run := {
  st : State;
  itemsToProcess : list (CaptionRow * nat);
  index : nat;
  workers : list Worker;
  calls : list Call
}.

Definition eligible (item : CaptionRow) : bool :=
  Status.eqb (status item) Status.pending
  || Status.eqb (status item) Status.error.

(** [newData[i] = f newData[i]] on a copy of the list. In a run that no
    other handler disturbs the index of a queued row is always in range
    (lemma [queue_in_range]). Beyond the end JavaScript extends the array
    with the object that [f] builds from [undefined]; this arises only
    when the list is replaced during the run, which [run] does not
    follow, and the list is then left as it is. *)
Definition replaceAt (i : nat) (f : CaptionRow → CaptionRow)
    (l : list CaptionRow) : list CaptionRow :=
  match l !! i with
  | Some row => <[i := f row]> l
  | None => l
  end.

(** [{ ...row, status: 'processing', error: undefined }] *)
Definition markProcessing (row : CaptionRow) : CaptionRow :=
  {| id := id row; original := original row; rewritten := rewritten row;
     status := Status.processing; imagePath := imagePath row;
     imageData := imageData row; error := None |}.

(** [{ ...row, status: 'completed', rewritten: result.rewritten,
       original: result.extractedOriginal || row.original }] *)
Definition markCompleted (result : Gemini.RewriteResult) (row : CaptionRow)
  : CaptionRow :=
  {| id := id row;
     original := default (original row)
                   (or_undefined (Gemini.extractedOriginal result));
     rewritten := Some (Gemini.rewritten result);
     status := Status.completed; imagePath := imagePath row;
     imageData := imageData row; error := error row |}.

(** [{ ...row, status: 'error', error: err.message }] *)
Definition markError (message : jsstring) (row : CaptionRow) : CaptionRow :=
  {| id := id row; original := original row; rewritten := rewritten row;
     status := Status.error; imagePath := imagePath row;
     imageData := imageData row; error := Some message |}.

Definition writeBack (o : Result Gemini.RewriteResult) (row : CaptionRow)
  : CaptionRow :=
  match o with
  | Ok result => markCompleted result row
  | Throw message => markError message row
  end.

Definition withSt (f : State → State) (r : Run) : Run :=
  {| st := f (st r); itemsToProcess := itemsToProcess r; index := index r;
     workers := workers r; calls := calls r |}.

Definition inputOf (item : CaptionRow) : Gemini.Input :=
  {| Gemini.text := or_undefined (Some (original item));
     Gemini.imageData := or_undefined (imageData item) |}.

(** The loop of a worker from its head up to the next [await] or to its
    exit: the stop flag is read, a queue position is claimed, the row is
    marked and [rewriteCaption] is called. The input is read from the row
    object of the queue when the position is claimed; the queue holds
    that object as it was at the start, as nothing writes into a row
    object during a run that no other handler disturbs ([Live.worker_loop]
    reads the object on the heap). *)
Definition worker_loop (r : Run) : Run * Worker :=
  if (index r <? length (itemsToProcess r))%nat then
    if stopProcessingRef (st r) then (r, Returned)
    else
      let currentIndex := index r in
      match itemsToProcess r !! currentIndex with
      | None =>
          ({| st := st r; itemsToProcess := itemsToProcess r;
              index := S (index r); workers := workers r;
              calls := calls r |}, Returned)
      | Some (item, originalIndex) =>
          ({| st := setData (replaceAt originalIndex markProcessing) (st r);
              itemsToProcess := itemsToProcess r;
              index := S (index r);
              workers := workers r;
              calls := calls r ++ [ {| originalIndex := originalIndex;
                                       input := inputOf item |} ] |},
           Waiting currentIndex)
      end
  else (r, Returned).

(** [worker()] up to its first [await]. *)
Definition worker (r : Run) : Run * Worker :=
  if stopProcessingRef (st r) then (r, Returned) else worker_loop r.

Definition spawn (r : Run) : Run :=
  let '(r', w) := worker r in
  {| st := st r'; itemsToProcess := itemsToProcess r'; index := index r';
     workers := workers r' ++ [w]; calls := calls r' |}.

Definition isReturned (w : Worker) : bool :=
  match w with Returned => true | Waiting _ => false end.

(** [Promise.all(workers)] has resolved. *)
Definition finished (r : Run) : bool := forallb isReturned (workers r).

(** The end of [startProcessing], once every worker has returned. *)
Definition settle (r : Run) : Run :=
  if finished r then withSt (setIsProcessing false) r else r.

(** [startProcessing] up to the point where it awaits its workers. When a
    guard fails nothing is started. *)
Definition startProcessing (a : State) : Run :=
  let idle := {| st := a; itemsToProcess := []; index := 0;
                 workers := []; calls := [] |} in
  if negb (truthy (apiKey a)) then idle
  else if (length (data a) =? 0)%nat then idle
  else
    let a1 := setStopProcessingRef false (setIsProcessing true a) in
    let items := filter (fun p => eligible p.1)
                        (imap (fun i item => (item, i)) (data a)) in
    settle
      (Nat.iter CONCURRENCY spawn
         {| st := a1; itemsToProcess := items; index := 0;
            workers := []; calls := [] |}).

Definition stopProcessing (s : State) : State :=
  setIsProcessing false (setStopProcessingRef true s).

(** What happens while [startProcessing] awaits, in a run that no other
    handler disturbs: the call of a waiting worker settles, or the user
    presses the stop button. The component leaves other handlers enabled
    during a run (a second start after a stop, the images of match mode,
    the sessions of the history); module [Live] follows the first two,
    and lemma [quiet_run] shows that its runs with these events only are
    the runs below. *)
Inductive Event :=
| Settled (w : nat) (net : Gemini.Net)
| StopPressed.

Section Processing.
Context {C : Gemini.Constants}.

(** The outcome of the call made for queue entry [item]. *)
Definition outcome (s : State) (item : CaptionRow) (net : Gemini.Net)
  : Result Gemini.RewriteResult :=
  (Gemini.rewriteCaption (apiKey s) (selectedModel s) (inputOf item)
     (customRules s) net).2.

Definition bump (o : Result Gemini.RewriteResult) (p : ProcessingStats)
  : ProcessingStats :=
  match o with
  | Ok _ => {| total := total p; completed := completed p + 1;
               failed := failed p |}
  | Throw _ => {| total := total p; completed := completed p;
                  failed := failed p + 1 |}
  end.

(** Worker [w] resumes after its [await]: the result or the error is
    written back, and the worker goes round its loop again. *)
Definition resume (w : nat) (net : Gemini.Net) (r : Run) : option Run :=
  match workers r !! w with
  | Some (Waiting currentIndex) =>
      match itemsToProcess r !! currentIndex with
      | Some (item, originalIndex) =>
          let o := outcome (st r) item net in
          let r1 := withSt (fun s =>
                      setProcessingStats (bump o)
                        (setData (replaceAt originalIndex (writeBack o)) s)) r in
          let '(r2, w') := worker_loop r1 in
          Some (settle
                  {| st := st r2; itemsToProcess := itemsToProcess r2;
                     index := index r2;
                     workers := <[w := w']> (workers r2);
                     calls := calls r2 |})
      | None => None
      end
  | _ => None
  end.

(** One event; [None] when the event cannot occur in this state. *)
Definition step (r : Run) (e : Event) : option Run :=
  match e with
  | Settled w net => resume w net r
  | StopPressed => Some (withSt stopProcessing r)
  end.

Fixpoint run (r : Run) (es : list Event) : option Run :=
  match es with
  | [] => Some r
  | e :: es' => r' ← step r e; run r' es'
  end.

End Processing.

End App.

(* ================================================================= *)
(** ** services/storage.ts: [deleteSession] *)

Module History.
Import Storage.

(** [sessions.filter(s => s.id !== id)] on what [getSessions] returned.
    Only an array has a [filter]. What an array that holds something else
    than sessions gives depends on its elements (a TypeError for [null],
    an array otherwise) and is left to the parameter [foreign]. *)
Definition filterSessions (id : jsstring) (foreign : Result JsonValue)
    (v : JsonValue) : Result JsonValue :=
  match v with
  | Sessions l => Ok (Sessions (filter (fun s => session_id s ≠ id) l))
  | Other FArr => foreign
  | Other _ => Throw (str "TypeError")
  end.

(** [deleteSession] has no [try]: an error of [filter] or of [setItem]
    reaches the caller, and the storage is then as it was. *)
Definition deleteSession (id : jsstring) (foreign : Result JsonValue)
    (ls : LocalStorage) : Result (JsonValue * LocalStorage) :=
  sessions ← (getSessions ls ≫= filterSessions id foreign);
  ls' ← setItem ls sessions;
  Ok (sessions, ls').

End History.

(* ================================================================= *)
(** ** App.tsx: the handlers of the history and of the uploads *)

(** Each handler is taken to run to its end before the next event is
    handled. For the handlers that await a file this leaves out the
    events that could arrive in between. *)
Module Handlers.
Import Storage History App.

(** [s.endsWith(t)] *)
Definition endsWith (s t : jsstring) : bool :=
  if (length s <? length t)%nat then false
  else eqb (drop (length s - length t) s) t.

Inductive UploadMode := excel | image | match_mode | manual.

(** A file chosen by the user: its name, its MIME type, and what
    [fileToDataURL] makes of it (the data URL, or the error of the
    reader). *)
Record File := {
  fileName : jsstring;
  fileType : jsstring;
  dataURL : Result jsstring
}.

(** The state of the component beside [App.State], the local storage, and
    the messages shown by [alert], oldest first. *)
Record World := {
  app : State;
  uploadMode : UploadMode;
  historySessions : JsonValue;
  manualText : jsstring;
  manualImage : option File;
  manualImagePreview : option jsstring;
  storage : LocalStorage;
  alerts : list jsstring
}.

Definition withApp (f : State → State) (w : World) : World :=
  {| app := f (app w); uploadMode := uploadMode w;
     historySessions := historySessions w; manualText := manualText w;
     manualImage := manualImage w;
     manualImagePreview := manualImagePreview w;
     storage := storage w; alerts := alerts w |}.

Definition alert (message : jsstring) (w : World) : World :=
  {| app := app w; uploadMode := uploadMode w;
     historySessions := historySessions w; manualText := manualText w;
     manualImage := manualImage w;
     manualImagePreview := manualImagePreview w;
     storage := storage w; alerts := alerts w ++ [message] |}.

Definition withHistory (v : JsonValue) (ls : LocalStorage) (w : World)
  : World :=
  {| app := app w; uploadMode := uploadMode w;
     historySessions := v; manualText := manualText w;
     manualImage := manualImage w;
     manualImagePreview := manualImagePreview w;
     storage := ls; alerts := alerts w |}.

(** *** The history *)

(** The effect that runs when the component is mounted. *)
Definition mount (w : World) : World :=
  match getSessions (storage w) with
  | Ok v => withHistory v (storage w) w
  | Throw _ => w
  end.

(** 记录已保存至历史列表。 *)
Definition savedNotice : jsstring :=
  [0x8BB0; 0x5F55; 0x5DF2; 0x4FDD; 0x5B58; 0x81F3; 0x5386; 0x53F2; 0x5217;
   0x8868; 0x3002]%N.

(** [handleSaveHistory]. The rows of the state are the objects of the
    array [data] on the heap [h]. The new session is put in front of the
    list that is shown by the state updater, outside the [try]: when that
    list cannot be spread the component fails ([Throw]). The outer [None]
    is a dangling reference. *)
Definition handleSaveHistory (e : Env) (h : Heap) (data : nat) (w : World)
  : option (Result World * Heap) :=
  if (length (App.data (app w)) =? 0)%nat then Some (Ok w, h)
  else
    '(res, h', ls') ← saveSession e h (storage w) data
                        (processingStats (app w));
    Some
      (match res with
       | Ok saved =>
           shown ← prepend (session saved) (historySessions w);
           Ok (alert savedNotice (withHistory shown ls' w))
       | Throw message => Ok (alert message w)
       end, h').

(** [handleDeleteSession]: nothing is caught. *)
Definition handleDeleteSession (id : jsstring) (foreign : Result JsonValue)
    (w : World) : Result World :=
  '(updated, ls') ← deleteSession id foreign (storage w);
  Ok (withHistory updated ls' w).

(** 该历史记录数据为空或格式错误，无法加载。 *)
Definition emptySessionNotice : jsstring :=
  [0x8BE5; 0x5386; 0x53F2; 0x8BB0; 0x5F55; 0x6570; 0x636E; 0x4E3A; 0x7A7A;
   0x6216; 0x683C; 0x5F0F; 0x9519; 0x8BEF; 0xFF0C; 0x65E0; 0x6CD5; 0x52A0;
   0x8F7D; 0x3002]%N.

(** [handleLoadSession], for a session whose [data] is an array of rows.
    The rows are copied one by one. *)
Definition handleLoadSession (session : HistorySession) (w : World) : World :=
  if (length (session_data session) =? 0)%nat then alert emptySessionNotice w
  else
    {| app := {| apiKey := apiKey (app w);
                 customRules := customRules (app w);
                 selectedModel := selectedModel (app w);
                 App.data := session_data session;
                 isProcessing := false;
                 processingStats := stats session;
                 stopProcessingRef := false |};
       uploadMode := excel;
       historySessions := historySessions w; manualText := manualText w;
       manualImage := manualImage w;
       manualImagePreview := manualImagePreview w;
       storage := storage w; alerts := alerts w |}.

(** *** The uploads *)

(** [handleImageUpload]: one row per file whose type starts with
    [image/] and that can be read; [uuidv4 j] is the identifier drawn for
    the row that is pushed as number [j]. *)
Definition imageRow (newId : jsstring) (f : File) (dataUrl : jsstring)
  : CaptionRow :=
  {| id := newId; original := []; rewritten := None;
     status := Status.pending; imagePath := Some (fileName f);
     imageData := Some dataUrl; error := None |}.

Definition readImages (files : list File) : list (File * jsstring) :=
  omap (fun f =>
    if startsWith (fileType f) (str "image/") then
      match dataURL f with
      | Ok dataUrl => Some (f, dataUrl)
      | Throw _ => None
      end
    else None) files.

Definition handleImageUpload (uuidv4 : nat → jsstring) (files : list File)
    (w : World) : World :=
  if (length files =? 0)%nat then w
  else
    let newRows := imap (fun j p => imageRow (uuidv4 j) p.1 p.2)
                        (readImages files) in
    withApp (fun s =>
      setProcessingStats
        (fun prev => {| total := total prev + length newRows;
                        completed := completed prev;
                        failed := failed prev |})
        (setData (fun prev => prev ++ newRows) s)) w.

(** [fileMap.set(name, file)]: a name that is set again keeps its place
    and takes the new file. *)
Fixpoint mapSet (m : list (jsstring * File)) (k : jsstring) (v : File)
  : list (jsstring * File) :=
  match m with
  | [] => [(k, v)]
  | (k', v') :: m' =>
      if eqb k' k then (k, v) :: m' else (k', v') :: mapSet m' k v
  end.

Fixpoint mapGet (m : list (jsstring * File)) (k : jsstring) : option File :=
  match m with
  | [] => None
  | (k', v) :: m' => if eqb k' k then Some v else mapGet m' k
  end.

Definition fileMap (files : list File) : list (jsstring * File) :=
  foldl (fun m f => mapSet m (fileName f) f) [] files.

(** [findMatch] of [handleMatchImageUpload]. *)
Definition findMatch (fm : list (jsstring * File)) (path : option jsstring)
  : option File :=
  match or_undefined path with
  | None => None
  | Some p =>
      match mapGet fm p with
      | Some file => Some file
      | None =>
          snd <$> find (fun entry =>
                          endsWith p entry.1
                          || endsWith p (str "/" ++ entry.1)
                          || endsWith p ([0x5C]%N ++ entry.1)) fm
      end
  end.

(** One turn of the loop over the rows: the row as it is after the
    updates, and whether it counts as matched. *)
Definition matchRow (fm : list (jsstring * File)) (row : CaptionRow)
  : CaptionRow * nat :=
  if truthy_opt (imageData row) then (row, 0)
  else
    match findMatch fm (imagePath row) with
    | Some file =>
        match dataURL file with
        | Ok dataUrl =>
            ({| id := id row; original := original row;
                rewritten := rewritten row; status := status row;
                imagePath := imagePath row; imageData := Some dataUrl;
                error := error row |}, 1)
        | Throw _ => (row, 0)
        end
    | None => (row, 0)
    end.

(** 已匹配并加载 N 张图片。 *)
Definition matchedNotice (matchedCount : nat) : jsstring :=
  [0x5DF2; 0x5339; 0x914D; 0x5E76; 0x52A0; 0x8F7D; 0x0020]%N
  ++ numberToString (Z.of_nat matchedCount)
  ++ [0x0020; 0x5F20; 0x56FE; 0x7247; 0x3002]%N.

(** [handleMatchImageUpload], from the choice of the files to the end of
    the handler, when nothing else writes the list in between. The
    handler copies the list, awaits the read of each file, writes the
    updates into the row objects of the state, which the copied array
    shares with it, and sets the copy, which holds the same objects.
    [Live.handleMatchImageUpload] follows the handler from one [await] to
    the next, among the events of a run. *)
Definition handleMatchImageUpload (files : list File) (w : World) : World :=
  if (length files =? 0)%nat then w
  else
    let fm := fileMap files in
    let turns := matchRow fm <$> data (app w) in
    let matchedCount := foldr Nat.add 0 (snd <$> turns) in
    alert (matchedNotice matchedCount)
      (withApp (setData (fun _ => fst <$> turns)) w).

(** [handleManualImageSelect]: when the file cannot be read the preview
    is not set. *)
Definition handleManualImageSelect (file : File) (w : World) : World :=
  {| app := app w; uploadMode := uploadMode w;
     historySessions := historySessions w; manualText := manualText w;
     manualImage := Some file;
     manualImagePreview :=
       match dataURL file with
       | Ok url => Some url
       | Throw _ => manualImagePreview w
       end;
     storage := storage w; alerts := alerts w |}.

(** 请提供文本或图片。 *)
Definition manualNotice : jsstring :=
  [0x8BF7; 0x63D0; 0x4F9B; 0x6587; 0x672C; 0x6216; 0x56FE; 0x7247; 0x3002]%N.

Definition addManualEntry (newId : jsstring) (w : World) : World :=
  if negb (truthy_opt (manualImagePreview w))
     && negb (truthy (trim (manualText w)))
  then alert manualNotice w
  else
    let newItem :=
      {| id := newId; original := manualText w; rewritten := None;
         status := Status.pending;
         imagePath := fileName <$> manualImage w;
         imageData := or_undefined (manualImagePreview w);
         error := None |} in
    {| app := setProcessingStats
                (fun prev => {| total := total prev + 1;
                                completed := completed prev;
                                failed := failed prev |})
                (setData (fun prev => prev ++ [newItem]) (app w));
       uploadMode := uploadMode w;
       historySessions := historySessions w; manualText := [];
       manualImage := None; manualImagePreview := None;
       storage := storage w; alerts := alerts w |}.

Definition clearData (w : World) : World :=
  withApp (fun s =>
    setStopProcessingRef false
      (setIsProcessing false
         (setProcessingStats
            (fun _ => {| total := 0; completed := 0; failed := 0 |})
            (setData (fun _ => []) s)))) w.

End Handlers.

(* ================================================================= *)
(** ** services/gemini.ts: the parts of the data URL of an image *)

(** The image goes to the Gemini SDK as [inlineData], with the MIME type
    and the payload that [rewriteCaption] cuts out of the data URL. *)
Module InlineData.

(** [s.indexOf(c)] for a string [c] of one code unit: the position of
    its first occurrence, or -1. *)
Fixpoint indexOf (s : jsstring) (c : N) : Z :=
  match s with
  | [] => -1
  | a :: s' =>
      if (a =? c)%N then 0
      else let i := indexOf s' c in if (i <? 0)%Z then -1 else i + 1
  end%Z.

(** [s.substring(start, end)]: both ends are brought into the string and
    put in order. *)
Definition substring (s : jsstring) (start finish : Z) : jsstring :=
  let len := Z.of_nat (length s) in
  let a := Z.min (Z.max start 0) len in
  let b := Z.min (Z.max finish 0) len in
  take (Z.to_nat (Z.max a b - Z.min a b)) (drop (Z.to_nat (Z.min a b)) s).

(** [s.split(c)] for a separator [c] of one code unit. *)
Fixpoint split (s : jsstring) (c : N) : list jsstring :=
  match s with
  | [] => [[]]
  | a :: s' =>
      if (a =? c)%N then [] :: split s' c
      else match split s' c with
           | piece :: pieces => (a :: piece) :: pieces
           | [] => [[a]]
           end
  end.

(** [input.imageData.split(',')[1]] *)
Definition base64Data (imageData : jsstring) : option jsstring :=
  split imageData 0x2C !! 1.

(** [input.imageData.substring(input.imageData.indexOf(':') + 1,
                               input.imageData.indexOf(';'))] *)
Definition mimeType (imageData : jsstring) : jsstring :=
  substring imageData (indexOf imageData 0x3A + 1) (indexOf imageData 0x3B).

End InlineData.

(* ================================================================= *)
(** ** The handlers of the batch, overlapping *)

(** [App.run] follows one invocation of [startProcessing] while nothing
    else happens than replies and the stop button. The component leaves
    more enabled: after a stop the start button is back while calls are in
    flight, and in match mode images can be attached during a run. This
    module follows these handlers as they interleave at their [await]s.

    The rows are objects on a heap and the list [data] is an array of
    references, as two of the handlers depend on it: the queue of
    [startProcessing] holds the row objects of the render it was called
    in, and [handleMatchImageUpload] writes into the row objects of a
    copy of the list that it made before its first [await]. Every handler
    is called in a render that shows the state as the event before it
    left it. [handleLoadSession], [clearData] and the uploads that replace
    or extend the list are not followed here; neither are the alerts. *)

Module Live.

Inductive Worker :=
| Waiting (currentIndex : nat) (input : Gemini.Input)
| Returned.

Definition isReturned (w : Worker) : bool :=
  match w with Returned => true | Waiting _ _ => false end.

(** The values of the render that an invocation of [startProcessing]
    closes over. *)
Record Settings := {
  apiKey : jsstring;
  selectedModel : jsstring;
  customRules : jsstring
}.

(** One invocation of [startProcessing]: what it closed over, its queue
    of row objects with their positions in the list, its cursor and its
    workers. *)
Record Invocation := {
  captured : Settings;
  itemsToProcess : list (nat * nat);
  index : nat;
  workers : list Worker
}.

(** One invocation of [handleMatchImageUpload]: the copy [newData] of the
    list, the files by name, the updates collected so far, and the loop
    variable [i] with the file whose read is awaited; [reading] is [None]
    once the handler has returned. *)
Record Upload := {
  newData : list nat;
  fileMap : list (jsstring * Handlers.File);
  updates : list (nat * jsstring);
  reading : option (nat * Handlers.File)
}.

(** The component: its settings and upload mode, the row objects and the
    list [data] of references to them, the flags and counters, the
    invocations of [startProcessing] and of [handleMatchImageUpload] that
    have been made, and the log of the calls of [rewriteCaption] made so
    far, oldest first. *)
Record State := {
  settings : Settings;
  uploadMode : Handlers.UploadMode;
  heap : list CaptionRow;
  data : list nat;
  isProcessing : bool;
  processingStats : ProcessingStats;
  stopProcessingRef : bool;
  invocations : list Invocation;
  uploads : list Upload;
  calls : list App.Call
}.

(** The row object at position [i] of the list. *)
Definition row (l : State) (i : nat) : option CaptionRow :=
  r ← data l !! i; heap l !! r.

(** *** Writing the state *)

Definition setRows (h : list CaptionRow) (d : list nat) (l : State) : State :=
  {| settings := settings l; uploadMode := uploadMode l;
     heap := h; data := d;
     isProcessing := isProcessing l; processingStats := processingStats l;
     stopProcessingRef := stopProcessingRef l;
     invocations := invocations l; uploads := uploads l; calls := calls l |}.

Definition setIsProcessing (b : bool) (l : State) : State :=
  {| settings := settings l; uploadMode := uploadMode l;
     heap := heap l; data := data l;
     isProcessing := b; processingStats := processingStats l;
     stopProcessingRef := stopProcessingRef l;
     invocations := invocations l; uploads := uploads l; calls := calls l |}.

Definition setStopProcessingRef (b : bool) (l : State) : State :=
  {| settings := settings l; uploadMode := uploadMode l;
     heap := heap l; data := data l;
     isProcessing := isProcessing l; processingStats := processingStats l;
     stopProcessingRef := b;
     invocations := invocations l; uploads := uploads l; calls := calls l |}.

Definition setProcessingStats (f : ProcessingStats → ProcessingStats)
    (l : State) : State :=
  {| settings := settings l; uploadMode := uploadMode l;
     heap := heap l; data := data l;
     isProcessing := isProcessing l;
     processingStats := f (processingStats l);
     stopProcessingRef := stopProcessingRef l;
     invocations := invocations l; uploads := uploads l; calls := calls l |}.

Definition setInvocations (cs : list Invocation) (l : State) : State :=
  {| settings := settings l; uploadMode := uploadMode l;
     heap := heap l; data := data l;
     isProcessing := isProcessing l; processingStats := processingStats l;
     stopProcessingRef := stopProcessingRef l;
     invocations := cs; uploads := uploads l; calls := calls l |}.

Definition setUploads (us : list Upload) (l : State) : State :=
  {| settings := settings l; uploadMode := uploadMode l;
     heap := heap l; data := data l;
     isProcessing := isProcessing l; processingStats := processingStats l;
     stopProcessingRef := stopProcessingRef l;
     invocations := invocations l; uploads := us; calls := calls l |}.

Definition logCall (c : App.Call) (l : State) : State :=
  {| settings := settings l; uploadMode := uploadMode l;
     heap := heap l; data := data l;
     isProcessing := isProcessing l; processingStats := processingStats l;
     stopProcessingRef := stopProcessingRef l;
     invocations := invocations l; uploads := uploads l;
     calls := calls l ++ [c] |}.

(** [setData(prev => { const newData = [...prev];
                       newData[i] = f(newData[i]); return newData; })]
    where [f] spreads the row into a new object. An index beyond the end
    of the list does not arise here, as no handler of this module changes
    the length of the list (lemma [Sound_step]); the result is then
    [None]. *)
Definition replaceAt (i : nat) (f : CaptionRow → CaptionRow) (l : State)
  : option State :=
  old ← row l i;
  Some (setRows (heap l ++ [f old]) (<[i := length (heap l)]> (data l)) l).

(** *** [startProcessing] and [stopProcessing] *)

Definition claimed (c : Invocation) : Invocation :=
  {| captured := captured c; itemsToProcess := itemsToProcess c;
     index := S (index c); workers := workers c |}.

Definition withWorkers (ws : list Worker) (c : Invocation) : Invocation :=
  {| captured := captured c; itemsToProcess := itemsToProcess c;
     index := index c; workers := ws |}.

(** The loop of a worker of invocation [ci] from its head up to the next
    [await] or to its exit. The input of the call is read from the row
    object of the queue, after the row of the list has been marked. *)
Definition worker_loop (ci : nat) (l : State) : option (State * Worker) :=
  c ← invocations l !! ci;
  if (index c <? length (itemsToProcess c))%nat then
    if stopProcessingRef l then Some (l, Returned)
    else
      let currentIndex := index c in
      match itemsToProcess c !! currentIndex with
      | None =>
          Some (setInvocations (<[ci := claimed c]> (invocations l)) l,
                Returned)
      | Some (item, originalIndex) =>
          l1 ← replaceAt originalIndex App.markProcessing l;
          object ← heap l1 !! item;
          let input := App.inputOf object in
          Some (logCall {| App.originalIndex := originalIndex;
                           App.input := input |}
                  (setInvocations (<[ci := claimed c]> (invocations l1)) l1),
                Waiting currentIndex input)
      end
  else Some (l, Returned).

(** [worker()] up to its first [await]. *)
Definition worker (ci : nat) (l : State) : option (State * Worker) :=
  if stopProcessingRef l then Some (l, Returned) else worker_loop ci l.

Definition spawn (ci : nat) (l : State) : option State :=
  '(l', w) ← worker ci l;
  c ← invocations l' !! ci;
  Some (setInvocations
          (<[ci := withWorkers (workers c ++ [w]) c]> (invocations l')) l').

(** [Promise.all(workers)] of an invocation has resolved. *)
Definition finished (c : Invocation) : bool := forallb isReturned (workers c).

(** The end of invocation [ci], once every worker of it has returned. *)
Definition settle (ci : nat) (l : State) : option State :=
  c ← invocations l !! ci;
  Some (if finished c then setIsProcessing false l else l).

Definition eligible (l : State) (p : nat * nat) : bool :=
  match heap l !! p.1 with
  | Some object => App.eligible object
  | None => false
  end.

(** [startProcessing], up to the point where it awaits its workers. *)
Definition startProcessing (l : State) : option State :=
  if negb (truthy (apiKey (settings l))) then Some l
  else if (length (data l) =? 0)%nat then Some l
  else
    let l1 := setStopProcessingRef false (setIsProcessing true l) in
    let items := filter (fun p => eligible l p)
                        (imap (fun i item => (item, i)) (data l)) in
    let ci := length (invocations l) in
    let l2 := setInvocations
                (invocations l ++
                   [ {| captured := settings l; itemsToProcess := items;
                        index := 0; workers := [] |} ]) l1 in
    l3 ← spawn ci l2; l4 ← spawn ci l3; l5 ← spawn ci l4;
    settle ci l5.

Definition stopProcessing (l : State) : State :=
  setIsProcessing false (setStopProcessingRef true l).

Section Processing.
Context {C : Gemini.Constants}.

(** Worker [w] of invocation [ci] resumes after its [await]: the call
    was made with the settings of the invocation and the input read when
    the row was claimed; the result or the error is written into the row
    that is now at the position of the claimed row. *)
Definition resume (ci w : nat) (net : Gemini.Net) (l : State) : option State :=
  c ← invocations l !! ci;
  match workers c !! w with
  | Some (Waiting currentIndex input) =>
      '(_, originalIndex) ← itemsToProcess c !! currentIndex;
      let o := (Gemini.rewriteCaption (apiKey (captured c))
                  (selectedModel (captured c)) input
                  (customRules (captured c)) net).2 in
      l1 ← replaceAt originalIndex (App.writeBack o) l;
      '(l2, w') ← worker_loop ci (setProcessingStats (App.bump o) l1);
      c2 ← invocations l2 !! ci;
      settle ci
        (setInvocations
           (<[ci := withWorkers (<[w := w']> (workers c2)) c2]>
              (invocations l2)) l2)
  | _ => None
  end.

End Processing.

(** *** [handleMatchImageUpload] *)

(** One turn of the loop over the copied rows: the file to read for the
    row object [r], when the row has no image and a file is found for its
    path. *)
Definition fileFor (h : list CaptionRow) (fm : list (jsstring * Handlers.File))
    (r : nat) : option Handlers.File :=
  match h !! r with
  | Some object =>
      if truthy_opt (imageData object) then None
      else Handlers.findMatch fm (imagePath object)
  | None => None
  end.

(** The loop from position [i] on, up to the first row for which a file
    is read. *)
Fixpoint nextRead (h : list CaptionRow) (fm : list (jsstring * Handlers.File))
    (i : nat) (rest : list nat) : option (nat * Handlers.File) :=
  match rest with
  | [] => None
  | r :: rest' =>
      match fileFor h fm r with
      | Some file => Some (i, file)
      | None => nextRead h fm (S i) rest'
      end
  end.

(** [newData[u.index].imageData = u.dataUrl]: the row object is written
    in place. *)
Definition setImage (dataUrl : jsstring) (object : CaptionRow) : CaptionRow :=
  {| id := id object; original := original object;
     rewritten := rewritten object; status := status object;
     imagePath := imagePath object; imageData := Some dataUrl;
     error := error object |}.

Definition applyUpdates (newData : list nat) (updates : list (nat * jsstring))
    (h : list CaptionRow) : list CaptionRow :=
  foldl (fun h u =>
           match newData !! u.1 with
           | Some r => alter (setImage u.2) r h
           | None => h
           end) h updates.

Definition withReading (rd : option (nat * Handlers.File)) (u : Upload)
  : Upload :=
  {| newData := newData u; fileMap := fileMap u; updates := updates u;
     reading := rd |}.

Definition pushUpdate (i : nat) (dataUrl : jsstring) (u : Upload) : Upload :=
  {| newData := newData u; fileMap := fileMap u;
     updates := updates u ++ [(i, dataUrl)]; reading := reading u |}.

(** Upload [ui], in the state [u], goes on with its loop at position [i]:
    up to the next read, or through the updates and [setData(newData)] to
    its end. *)
Definition proceed (ui : nat) (u : Upload) (i : nat) (l : State) : State :=
  match nextRead (heap l) (fileMap u) i (drop i (newData u)) with
  | Some rd =>
      setUploads (<[ui := withReading (Some rd) u]> (uploads l)) l
  | None =>
      setUploads (<[ui := withReading None u]> (uploads l))
        (setRows (applyUpdates (newData u) (updates u) (heap l))
                 (newData u) l)
  end.

(** [handleMatchImageUpload], up to its first [await]. *)
Definition handleMatchImageUpload (files : list Handlers.File) (l : State)
  : State :=
  if (length files =? 0)%nat then l
  else
    let u := {| newData := data l; fileMap := Handlers.fileMap files;
                updates := []; reading := None |} in
    proceed (length (uploads l)) u 0 (setUploads (uploads l ++ [u]) l).

(** The read that upload [ui] awaits has ended, with the data URL or
    with an error, which is caught. *)
Definition fileRead (ui : nat) (l : State) : option State :=
  u ← uploads l !! ui;
  '(i, file) ← reading u;
  let u' := match Handlers.dataURL file with
            | Ok dataUrl => pushUpdate i dataUrl u
            | Throw _ => u
            end in
  Some (proceed ui u' (S i) l).

(** *** The events *)

Inductive Event :=
| StartPressed
| StopPressed
| Settled (c w : nat) (net : Gemini.Net)
| FilesChosen (files : list Handlers.File)
| FileRead (u : nat).

(** The control bar is rendered when the list is not empty. It shows the
    stop button while [isProcessing], and the start button otherwise,
    disabled when every row has been completed. *)
Definition controls (l : State) : bool := negb (length (data l) =? 0)%nat.

Definition startEnabled (l : State) : bool :=
  controls l && negb (isProcessing l)
  && negb ((completed (processingStats l) =? total (processingStats l))%nat
           && (0 <? total (processingStats l))%nat
           && (failed (processingStats l) =? 0)%nat).

Definition stopEnabled (l : State) : bool := controls l && isProcessing l.

(** The input for the images to attach is rendered in match mode. *)
Definition matchEnabled (l : State) : bool :=
  controls l &&
  match uploadMode l with Handlers.match_mode => true | _ => false end.

Section Events.
Context {C : Gemini.Constants}.

(** One event; [None] when the event cannot occur in this state. *)
Definition step (l : State) (e : Event) : option State :=
  match e with
  | StartPressed => if startEnabled l then startProcessing l else None
  | StopPressed => if stopEnabled l then Some (stopProcessing l) else None
  | Settled c w net => resume c w net l
  | FilesChosen files =>
      if matchEnabled l then Some (handleMatchImageUpload files l) else None
  | FileRead u => fileRead u l
  end.

Fixpoint run (l : State) (es : list Event) : option State :=
  match es with
  | [] => Some l
  | e :: es' => l' ← step l e; run l' es'
  end.

End Events.

(** *** The state that is shown *)

(** The component showing the rows [App.data a] in upload mode [mode],
    with no handler under way. *)
Definition mounted (mode : Handlers.UploadMode) (a : App.State) : State :=
  {| settings := {| apiKey := App.apiKey a;
                    selectedModel := App.selectedModel a;
                    customRules := App.customRules a |};
     uploadMode := mode;
     heap := App.data a;
     data := seq 0 (length (App.data a));
     isProcessing := App.isProcessing a;
     processingStats := App.processingStats a;
     stopProcessingRef := App.stopProcessingRef a;
     invocations := []; uploads := []; calls := [] |}.

(** What a reference stands for; a reference that is kept is never
    dangling (lemma [Sound_step]). *)
Definition noRow : CaptionRow :=
  {| id := []; original := []; rewritten := None; status := Status.pending;
     imagePath := None; imageData := None; error := None |}.

Definition object (l : State) (r : nat) : CaptionRow :=
  default noRow (heap l !! r).

(** The rows of the list. *)
Definition shown (l : State) : list CaptionRow := object l <$> data l.

Definition forget (w : Worker) : App.Worker :=
  match w with
  | Waiting currentIndex _ => App.Waiting currentIndex
  | Returned => App.Returned
  end.

(** The state and the first invocation of [startProcessing], as a run of
    [App]. *)
Definition view (l : State) : App.Run :=
  let c := default {| captured := settings l; itemsToProcess := [];
                      index := 0; workers := [] |} (invocations l !! 0) in
  {| App.st := {| App.apiKey := apiKey (settings l);
                  App.customRules := customRules (settings l);
                  App.selectedModel := selectedModel (settings l);
                  App.data := shown l;
                  App.isProcessing := isProcessing l;
                  App.processingStats := processingStats l;
                  App.stopProcessingRef := stopProcessingRef l |};
     App.itemsToProcess := (fun p => (object l p.1, p.2)) <$> itemsToProcess c;
     App.index := index c;
     App.workers := forget <$> workers c;
     App.calls := calls l |}.

(** The events of [App.run] among those of this module: they are those
    of the first invocation. *)
Definition quiet (e : App.Event) : Event :=
  match e with
  | App.Settled w net => Settled 0 w net
  | App.StopPressed => StopPressed
  end.

(** Every worker of every invocation has returned. *)
Definition ended (l : State) : bool := forallb finished (invocations l).

End Live.

(* ================================================================= *)
(** ** Predicates and sample data used in the statements *)

Module StorageSpec.
Import Storage.

(** [r'] is [r] without its image payload. *)
Definition sameExceptImage (r r' : CaptionRow) : Prop :=
  imageData r' = None ∧ id r' = id r ∧ original r' = original r ∧
  rewritten r' = rewritten r ∧ status r' = status r ∧
  imagePath r' = imagePath r ∧ error r' = error r.

Definition row0 : CaptionRow :=
  {| id := str "r1"; original := str "a cat"; rewritten := Some (str "A cat.");
     status := Status.completed; imagePath := Some (str "cat.png");
     imageData := Some (str "data:image/png;base64,AAAA"); error := None |}.

(** A heap with one list holding one row. *)
Definition heap0 : Heap :=
  {| objects := {[ 0 := row0 ]}; arrays := {[ 0 := [0] ]} |}.

(** An empty storage with room for everything. *)
Definition storage0 : LocalStorage :=
  {| history := None; fits := fun _ => true |}.

Definition env0 : Env :=
  {| uuid := str "u"; now := 1700000000000%N; dateLabel := str "11/3 10:00" |}.

Definition stats0 : ProcessingStats :=
  {| total := 1; completed := 1; failed := 0 |}.

Definition calls21 : list (Env * nat * ProcessingStats) :=
  replicate 21 (env0, 0, stats0).

End StorageSpec.

Module GeminiSpec.
Import Gemini.

(** The call is refused with the notice that the model takes text only,
    and nothing was sent. *)
Definition rejectsImage (modelName : jsstring)
    (r : list Request * Result RewriteResult) : Prop :=
  r = ([], Throw (modelName ++ textOnlyNotice)).

(** The rejection for every key, as the specification words it. *)
Definition rejection_for_every_key : Prop :=
  ∀ (C : Constants) apiKey modelName input customRules net,
    truthy_opt (imageData input) = true →
    includes modelName (str "gemini") = false →
    rejectsImage modelName
      (rewriteCaption apiKey modelName input customRules net).

Definition prompt0 : Constants := str "You review and rewrite captions.".

Definition net0 : Net :=
  {| fetchReply := FetchOk (Some (str "A cat on a mat."));
     genReply := GenText (Some (str "A cat on a mat.")) None |}.

Definition imageInput : Input :=
  {| text := None; imageData := Some (str "data:image/png;base64,AAAA") |}.

End GeminiSpec.

Module ExportSpec.
Import FileParser DataPreview.

(** An item whose original caption is empty. *)
Definition fresh_item (rewritten : jsstring) : ExportItem :=
  {| ID := str "r1"; OriginalCaption := []; RewrittenCaption := rewritten;
     ImagePath := []; Status := str "completed"; Error := [] |}.

(** The whole rewritten string shown as one addition, in the sheet and on
    the screen, as the specification words it. *)
Definition whole_string_added : Prop :=
  ∀ (L : Diff.Lib), Diff.Spec L →
  ∀ rewritten, rewritten ≠ [] →
    colRewritten (richTextRow (fresh_item rewritten))
      = Rich [ {| t := rewritten; pr := GreenBold |} ] ∧
    DiffView [] rewritten rewritten_view = [Highlight rewritten].

(** The text that the runs of a caption cell spell. *)
Definition cellText (c : Cell) : jsstring :=
  match c with
  | Rich runs => mjoin (t <$> runs)
  | Bare s => s
  end.

(** The text a reader sees in the spans of a [DiffView]. *)
Definition spanText (s : Span) : jsstring :=
  match s with Highlight v | Unchanged v => v end.

(** The styles of the runs of a cell. *)
Definition cellStyles (c : Cell) : list RunStyle :=
  match c with
  | Rich runs => pr <$> runs
  | Bare _ => []
  end.

End ExportSpec.

Module ExtractSpec.
Import FileParser.

(** [m'] is the marker [m] up to the case of its letters. *)
Definition folds (m' m : jsstring) : Prop := canon <$> m' = canon <$> m.

Definition blank (ws : jsstring) : Prop :=
  Forall (fun c => isWhiteSpace c = true) ws.

(** What the pattern of [extractRewrittenText] describes: somewhere in
    [text] there is a marker, then white space, a colon, white space, and
    the non-empty rest [g] of the text. *)
Definition Marked (text g : jsstring) : Prop :=
  ∃ pre m' m ws1 c ws2,
    m ∈ markers ∧ folds m' m ∧ blank ws1 ∧ isColon c = true ∧ blank ws2 ∧
    g ≠ [] ∧ text = pre ++ m' ++ ws1 ++ [c] ++ ws2 ++ g.

(** Two markers differ, whatever the case, at some place they both
    have. *)
Fixpoint clash (m0 m : jsstring) : bool :=
  match m0, m with
  | a :: m0', b :: m' => negb (canon a =? canon b)%N || clash m0' m'
  | _, _ => false
  end.

End ExtractSpec.

Module ImportSpec.
Import FileParser App.

(** Identifiers [id-0], [id-1], ... in place of random ones. *)
Definition uuid0 (i : nat) : jsstring := str "id-" ++ numberToString (Z.of_nat i).

(** A sheet with a caption column, whose second data row has no caption. *)
Definition sheet0 : Sheet :=
  {| header := [str "id"; str "caption"];
     rows := [ [Some (VStr (str "1")); Some (VStr (str "hello"))];
               [Some (VStr (str "2")); None] ] |}.

(** A sheet with a caption and an image column, whose first data row
    reaches beyond the header. Its second row has no cell at all, and its
    third only white space as caption. *)
Definition wide_sheet : Sheet :=
  {| header := [str "caption"; str "img"];
     rows := [ [Some (VStr (str "a cat")); Some (VStr (str "cat.png"));
                Some (VNum 7)];
               [None; None];
               [Some (VStr (str "  ")); Some (VStr (str "x.png"))] ] |}.

(** The four fields of [r] are those of [r']. *)
Definition sameFour (r r' : CaptionRow) : Prop :=
  original r' = original r ∧ rewritten r' = rewritten r ∧
  imagePath r' = imagePath r ∧ status r' = status r.

(** Export followed by import. What the spreadsheet library writes to the
    file and reads back from it is the parameter [xlsx]. *)
Definition reimport {L : Diff.Lib} (xlsx : Workbook → list object)
    (uuidv4 : nat → jsstring) (rows : list CaptionRow) : list CaptionRow :=
  processedData uuidv4 (xlsx (exportToCSV (exportItem <$> rows))).

Definition done_row : CaptionRow :=
  {| id := str "r1"; original := str "a cat"; rewritten := Some (str "A cat.");
     status := Status.completed; imagePath := Some (str "cat.png");
     imageData := None; error := None |}.

(** A row without image path, still waiting. *)
Definition plain_row : CaptionRow :=
  {| id := str "r2"; original := str "a dog"; rewritten := None;
     status := Status.pending; imagePath := None;
     imageData := None; error := None |}.

(** The row that the import of the exported file makes of the row [r],
    under the identifier [newId]: the first cell of the file's row is the
    identifier of [r], and the caption columns of the file are empty. *)
Definition reimported (keep : bool) (newId : jsstring) (r : CaptionRow)
  : CaptionRow :=
  {| id := newId;
     original := id r;
     rewritten := None;
     status := Status.pending;
     imagePath := if truthy_opt (imagePath r) then imagePath r
                  else if keep then Some [] else None;
     imageData := None;
     error := None |}.

(** Status, rewritten text and image path of [r'] are what the import
    gives for the row [r] that was exported. *)
Definition throughFile (r r' : CaptionRow) : Prop :=
  status r' = Status.pending ∧ rewritten r' = None ∧
  (truthy_opt (imagePath r) = true → imagePath r' = imagePath r) ∧
  (truthy_opt (imagePath r) = false → truthy_opt (imagePath r') = false).

End ImportSpec.

Module BatchSpec.
Import App.

#[export] Instance Worker_eq_dec : EqDecision Worker.
Proof. solve_decision. Defined.

(** The queue of a run: the rows that are pending or in error when it
    starts, each with its position in the list. *)
Definition queue (a : State) : list (CaptionRow * nat) :=
  filter (fun p => eligible p.1) (imap (fun i item => (item, i)) (data a)).

(** Some worker awaits the call made for queue position [k]. *)
Definition waiting (r : Run) (k : nat) : Prop := Waiting k ∈ workers r.

#[export] Instance waiting_dec r k : Decision (waiting r k).
Proof. unfold waiting. apply _. Defined.

(** Where the entry at queue position [k] stands in a run: not yet claimed
    (0), claimed and in flight (1), written back (2). *)
Definition phase (r : Run) (k : nat) : nat :=
  if decide (index r ≤ k) then 0
  else if decide (waiting r k) then 1 else 2.

Definition terminal (s : Status.t) : bool :=
  Status.eqb s Status.completed || Status.eqb s Status.error.

Definition callOf (p : CaptionRow * nat) : Call :=
  {| originalIndex := p.2; input := inputOf p.1 |}.

Definition noStop (es : list Event) : Prop :=
  Forall (fun e => e ≠ StopPressed) es.

(** The state a row is left in by a call that has settled. *)
Definition settledRow {C : Gemini.Constants} (a : State) (item row : CaptionRow)
  : Prop :=
  ∃ net, row = writeBack (outcome a item net) (markProcessing item).

(** What holds of a run of [startProcessing] on the state [a] wherever it
    awaits. [W] tells the queue positions whose call is in flight, and
    [ret] whether some worker has returned. *)
Record Inv {C : Gemini.Constants} (a : State) (r : Run)
    (W : nat → Prop) (ret : Prop) : Prop := {
  inv_items : itemsToProcess r = queue a;
  inv_index : index r ≤ length (queue a);
  inv_length : length (data (st r)) = length (data a);
  inv_config :
    apiKey (st r) = apiKey a ∧ selectedModel (st r) = selectedModel a ∧
    customRules (st r) = customRules a;
  (** a position in flight is below the cursor *)
  inv_claimed : ∀ k, W k → k < index r;
  (** a worker returns only at the end of the queue or after a stop *)
  inv_returned :
    stopProcessingRef (st r) = false → ret → index r = length (queue a);
  (** the row of a queue entry is as it was at the start, or marked as
      processing, or holds the outcome of its call *)
  inv_rows : ∀ k item i, queue a !! k = Some (item, i) →
    (index r ≤ k → data (st r) !! i = Some item) ∧
    (k < index r → W k → data (st r) !! i = Some (markProcessing item)) ∧
    (k < index r → ¬ W k →
       ∃ row, data (st r) !! i = Some row ∧ settledRow a item row);
  (** the other rows are as they were *)
  inv_others : ∀ i, i ∉ (queue a).*2 → data (st r) !! i = data a !! i;
  (** one call per claimed position, in the order of the queue *)
  inv_calls : calls r = callOf <$> take (index r) (queue a)
}.

(** No two workers wait at the same queue position. *)
Definition distinct (ws : list Worker) : Prop :=
  ∀ w w' k,
    ws !! w = Some (Waiting k) → ws !! w' = Some (Waiting k) → w = w'.

Definition Reach {C : Gemini.Constants} (a : State) (r : Run) : Prop :=
  Inv a r (waiting r) (Returned ∈ workers r) ∧ distinct (workers r).

(** The parts of a turn of a worker. *)
Definition claim (r : Run) (item : CaptionRow) (i : nat) : Run :=
  {| st := setData (replaceAt i markProcessing) (st r);
     itemsToProcess := itemsToProcess r;
     index := S (index r);
     workers := workers r;
     calls := calls r ++ [callOf (item, i)] |}.

Definition written {C : Gemini.Constants} (r : Run) (item : CaptionRow)
    (i : nat) (net : Gemini.Net) : Run :=
  withSt (fun s =>
            setProcessingStats (bump (outcome (st r) item net))
              (setData (replaceAt i (writeBack (outcome (st r) item net))) s))
         r.

(** The run before its workers are started. *)
Definition ready (a : State) : Run :=
  {| st := setStopProcessingRef false (setIsProcessing true a);
     itemsToProcess := queue a; index := 0; workers := []; calls := [] |}.

(** The run in which a guard of [startProcessing] has failed. *)
Definition idle (a : State) : Run :=
  {| st := a; itemsToProcess := []; index := 0; workers := []; calls := [] |}.

Definition place (ws : list Worker) (r : Run) : Run :=
  {| st := st r; itemsToProcess := itemsToProcess r; index := index r;
     workers := ws; calls := calls r |}.

Definition pendingRow (n : nat) (s : Status.t) : CaptionRow :=
  {| id := numberToString (Z.of_nat n); original := str "a cat";
     rewritten := None; status := s; imagePath := None; imageData := None;
     error := None |}.

(** A row of a sheet with the path of its image. *)
Definition pathRow (n : nat) (path : jsstring) (s : Status.t) : CaptionRow :=
  {| id := numberToString (Z.of_nat n); original := str "a cat";
     rewritten := None; status := s; imagePath := Some path;
     imageData := None; error := None |}.

Definition app0 (key : jsstring) (rows : list CaptionRow) : State :=
  {| apiKey := key; customRules := [];
     selectedModel := str "gemini-3-pro-preview"; data := rows;
     isProcessing := false;
     processingStats := {| total := length rows; completed := 0; failed := 0 |};
     stopProcessingRef := false |}.

(** A list loaded from a session that was saved in the middle of a run. *)
Definition stale : State :=
  app0 (str "k") [pendingRow 0 Status.processing].

(** One pending row, and no API key. *)
Definition keyless : State := app0 [] [pendingRow 0 Status.pending].

(** Three pending rows, and a fourth that failed in an earlier run. *)
Definition four : State :=
  app0 (str "k")
    [pendingRow 0 Status.pending; pendingRow 1 Status.pending;
     pendingRow 2 Status.pending; pendingRow 3 Status.error].

(** A pending row and a row in error. *)
Definition two : State :=
  app0 (str "k") [pendingRow 0 Status.pending; pendingRow 1 Status.error].

Definition reply0 : Gemini.Net := GeminiSpec.net0.

Definition failure0 : Gemini.Net :=
  {| Gemini.fetchReply := Gemini.FetchRejected (str "offline");
     Gemini.genReply := Gemini.GenRejected (str "offline") |}.

End BatchSpec.

Module BatchMeasure.
Import App BatchSpec.

(** The number of workers that wait for a call. *)
Definition busy (r : Run) : nat :=
  length (filter (fun w => isReturned w = false) (workers r)).

(** What is left to do in a run on the state [a]: the entries not yet
    claimed and the calls in flight. *)
Definition remaining (a : State) (r : Run) : nat :=
  length (queue a) - index r + busy r.

Definition isSettled (e : Event) : bool :=
  match e with Settled _ _ => true | StopPressed => false end.

(** The counters of a run on the state [a]: the total is kept, and every
    call that has settled has added one to [completed] or to [failed]. *)
Definition Tally (a : State) (r : Run) : Prop :=
  total (processingStats (st r)) = total (processingStats a) ∧
  completed (processingStats (st r)) + failed (processingStats (st r))
    + busy r
  = completed (processingStats a) + failed (processingStats a) + index r ∧
  completed (processingStats a) ≤ completed (processingStats (st r)) ∧
  failed (processingStats a) ≤ failed (processingStats (st r)).

(** [r] is [r0] but for its status, its texts and its error. *)
Definition sameIdentity (r0 r : CaptionRow) : Prop :=
  id r = id r0 ∧ imagePath r = imagePath r0 ∧ imageData r = imageData r0.

(** The component shows that it is processing exactly while some worker
    has not returned and the run has not been stopped. *)
Definition Showing (r : Run) : Prop :=
  isProcessing (st r) = true ↔
  finished r = false ∧ stopProcessingRef (st r) = false.

(** The number of rows in a status. *)
Definition count (s : Status.t) (l : list CaptionRow) : nat :=
  length (filter (fun row => status row = s) l).

(** The rows in error that wait in the queue for their turn. *)
Definition unclaimedErrors (a : State) (r : Run) : nat :=
  count Status.error (drop (index r) (queue a)).*1.

(** The counters agree with the statuses: what [completed] has grown by
    is the number of rows that became completed, and what [failed] has
    grown by is the number of rows in error that are not left over from
    before the run. *)
Definition Agree (a : State) (r : Run) : Prop :=
  completed (processingStats (st r)) + count Status.completed (data a)
  = completed (processingStats a) + count Status.completed (data (st r)) ∧
  failed (processingStats (st r)) + unclaimedErrors a r
  = failed (processingStats a) + count Status.error (data (st r)).

(** What a run may change of a row: never its id, its image path or its
    image; its caption only when it has an image, from which the model
    reads the caption; and nothing at all when the row was neither pending
    nor in error. *)
Definition kept (row0 row : CaptionRow) : Prop :=
  sameIdentity row0 row ∧
  (truthy_opt (imageData row0) = false → original row = original row0) ∧
  (eligible row0 = false → row = row0).

End BatchMeasure.

Module HandlersSpec.
Import Storage History App Handlers.

(** The total counter is the number of rows. *)
Definition Consistent (s : State) : Prop :=
  total (processingStats s) = length (data s).

Definition SessionOk (session : HistorySession) : Prop :=
  total (stats session) = length (session_data session).

Definition sessionsOf (v : JsonValue) : list HistorySession :=
  match v with
  | Sessions l => l
  | Other _ => []
  end.

(** What the user types or selects: the settings of the sidebar, the mode
    and the text of the manual entry. *)
Definition configure (key rules model : jsstring) (mode : UploadMode)
    (text : jsstring) (w : World) : World :=
  {| app := {| apiKey := key; customRules := rules; selectedModel := model;
               data := data (app w); isProcessing := isProcessing (app w);
               processingStats := processingStats (app w);
               stopProcessingRef := stopProcessingRef (app w) |};
     uploadMode := mode;
     historySessions := historySessions w; manualText := text;
     manualImage := manualImage w;
     manualImagePreview := manualImagePreview w;
     storage := storage w; alerts := alerts w |}.

(** One event of the user interface, handled to its end before the next
    begins: the handlers do not overlap. A batch is one event, from the
    press of the start button until its workers have returned, and so is
    an upload, from the choice of the files until the last of them has
    been read. A handler that gives up (a sheet or a PDF that cannot be
    read) only shows an alert; a PDF that is read sets the rules. *)
Inductive Step {C : Gemini.Constants} : World → World → Prop :=
| step_mount w : Step w (mount w)
| step_alert message w : Step w (alert message w)
| step_configure key rules model mode text w :
    Step w (configure key rules model mode text w)
| step_excel uuidv4 jsonData w :
    Step w (withApp (handleExcelUpload uuidv4 jsonData) w)
| step_images uuidv4 files w : Step w (handleImageUpload uuidv4 files w)
| step_match files w : Step w (handleMatchImageUpload files w)
| step_select file w : Step w (handleManualImageSelect file w)
| step_manual newId w : Step w (addManualEntry newId w)
| step_clear w : Step w (clearData w)
| step_save e h ref w w' h' :
    read_array h ref = Some (data (app w)) →
    handleSaveHistory e h ref w = Some (Ok w', h') →
    Step w w'
| step_delete id foreign w w' :
    handleDeleteSession id foreign w = Ok w' → Step w w'
| step_load session w :
    session ∈ sessionsOf (historySessions w) →
    Step w (handleLoadSession session w)
| step_batch es r w :
    run (startProcessing (app w)) es = Some r → finished r = true →
    Step w (withApp (fun _ => st r) w).

(** The total counter is the number of rows, in the state and in every
    session that is shown or stored; what is shown and what is stored are
    lists of sessions. *)
Definition Counted (w : World) : Prop :=
  Consistent (app w) ∧
  (∃ l, historySessions w = Sessions l ∧ Forall SessionOk l) ∧
  (∃ l, getSessions (storage w) = Ok (Sessions l) ∧ Forall SessionOk l).

(** The stored history is the first twenty sessions of the history that
    is shown. *)
Definition Synced (w : World) : Prop :=
  ∃ l, historySessions w = Sessions l ∧
       getSessions (storage w) = Ok (Sessions (take 20 l)).

(** The component when it is created, over a given storage. *)
Definition initial (ls : LocalStorage) : World :=
  {| app := {| apiKey := []; customRules := [];
               selectedModel := str "gemini-3-pro-preview"; data := [];
               isProcessing := false;
               processingStats := {| total := 0; completed := 0; failed := 0 |};
               stopProcessingRef := false |};
     uploadMode := excel; historySessions := Sessions [];
     manualText := []; manualImage := None; manualImagePreview := None;
     storage := ls; alerts := [] |}.

(** The component with the one row of [StorageSpec.heap0] in its list. *)
Definition oneRow : World :=
  withApp (fun s =>
    setProcessingStats (fun _ => StorageSpec.stats0)
      (setData (fun _ => [StorageSpec.row0]) s))
    (initial StorageSpec.storage0).

Definition catFile : File :=
  {| fileName := str "cat.png"; fileType := str "image/png";
     dataURL := Ok (str "data:image/png;base64,AAAA") |}.

(** The component in match mode with the two rows of a sheet, the first
    of which names the image [img/cat.png]. *)
Definition twoPaths : World :=
  withApp (fun _ =>
    BatchSpec.app0 (str "k")
      [ BatchSpec.pathRow 0 (str "img/cat.png") Status.pending;
        BatchSpec.pathRow 1 (str "img/dog.png") Status.completed ])
    (configure (str "k") [] (str "gemini-3-pro-preview") match_mode []
       (initial StorageSpec.storage0)).

(** The row that a manual entry with the image [catFile] makes, on a
    heap, as the one element of a list. *)
Definition manualRow : CaptionRow :=
  {| id := str "n"; original := []; rewritten := None;
     status := Status.pending; imagePath := Some (str "cat.png");
     imageData := Some (str "data:image/png;base64,AAAA"); error := None |}.

Definition manualHeap : Heap :=
  {| objects := {[ 0 := manualRow ]}; arrays := {[ 0 := [0] ]} |}.

End HandlersSpec.

Module LiveSpec.
Import Live.

(** The reference [r] points into the heap. *)
Definition valid (l : State) (r : nat) : Prop := r < length (heap l).

(** Every reference that is kept points into the heap; the positions in
    the queues are positions of the list, and the positions the workers
    hold are positions of their queue; the copies made by the uploads
    have the length of the list. *)
Record Sound (l : State) : Prop := {
  sound_data : Forall (valid l) (data l);
  sound_queues : ∀ c p, c ∈ invocations l → p ∈ itemsToProcess c →
    valid l p.1 ∧ p.2 < length (data l);
  sound_workers : ∀ c k input, c ∈ invocations l →
    Waiting k input ∈ workers c → k < length (itemsToProcess c);
  sound_uploads : ∀ u, u ∈ uploads l →
    length (newData u) = length (data l) ∧ Forall (valid l) (newData u)
}.

(** A state in which only the first invocation of [startProcessing] is
    under way: no images are being attached, the settings are those the
    invocation closed over, and every call in flight was made with the
    input that the row object of its queue position has. *)
Record Quiet (l : State) (c : Invocation) : Prop := {
  quiet_sound : Sound l;
  quiet_uploads : uploads l = [];
  quiet_one : invocations l = [c];
  quiet_settings : captured c = settings l;
  quiet_inputs : ∀ k input, Waiting k input ∈ workers c →
    ∃ p, itemsToProcess c !! k = Some p ∧ input = App.inputOf (object l p.1)
}.

(** Where the entry at position [k] of the queue of the first
    invocation stands: not yet claimed (0), claimed and in flight (1),
    written back (2). *)
Definition phase (l : State) (k : nat) : nat := BatchSpec.phase (view l) k.

(** The end of a run started in the state [l0], as the specification
    words it: one call for each row that was pending or in error, no row
    left in processing, and every row that was called for completed or in
    error. *)
Definition batch_done (l0 l : State) : Prop :=
  length (calls l)
    = length (filter (fun row => App.eligible row) (shown l0)) ∧
  Forall (fun row => status row ≠ Status.processing) (shown l) ∧
  ∀ c, c ∈ calls l →
    ∃ row, shown l !! App.originalIndex c = Some row ∧
           (status row = Status.completed ∨ status row = Status.error).

(** Two rows of a sheet imported in match mode; the image of the first
    has not been attached yet. *)
Definition sheetOfTwo : State :=
  mounted Handlers.match_mode
    (BatchSpec.app0 (str "k")
       [ BatchSpec.pathRow 0 (str "img/cat.png") Status.pending;
         BatchSpec.pathRow 1 (str "img/dog.png") Status.pending ]).

(** The same rows as the list of [Handlers.World]. *)
Definition worldOfTwo : Handlers.World :=
  Handlers.withApp (fun _ =>
    BatchSpec.app0 (str "k")
      [ BatchSpec.pathRow 0 (str "img/cat.png") Status.pending;
        BatchSpec.pathRow 1 (str "img/dog.png") Status.pending ])
    (HandlersSpec.initial StorageSpec.storage0).

(** The images are chosen while both calls are in flight; the first call
    settles; the image is read, and the handler writes back the list it
    copied; then the second call settles, which ends the run. *)
Definition lateImage : list Event :=
  [ StartPressed; FilesChosen [HandlersSpec.catFile];
    Settled 0 0 BatchSpec.reply0; FileRead 0; Settled 0 1 BatchSpec.reply0 ].


(** The same up to the point where the handler writes back its copy. *)
Definition beforeWrite : list Event :=
  [ StartPressed; FilesChosen [HandlersSpec.catFile];
    Settled 0 0 BatchSpec.reply0 ].


(** The run is stopped with three calls in flight and started again; the
    second invocation claims the fourth row. Then the first call of the
    first invocation settles. *)
Definition restarted : list Event :=
  [ StartPressed; StopPressed; StartPressed ].

Definition restartedThenSettled : list Event :=
  restarted ++ [ Settled 0 0 BatchSpec.reply0 ].

(** The calls made for the row at position [i]. *)
Definition callsFor (i : nat) (l : State) : list App.Call :=
  filter (fun c => App.originalIndex c = i) (calls l).

(** *** An upload that nothing interrupts *)

(** The data URL that the handler writes into the row object [r]: the
    row has no image, a file is found for its path, and the file can be
    read. *)
Definition wanted (h : list CaptionRow) (fm : list (jsstring * Handlers.File))
    (r : nat) : option jsstring :=
  file ← fileFor h fm r;
  match Handlers.dataURL file with
  | Ok dataUrl => Some dataUrl
  | Throw _ => None
  end.

(** The updates that the loop collects from position [i] on. *)
Fixpoint later (h : list CaptionRow) (fm : list (jsstring * Handlers.File))
    (i : nat) (rest : list nat) : list (nat * jsstring) :=
  match rest with
  | [] => []
  | r :: rest' =>
      match wanted h fm r with
      | Some dataUrl => (i, dataUrl) :: later h fm (S i) rest'
      | None => later h fm (S i) rest'
      end
  end.

(** What the handler makes of the row object [r]. *)
Definition updated (h : list CaptionRow) (fm : list (jsstring * Handlers.File))
    (r : nat) (object : CaptionRow) : CaptionRow :=
  match wanted h fm r with
  | Some dataUrl => setImage dataUrl object
  | None => object
  end.

End LiveSpec.

(* ================================================================= *)
(** ** Properties of services/storage.ts *)

Module StorageProps.
Import Storage StorageSpec.

Lemma getSessions_ok ls : ∃ v, getSessions ls = Ok v.
Proof.
  unfold getSessions, getItem.
  destruct (history ls) as [[s|v]|]; simpl; eauto.
  destruct (truthy s); simpl; eauto.
Qed.

Lemma take20_cons (s : HistorySession) l :
  take 20 (s :: take 20 l) = take 20 (s :: l).
Proof. simpl. f_equal. rewrite take_take. f_equal. Qed.

(** Frame and result of [map_objects]. *)
Lemma map_objects_spec f h ls (rows : list CaptionRow) :
  mapM (fun l => objects h !! l) ls = Some rows →
  ∃ h' ls',
    map_objects f h ls = Some (h', ls') ∧
    objects h ⊆ objects h' ∧
    arrays h' = arrays h ∧
    mapM (fun l => objects h' !! l) ls' = Some (f <$> rows) ∧
    Forall (fun l => l ∉ dom (objects h)) ls'.
Proof.
  revert h rows. induction ls as [|l ls IH]; intros h rows Hm.
  - simpl in Hm. injection Hm as <-. exists h, []. simpl. repeat split; auto.
  - rewrite mapM_Some in Hm. 
    destruct rows as [|r rows]; [by inversion Hm|].
    apply Forall2_cons_1 in Hm as [Hr Hrows].
    set (l' := fresh (dom (objects h))).
    set (h1 := {| objects := <[l' := f r]> (objects h); arrays := arrays h |}).
    assert (Hfresh : objects h !! l' = None).
    { apply not_elem_of_dom. apply is_fresh. }
    assert (Hsub : objects h ⊆ objects h1).
    { simpl. by apply insert_subseteq. }
    destruct (IH h1 rows) as (h2 & ls2 & Hmo & Hsub2 & Harr & Hread & Hfr).
    { apply mapM_Some. eapply Forall2_impl; [|exact Hrows].
      intros x y Hxy. simpl in Hxy. eapply lookup_weaken; eauto. }
    exists h2, (l' :: ls2).
    assert (Hl' : objects h2 !! l' = Some (f r)).
    { eapply lookup_weaken; [|exact Hsub2]. simpl. apply lookup_insert_eq. }
    split_and!.
    + cbn [map_objects]. rewrite Hr. cbn. subst l' h1. by rewrite Hmo.
    + etrans; eauto.
    + by rewrite Harr.
    + rewrite fmap_cons. apply mapM_Some. constructor; [done|].
      by apply mapM_Some.
    + constructor; [by apply not_elem_of_dom|].
      eapply Forall_impl; [|exact Hfr]. intros x Hx Hin. apply Hx.
      simpl. rewrite dom_insert. set_solver.
Qed.

Lemma strip_sameExceptImage r : sameExceptImage r (strip r).
Proof. by repeat split. Qed.

Lemma read_array_weaken h h' a (rows : list CaptionRow) :
  objects h ⊆ objects h' → arrays h ⊆ arrays h' →
  read_array h a = Some rows → read_array h' a = Some rows.
Proof.
  unfold read_array. intros Ho Ha Hr.
  destruct (arrays h !! a) as [ls|] eqn:E; [|done]. simpl in Hr.
  rewrite (lookup_weaken _ _ _ _ E Ha). simpl.
  apply mapM_Some. apply mapM_Some in Hr.
  eapply Forall2_impl; [|exact Hr]. intros x y Hxy. simpl in *.
  eapply lookup_weaken; eauto.
Qed.

Lemma stripImageData_spec h data (rows : list CaptionRow) :
  read_array h data = Some rows →
  ∃ h' stripped,
    stripImageData h data = Some (h', stripped) ∧
    objects h ⊆ objects h' ∧ arrays h ⊆ arrays h' ∧
    read_array h' stripped = Some (strip <$> rows) ∧
    stripped ≠ data.
Proof.
  unfold read_array, stripImageData. intros Hr.
  destruct (arrays h !! data) as [ls|] eqn:E; [|done]. simpl in Hr.
  destruct (map_objects_spec strip h ls rows Hr)
    as (h1 & ls1 & Hmo & Hsub & Harr & Hread & _).
  simpl. rewrite Hmo. simpl.
  eexists _, _. split; [done|]. simpl.
  assert (Hf : arrays h1 !! fresh (dom (arrays h1)) = None).
  { apply not_elem_of_dom, is_fresh. }
  split_and!.
  - done.
  - rewrite <- Harr. by apply insert_subseteq.
  - rewrite lookup_insert_eq. simpl. done.
  - intros Heq. rewrite Heq, Harr, E in Hf. done.
Qed.

Lemma saveSession_defined e h ls data stats (rows : list CaptionRow) :
  read_array h data = Some rows →
  ∃ h' stripped,
    stripImageData h data = Some (h', stripped) ∧
    objects h ⊆ objects h' ∧ arrays h ⊆ arrays h' ∧
    read_array h' stripped = Some (strip <$> rows) ∧ stripped ≠ data ∧
    let newSession :=
      {| session_id := uuid e; timestamp := now e;
         name := str "Session " ++ dateLabel e; stats := stats;
         session_data := strip <$> rows |} in
    saveSession e h ls data stats =
      Some
        match (getSessions ls ≫= prepend newSession) ≫=
              (fun u => setItem ls (slice20 u)) with
        | Ok ls' => (Ok {| session := newSession; dataRef := stripped |}, h', ls')
        | Throw _ => (Throw saveFailed, h', ls)
        end.
Proof.
  intros Hr.
  destruct (stripImageData_spec h data rows Hr)
    as (h' & stripped & Hs & Ho & Ha & Hread & Hne).
  exists h', stripped. split_and!; try done.
  unfold saveSession. rewrite Hs. simpl. rewrite Hread. simpl.
  f_equal.
  destruct (getSessions ls) as [v|m]; simpl; [|done].
  destruct (prepend _ v) as [u|m]; simpl; [|done].
  destruct (setItem ls (slice20 u)) as [ls'|m]; simpl; done.
Qed.

Lemma getSessions_setItem ls v ls' :
  setItem ls v = Ok ls' → getSessions ls' = Ok v.
Proof.
  unfold setItem. destruct (fits ls v); [|done]. intros [= <-]. done.
Qed.

Lemma saveSession_prepends e h ls data stats l saved h' ls' :
  getSessions ls = Ok (Sessions l) →
  saveSession e h ls data stats = Some (Ok saved, h', ls') →
  getSessions ls' = Ok (Sessions (take 20 (session saved :: l))).
Proof.
  intros Hg Hs. unfold saveSession in Hs.
  destruct (stripImageData h data) as [[h1 stripped]|]; [|done]. simpl in Hs.
  destruct (read_array h1 stripped) as [rowsOut|]; [|done]. simpl in Hs.
  rewrite Hg in Hs. simpl in Hs.
  destruct (setItem ls _) as [ls1|m] eqn:E; simpl in Hs; [|done].
  injection Hs as <- <- <-. simpl. by apply getSessions_setItem in E.
Qed.

Lemma take_app_take {A} n (a b : list A) :
  take n (a ++ take n b) = take n (a ++ b).
Proof.
  rewrite !take_app, take_take. do 2 f_equal. lia.
Qed.

Lemma saveAll_sessions calls : ∀ h ls l saved h' ls',
  getSessions ls = Ok (Sessions l) →
  saveAll calls h ls = Some (saved, h', ls') →
  length saved = length calls ∧
  getSessions ls' =
    Ok (Sessions (if decide (calls = []) then l
                  else take 20 (rev saved ++ l))).
Proof.
  induction calls as [|[[e data] stats] calls IH];
    intros h ls l saved h' ls' Hg Hs.
  - simpl in Hs. injection Hs as <- <- <-. done.
  - simpl in Hs.
    destruct (saveSession e h ls data stats) as [[[[sv|m] h1] ls1]|] eqn:E;
      try done.
    destruct (saveAll calls h1 ls1) as [[[l1 h2] ls2]|] eqn:E2; [|done].
    simpl in Hs. injection Hs as <- <- <-.
    pose proof (saveSession_prepends _ _ _ _ _ _ _ _ _ Hg E) as Hg1.
    destruct (IH _ _ _ _ _ _ Hg1 E2) as [Hlen Hres].
    split; [simpl; by rewrite Hlen|].
    rewrite Hres. destruct (decide (_ :: calls = [])) as [|_]; [done|].
    do 2 f_equal. case_decide as Hc.
    + subst calls. destruct l1; [done|simpl in Hlen; lia].
    + cbn [rev]. rewrite <- (assoc_L (++)).
      change ([session sv] ++ l) with (session sv :: l).
      apply take_app_take.
Qed.

(** C5. A save that succeeds puts the new session in front of the stored
    list and keeps the first 20 entries. After a series of saves the store
    holds the sessions saved, the latest first, followed by the earlier
    entries, cut at 20; from 20 saves on these are exactly the 20 sessions
    saved last. *)
Theorem saveSession_keeps_latest_20 calls h ls l saved h' ls' :
  getSessions ls = Ok (Sessions l) →
  calls ≠ [] →
  saveAll calls h ls = Some (saved, h', ls') →
  getSessions ls' = Ok (Sessions (take 20 (rev saved ++ l))) ∧
  length (take 20 (rev saved ++ l)) ≤ 20 ∧
  (20 ≤ length calls →
   take 20 (rev saved ++ l) = take 20 (rev saved) ∧
   length (take 20 (rev saved)) = 20).
Proof.
  intros Hg Hne Hs.
  destruct (saveAll_sessions _ _ _ _ _ _ _ Hg Hs) as [Hlen Hres].
  destruct (decide (calls = [])); [done|].
  split_and!; [done|rewrite length_take; lia|].
  intros H20. split.
  - rewrite take_app, length_rev.
    replace (20 - length saved) with 0 by lia.
    by rewrite take_0, app_nil_r.
  - rewrite length_take, length_rev. lia.
Qed.


(** C6. [saveSession] stores copies of the rows in which [imageData] is
    removed and every other field is as in the row it was copied from. The
    list it was given, the rows of that list and every other object on the
    heap stay as they were, whether or not the save succeeds. The save
    succeeds whenever the storage holds a list of sessions, or nothing,
    and has room for the new list; the session it returns is then the
    first of the stored list, and its rows are the stripped copies. A save
    that fails leaves the storage as it was. *)
Theorem saveSession_strips_image_data e h ls data stats
    (rows : list CaptionRow) :
  read_array h data = Some rows →
  ∃ res h' ls',
    saveSession e h ls data stats = Some (res, h', ls') ∧
    (* the list of the caller and all objects that existed are as before *)
    read_array h' data = Some rows ∧
    objects h ⊆ objects h' ∧ arrays h ⊆ arrays h' ∧
    (* the session that is saved holds stripped copies *)
    (∀ saved, res = Ok saved →
      session_data (session saved) = strip <$> rows ∧
      Forall2 sameExceptImage rows (session_data (session saved)) ∧
      Forall (fun r => imageData r = None) (session_data (session saved)) ∧
      dataRef saved ≠ data ∧
      read_array h' (dataRef saved) = Some (session_data (session saved)) ∧
      ∀ l, getSessions ls = Ok (Sessions l) →
           getSessions ls' = Ok (Sessions (take 20 (session saved :: l)))) ∧
    (* when the save succeeds, and what a failure leaves *)
    (∀ l, getSessions ls = Ok (Sessions l) →
       fits ls (Sessions (take 20
                  ({| session_id := uuid e; timestamp := now e;
                      name := str "Session " ++ dateLabel e; stats := stats;
                      session_data := strip <$> rows |} :: l))) = true →
       ∃ saved, res = Ok saved) ∧
    (∀ message, res = Throw message → message = saveFailed ∧ ls' = ls).
Proof.
  intros Hr.
  destruct (saveSession_defined e h ls data stats rows Hr)
    as (h' & stripped & Hs & Ho & Ha & Hread & Hne & Hsave).
  cbv zeta in Hsave.
  assert (Hframe : read_array h' data = Some rows)
    by (eapply read_array_weaken; eauto).
  destruct (_ ≫= _) as [ls1|m] eqn:E in Hsave.
  - eexists _, h', ls1. split; [exact Hsave|]. split_and!; try done.
    + intros saved [= <-]. cbn [session dataRef session_data].
      split_and!; try done.
      * apply Forall2_fmap_r, Forall_Forall2_diag, Forall_forall.
        intros r _. apply strip_sameExceptImage.
      * apply list.Forall_forall. intros r Hin.
        apply list_elem_of_fmap in Hin as (r0 & -> & _). done.
      * intros l Hl. exact (saveSession_prepends _ _ _ _ _ _ _ _ _ Hl Hsave).
    + intros l _ _. eauto.
  - eexists _, h', ls. split; [exact Hsave|]. split_and!; try done.
    + intros l Hl Hfit. exfalso. rewrite Hl in E.
      match type of Hfit with fits ls ?v = true =>
        change (setItem ls v = Throw m) in E end.
      unfold setItem in E. rewrite Hfit in E. done.
    + by intros message [= <-].
Qed.

Lemma saveSession_strips_image_data_witness :
  ∃ saved h' ls',
    saveSession env0 heap0 storage0 0 stats0 = Some (Ok saved, h', ls') ∧
    session_data (session saved) = [strip row0] ∧
    imageData row0 ≠ None ∧
    read_array h' 0 = Some [row0] ∧
    getSessions ls' = Ok (Sessions [session saved]).
Proof.
  assert (H : read_array heap0 0 = Some [row0]) by (by vm_compute).
  destruct (saveSession_strips_image_data env0 heap0 storage0 0 stats0 [row0] H)
    as (res & h' & ls' & Hs & Hread & _ & _ & Hok & Hfit & _).
  destruct (Hfit [] eq_refl eq_refl) as [saved ->].
  destruct (Hok saved eq_refl) as (Hd & _ & _ & _ & _ & Hg).
  exists saved, h', ls'. split_and!; [exact Hs|exact Hd|discriminate|exact Hread|].
  exact (Hg [] eq_refl).
Defined.

(** C10. [getSessions] never throws: it returns a value for every content
    of the storage, the empty list when the key is absent and the empty
    list when the stored string is not JSON. *)
Theorem getSessions_never_throws :
  (∀ ls, ∃ v, getSessions ls = Ok v) ∧
  (∀ f, getSessions {| history := None; fits := f |} = Ok (Sessions [])) ∧
  (∀ f s, getSessions {| history := Some (Text s); fits := f |}
          = Ok (Sessions [])).
Proof.
  split_and!.
  - apply getSessions_ok.
  - done.
  - intros f s. unfold getSessions. simpl. by destruct (truthy s).
Qed.

Lemma saveSession_keeps_latest_20_witness :
  ∃ saved h' ls',
    saveAll calls21 heap0 storage0 = Some (saved, h', ls') ∧
    getSessions ls' = Ok (Sessions (take 20 (rev saved))) ∧
    length (take 20 (rev saved)) = 20.
Proof.
  destruct (saveAll calls21 heap0 storage0) as [[[saved h'] ls']|] eqn:E.
  2: { exfalso. vm_compute in E. discriminate E. }
  exists saved, h', ls'. split; [reflexivity|].
  assert (H0 : getSessions storage0 = Ok (Sessions [])) by reflexivity.
  assert (H1 : calls21 ≠ []) by (intros H; discriminate H).
  destruct (saveSession_keeps_latest_20 calls21 heap0 storage0 [] saved h' ls'
              H0 H1 E) as (Hg & _ & H20).
  destruct H20 as [H2 H3]; [vm_compute; lia|].
  rewrite app_nil_r in Hg. split; assumption.
Defined.

End StorageProps.

(* ================================================================= *)
(** ** Properties of services/gemini.ts *)

Module GeminiProps.
Import Gemini GeminiSpec.

Lemma rewriteCaption_no_key `{C : Constants} modelName input customRules net :
  rewriteCaption [] modelName input customRules net
  = ([], Throw (str "API Key is missing")).
Proof. reflexivity. Qed.

Lemma rewriteCaption_text_only `{C : Constants}
    apiKey modelName input customRules net :
  truthy apiKey = true →
  truthy_opt (imageData input) = true →
  includes modelName (str "gemini") = false →
  rewriteCaption apiKey modelName input customRules net
  = ([], Throw (modelName ++ textOnlyNotice)).
Proof.
  intros Hk Hi Hm. unfold rewriteCaption, callOpenAICompatibleApi.
  rewrite Hk, Hm, Hi. reflexivity.
Qed.

(** C7, as the code has it. With an image payload and a model whose name
    does not contain "gemini", [rewriteCaption] throws without sending
    anything. With a non-empty API key the message is the notice that the
    model takes text only; with an empty key it is "API Key is missing". *)
Theorem rewriteCaption_rejects_image `{C : Constants}
    apiKey modelName input customRules net :
  truthy_opt (imageData input) = true →
  includes modelName (str "gemini") = false →
  ∃ message,
    rewriteCaption apiKey modelName input customRules net
      = ([], Throw message) ∧
    (truthy apiKey = true → message = modelName ++ textOnlyNotice) ∧
    (truthy apiKey = false → message = str "API Key is missing").
Proof.
  intros Hi Hm. destruct (truthy apiKey) eqn:Hk.
  - exists (modelName ++ textOnlyNotice). split_and!; [|done|done].
    by apply rewriteCaption_text_only.
  - exists (str "API Key is missing"). split_and!; [|done|done].
    destruct apiKey; [|done]. apply rewriteCaption_no_key.
Qed.

Lemma rewriteCaption_rejects_image_witness :
  ∃ message,
    @rewriteCaption prompt0 (str "k") (str "deepseek-chat") imageInput [] net0
      = ([], Throw message) ∧
    message = str "deepseek-chat" ++ textOnlyNotice.
Proof.
  destruct (@rewriteCaption_rejects_image prompt0 (str "k")
              (str "deepseek-chat") imageInput [] net0)
    as (message & Hr & Hm & _); [reflexivity|reflexivity|].
  exists message. split; [exact Hr|]. apply Hm. reflexivity.
Defined.

(** With an empty API key the error is about the key, not about the
    image. *)
Lemma rejection_for_every_key_fails : ¬ rejection_for_every_key.
Proof.
  intros H.
  specialize (H prompt0 [] (str "deepseek-chat") imageInput [] net0
                eq_refl eq_refl).
  unfold rejectsImage in H. rewrite rewriteCaption_no_key in H.
  vm_compute in H. discriminate H.
Qed.

End GeminiProps.

(* ================================================================= *)
(** ** Properties of the diff view and of the export *)

Module DiffProps.
Import Diff.

Lemma mjoin_nil_inv (l : list jsstring) v :
  mjoin l = [] → v ∈ l → v = [].
Proof.
  induction l as [|x l IH]; intros Hj Hv; [by apply elem_of_nil in Hv|].
  simpl in Hj. apply app_eq_nil in Hj as [Hx Hl].
  apply elem_of_cons in Hv as [->|Hv]; auto.
Qed.

Lemma alternating_same_kind (l : list Change) :
  alternating l = true →
  Forall (fun p => added p = true ∧ removed p = false) l →
  length l ≤ 1.
Proof.
  destruct l as [|p [|q l]]; simpl; intros Ha Hf; try lia.
  inversion Hf as [|? ? [Hp1 Hp2] Hf']; subst.
  inversion Hf' as [|? ? [Hq1 Hq2] _]; subst.
  unfold sameKind in Ha. rewrite Hp1, Hp2, Hq1, Hq2 in Ha. done.
Qed.

(** Against an empty old string the diff is a single addition. *)
Lemma diffChars_empty_old {L : Lib} {S : Spec L} (n : jsstring) :
  n ≠ [] →
  diffChars [] n = [ {| value := n; added := true; removed := false |} ].
Proof.
  intros Hn.
  pose proof (diff_old [] n) as Hold.
  pose proof (diff_new [] n) as Hnew.
  pose proof (diff_alternating [] n) as Halt.
  assert (Hall : Forall (fun p => added p = true ∧ removed p = false)
                        (diffChars [] n)).
  { apply list.Forall_forall. intros p Hp.
    assert (Ha : added p = true).
    { destruct (added p) eqn:Ha; [done|]. exfalso.
      assert (Hv : value p = []).
      { eapply mjoin_nil_inv; [exact Hold|].
        apply list_elem_of_fmap. exists p. split; [done|].
        apply list_elem_of_filter. split; assumption. }
      by destruct (diff_nonempty [] n p Hp Hv). }
    split; [done|].
    pose proof (diff_exclusive [] n p Hp) as He. rewrite Ha in He. done. }
  pose proof (alternating_same_kind _ Halt Hall) as Hlen.
  destruct (diffChars [] n) as [|p [|q l]]; simpl in Hlen; [|clear Hlen|lia].
  - unfold newText in Hnew. simpl in Hnew. congruence.
  - inversion Hall as [|? ? [Ha Hr] _].
    unfold newText in Hnew. rewrite filter_cons_True in Hnew by done.
    simpl in Hnew. rewrite app_nil_r in Hnew.
    destruct p as [v a r]. simpl in *. by subst.
Qed.

#[export] Instance wholesale_spec : Spec wholesale.
Proof.
  split.
  - intros o n. unfold diffChars, wholesale, oldText.
    case_bool_decide as Heq; destruct o, n; try done; simpl;
      rewrite ?app_nil_r; done.
  - intros o n. unfold diffChars, wholesale, newText.
    case_bool_decide as Heq; destruct o, n; try done; simpl;
      rewrite ?app_nil_r; try done; congruence.
  - intros o n p. unfold diffChars, wholesale.
    case_bool_decide as Heq; destruct o, n; simpl;
      rewrite ?elem_of_cons, ?elem_of_nil; intros Hp Hv;
      try done; destruct_or?; subst; simpl in *; try done.
  - intros o n p. unfold diffChars, wholesale.
    case_bool_decide as Heq; destruct o, n; simpl;
      rewrite ?elem_of_cons, ?elem_of_nil; intros Hp;
      try done; destruct_or?; subst; simpl in *; try done.
  - intros o n. unfold diffChars, wholesale.
    case_bool_decide as Heq; destruct o, n; done.
Qed.

End DiffProps.

Module ExportProps.
Import FileParser DataPreview ExportSpec DiffProps.

(** Without a marker the text is returned as it is. *)
Lemma extractRewrittenText_no_marker (s : jsstring) :
  regexMatch s = None → FileParser.extractRewrittenText (Some s) = s.
Proof.
  intros H. destruct s as [|c s]; [done|].
  change (FileParser.extractRewrittenText (Some (c :: s)))
    with (match regexMatch (c :: s) with
          | Some g => if truthy g then trim g else c :: s
          | None => c :: s
          end).
  by rewrite H.
Qed.

Lemma richTextRow_fresh {L : Diff.Lib} {S : Diff.Spec L} (rewritten : jsstring) :
  FileParser.extractRewrittenText (Some rewritten) ≠ [] →
  richTextRow (fresh_item rewritten)
  = {| colID := str "r1";
       colOriginal := Bare [];
       colRewritten :=
         Rich [ {| t := FileParser.extractRewrittenText (Some rewritten);
                   pr := GreenBold |} ];
       colImagePath := []; colStatus := str "completed"; colError := [] |}.
Proof.
  intros Hc. unfold richTextRow, fresh_item. cbn [OriginalCaption RewrittenCaption
    ID ImagePath Status Error].
  assert (Hor : or_else rewritten [] = rewritten) by (by destruct rewritten).
  rewrite Hor. change (or_else [] []) with (@nil N).
  rewrite (diffChars_empty_old _ Hc). reflexivity.
Qed.

(** C8, as the code has it. With an empty original, the diff is taken
    against the text that [extractRewrittenText] extracts from the
    rewritten string. When that text is not empty it is shown as one
    addition, in the sheet and on the screen, and nothing is marked as
    removed: the original column of the sheet is the bare empty string and
    the original view is empty. A rewritten string without a marker is
    its own extracted text. *)
Theorem empty_original_single_addition {L : Diff.Lib} {S : Diff.Spec L}
    (rewritten : jsstring) :
  let clean := FileParser.extractRewrittenText (Some rewritten) in
  clean ≠ [] →
  colRewritten (richTextRow (fresh_item rewritten))
    = Rich [ {| t := clean; pr := GreenBold |} ] ∧
  colOriginal (richTextRow (fresh_item rewritten)) = Bare [] ∧
  DiffView [] rewritten rewritten_view = [Highlight clean] ∧
  DiffView [] rewritten original_view = [] ∧
  (regexMatch rewritten = None → clean = rewritten).
Proof.
  intros clean Hc. rewrite (richTextRow_fresh _ Hc).
  assert (Hview : ∀ type,
    DiffView [] rewritten type
    = omap (fun part =>
        match type with
        | original_view =>
            if Diff.added part then None
            else if Diff.removed part then Some (Highlight (Diff.value part))
            else Some (Unchanged (Diff.value part))
        | rewritten_view =>
            if Diff.removed part then None
            else if Diff.added part then Some (Highlight (Diff.value part))
            else Some (Unchanged (Diff.value part))
        end) [ {| Diff.value := clean; Diff.added := true;
                  Diff.removed := false |} ]).
  { intros type. unfold DiffView, DataPreview.extractRewrittenText.
    cbv zeta. change (FileParser.extractRewrittenText (Some rewritten)) with clean.
    assert (Hor : or_else clean [] = clean) by (by destruct clean).
    rewrite Hor. change (or_else [] []) with (@nil N).
    by rewrite (diffChars_empty_old _ Hc). }
  split_and!; [reflexivity|reflexivity|apply Hview|apply Hview|].
  apply extractRewrittenText_no_marker.
Qed.

Lemma empty_original_single_addition_witness :
  colRewritten (@richTextRow Diff.wholesale (fresh_item (str "A cat.")))
    = Rich [ {| t := str "A cat."; pr := GreenBold |} ].
Proof.
  destruct (@empty_original_single_addition Diff.wholesale wholesale_spec
              (str "A cat.")) as (H & _); [by vm_compute|].
  exact H.
Defined.

(** A rewritten string that carries a marker is not added whole: only the
    text after the marker is. *)
Lemma whole_string_added_fails : ¬ whole_string_added.
Proof.
  intros H.
  destruct (H Diff.wholesale wholesale_spec (str "Final Caption: x")) as [H1 _];
    [by vm_compute|].
  vm_compute in H1. discriminate H1.
Qed.

End ExportProps.

(* ================================================================= *)
(** ** Properties of the spreadsheet import and of the round trip *)

Module ImportProps.
Import FileParser App ImportSpec.

Lemma get_Some_keys (o : object) k v : get o k = Some v → k ∈ keys o.
Proof.
  induction o as [|[k' v'] o IH]; simpl; [done|].
  unfold eqb. case_bool_decide as Hk.
  - intros _. subst. apply elem_of_cons. by left.
  - intros H. apply elem_of_cons. right. by apply IH.
Qed.

Lemma get_None_keys (o : object) k : get o k = None → k ∉ keys o.
Proof.
  induction o as [|[k' v'] o IH]; simpl; [intros _; apply not_elem_of_nil|].
  unfold eqb. case_bool_decide as Hk; [done|].
  intros H Hin. apply elem_of_cons in Hin as [->|Hin]; [done|].
  by apply IH.
Qed.

Lemma sublist_elem {A} (k l : list A) x : sublist k l → x ∈ k → x ∈ l.
Proof.
  induction 1 as [|y k l _ IH|y k l _ IH]; intros Hx; [done| |].
  - apply elem_of_cons in Hx as [->|Hx]; apply elem_of_cons; auto.
  - apply elem_of_cons; auto.
Qed.

(** In a selection of columns, [find] returns the first column of the
    sheet that passes the test, when it is selected. *)
Lemma find_sublist {A} (p : A → bool) (pre post k : list A) (x : A) :
  Forall (fun y => p y = false) pre → p x = true → x ∉ post →
  sublist k (pre ++ x :: post) → x ∈ k → find p k = Some x.
Proof.
  intros Hpre Hx Hpost. revert k.
  induction Hpre as [|y pre Hy Hpre IH]; intros k Hsub Hin; simpl in Hsub.
  - apply sublist_cons_r in Hsub as [Hs|(k' & -> & Hs)].
    + exfalso. apply Hpost. eapply sublist_elem; eauto.
    + simpl. by rewrite Hx.
  - apply sublist_cons_r in Hsub as [Hs|(k' & -> & Hs)].
    + by apply IH.
    + simpl. rewrite Hy. apply IH; [done|].
      apply elem_of_cons in Hin as [->|Hin]; [congruence|done].
Qed.

Lemma find_sublist_without {A} (p : A → bool) (l k : list A) (x : A) :
  (∀ y, y ∈ l → y ≠ x → p y = false) →
  sublist k l → x ∉ k → find p k = None.
Proof.
  intros Hl Hsub Hx.
  assert (Hk : ∀ y, y ∈ k → p y = false).
  { intros y Hy. apply Hl; [by eapply sublist_elem|]. by intros ->. }
  clear Hl Hsub Hx. induction k as [|y k IH]; simpl; [done|].
  rewrite Hk by (apply elem_of_cons; by left).
  apply IH. intros z Hz. apply Hk, elem_of_cons. by right.
Qed.

(** Every imported row is pending and has no rewritten text, image or
    error, whatever the sheet holds. *)
Lemma processedData_fresh uuidv4 jsonData :
  Forall (fun r => status r = Status.pending ∧ rewritten r = None ∧
                   imageData r = None ∧ error r = None)
         (processedData uuidv4 jsonData).
Proof.
  unfold processedData. apply list.Forall_forall. intros r Hr.
  apply list_elem_of_filter in Hr as [_ Hr].
  apply elem_of_lookup_imap in Hr as (i & o & -> & _). done.
Qed.

(** C4 fails on the code. In a sheet with a caption column, a data row
    whose caption cell is empty but whose first cell is not comes out of
    the import as a row, with that first cell as its [original]: the
    caption key is looked up among the cells the row has, and the first of
    them is the fallback. *)
Theorem import_takes_first_cell_when_caption_is_empty :
  original <$> processedData uuid0 (parseExcel sheet0)
  = [str "hello"; str "2"].
Proof. vm_compute. reflexivity. Qed.

(** *** Export followed by import *)

Lemma importRow_fileRow {L : Diff.Lib} keep newId (r : CaptionRow) :
  id r ≠ [] →
  importRow newId
    (rowObject (headerRow (exportToCSV (exportItem <$> [r]))) 0
       (fileRow keep (richTextRow (exportItem r))))
  = reimported keep newId r.
Proof.
  intros Hid. destruct r as [i o rw st ip im er]. simpl in Hid.
  destruct i as [|c i]; [done|].
  unfold reimported, fileRow, richTextRow, exportItem, textCell, cellValue.
  cbn [colID colOriginal colRewritten colImagePath colStatus colError
       FileParser.ID FileParser.ImagePath FileParser.Status FileParser.Error
       id imagePath error status headerRow exportToCSV truthy].
  rewrite orb_true_r.
  destruct ip as [[|c1 ip]|], er as [[|c2 er]|], keep, st;
    vm_compute; reflexivity.
Qed.

Lemma hasCaption_reimported keep newId r :
  trim (id r) ≠ [] → hasCaption (reimported keep newId r) = true.
Proof.
  intros H. unfold hasCaption, reimported. cbn [original].
  apply andb_true_iff. split.
  - by destruct (id r).
  - apply negb_true_iff, bool_decide_eq_false. done.
Qed.

Lemma filter_Forall_id {A} (P : A → Prop) `{∀ x, Decision (P x)} (l : list A) :
  Forall P l → filter P l = l.
Proof.
  induction 1 as [|x l Hx _ IH]; [done|].
  rewrite filter_cons_True by done. by rewrite IH.
Qed.

(** The rows that come back from the file of an export, one for each row
    that was exported. *)
Lemma reimport_rows {L : Diff.Lib} keep uuidv4 (rows : list CaptionRow) :
  Forall (fun r => trim (id r) ≠ []) rows →
  reimport (readBack keep) uuidv4 rows
  = imap (fun i r => reimported keep (uuidv4 i) r) rows.
Proof.
  intros Hid.
  assert (Hne : Forall (fun r => id r ≠ []) rows).
  { eapply list.Forall_impl; [exact Hid|]. intros r H Hr. apply H.
    by rewrite Hr. }
  unfold reimport, readBack, parseExcel, sheet_to_json, fileSheet,
    processedData.
  cbn [header FileParser.rows body exportToCSV headerRow].
  rewrite <- !list_fmap_compose.
  rewrite (filter_Forall_id (fun o : object => o ≠ [])).
  2:{ apply Forall_fmap. eapply list.Forall_impl; [exact Hne|].
      intros r Hr. destruct r as [i o rw st ip im er]. simpl in Hr.
      destruct i as [|c i]; [done|].
      unfold compose, fileRow, richTextRow, exportItem, textCell.
      cbn [colID FileParser.ID id truthy]. rewrite orb_true_r. done. }
  rewrite imap_fmap.
  rewrite (imap_ext _ (fun i r => reimported keep (uuidv4 i) r)).
  2:{ intros i r Hi. cbn. apply (importRow_fileRow keep (uuidv4 i) r).
      exact (proj1 (list.Forall_forall _ _) Hne r
               (list_elem_of_lookup_2 _ _ _ Hi)). }
  apply filter_Forall_id.
  apply list.Forall_forall. intros r' Hr'.
  apply elem_of_lookup_imap in Hr' as (i & r & -> & Hi).
  apply Is_true_true, hasCaption_reimported.
  exact (proj1 (list.Forall_forall _ _) Hid r
           (list_elem_of_lookup_2 _ _ _ Hi)).
Qed.

Lemma Forall2_imap_r {A B} (P : A → B → Prop) (f : nat → A → B) (l : list A) :
  (∀ i x, l !! i = Some x → P x (f i x)) → Forall2 P l (imap f l).
Proof.
  revert f. induction l as [|x l IH]; intros f H; simpl; [constructor|].
  constructor; [by apply (H 0)|].
  apply IH. intros i y Hy. by apply (H (S i)).
Qed.

(** The claim C3 fails on the code. A completed row does not come back
    with its four fields, whatever the spreadsheet library does with the
    file: the import makes every row pending, without rewritten text. And
    with a library that writes the cells that have a value and reads them
    back, the row comes back with its identifier as [original]: the two
    caption cells of the export have no value, so the file has no caption
    column, and the import falls back on the first cell of the row. The
    image path is the one that was exported. *)
Lemma roundtrip_loses_status :
  (¬ ∃ (L : Diff.Lib) xlsx uuidv4,
       Forall2 sameFour [done_row] (reimport xlsx uuidv4 [done_row])) ∧
  (∀ (L : Diff.Lib) keep uuidv4,
     reimport (readBack keep) uuidv4 [done_row]
     = [ {| id := uuidv4 0; original := str "r1"; rewritten := None;
            status := Status.pending; imagePath := Some (str "cat.png");
            imageData := None; error := None |} ]).
Proof.
  split.
  - intros (L & xlsx & uuidv4 & H).
    pose proof (processedData_fresh uuidv4
                  (xlsx (exportToCSV (exportItem <$> [done_row])))) as Hf.
    fold (reimport xlsx uuidv4 [done_row]) in Hf.
    inversion H as [|? r' ? ? Hsame Hrest]; subst.
    destruct Hsame as (_ & _ & _ & Hst).
    rewrite <- H2 in Hf. inversion Hf as [|? ? [Hp _] _]; subst.
    rewrite Hp in Hst. discriminate Hst.
  - intros L keep uuidv4. rewrite reimport_rows.
    + by destruct keep.
    + constructor; [|constructor]. by vm_compute.
Qed.

(** C3, as the code has it. Exporting rows whose identifiers are not
    blank and importing the file gives one row for each exported row, in
    the same order. Each is pending and has no rewritten text, whatever
    the exported row had; its image path is the exported one when that is
    a non-empty string, and absent or empty when the exported one was
    absent or empty. Nothing is said here of [original]. *)
Theorem roundtrip_through_file {L : Diff.Lib} keep uuidv4
    (rows : list CaptionRow) :
  Forall (fun r => trim (id r) ≠ []) rows →
  Forall2 throughFile rows (reimport (readBack keep) uuidv4 rows).
Proof.
  intros Hid. rewrite (reimport_rows keep uuidv4 rows Hid).
  apply Forall2_imap_r. intros i r _.
  unfold throughFile, reimported. cbn [status rewritten imagePath].
  split_and!; try done.
  - by intros ->.
  - intros ->. by destruct keep.
Qed.

Lemma roundtrip_through_file_witness :
  Forall2 throughFile [done_row; plain_row]
    (reimport (L := Diff.wholesale) (readBack true) uuid0
       [done_row; plain_row]) ∧
  reimport (L := Diff.wholesale) (readBack true) uuid0 [done_row; plain_row]
  = [ reimported true (str "id-0") done_row;
      reimported true (str "id-1") plain_row ].
Proof.
  assert (Hid : Forall (fun r => trim (id r) ≠ []) [done_row; plain_row]).
  { repeat constructor; by vm_compute. }
  split.
  - exact (@roundtrip_through_file Diff.wholesale true uuid0
             [done_row; plain_row] Hid).
  - by vm_compute.
Defined.

End ImportProps.

(* ================================================================= *)
(** ** Properties of the batch processor *)

Module BatchProps.
Import App BatchSpec.

(** *** Lists *)

Lemma replaceAt_length i f l : length (replaceAt i f l) = length l.
Proof.
  unfold replaceAt. destruct (l !! i); [apply length_insert|done].
Qed.

Lemma replaceAt_lookup_eq i f l row :
  l !! i = Some row → replaceAt i f l !! i = Some (f row).
Proof.
  intros H. unfold replaceAt. rewrite H.
  apply list_lookup_insert_eq. by eapply lookup_lt_Some.
Qed.

Lemma replaceAt_lookup_ne i j f l :
  i ≠ j → replaceAt i f l !! j = l !! j.
Proof.
  intros H. unfold replaceAt. destruct (l !! i); [|done].
  by apply list_lookup_insert_ne.
Qed.

(** *** The queue *)

Lemma imap_pairs_lookup {A} (l : list A) n k x i :
  imap (fun i item => (item, n + i)) l !! k = Some (x, i) →
  i = n + k ∧ l !! k = Some x.
Proof.
  rewrite list_lookup_imap. destruct (l !! k) as [y|]; simpl; [|done].
  intros [= -> <-]. done.
Qed.

Lemma queue_from_data a k item i :
  queue a !! k = Some (item, i) →
  data a !! i = Some item ∧ eligible item = true.
Proof.
  intros H. apply list_elem_of_lookup_2 in H.
  apply list_elem_of_filter in H as [He H]. simpl in He.
  apply list_elem_of_lookup in H as [j Hj].
  apply (imap_pairs_lookup _ 0) in Hj as [-> Hj]. split; [done|].
  by apply Is_true_true.
Qed.

Lemma queue_complete a item i :
  data a !! i = Some item → eligible item = true →
  ∃ k, queue a !! k = Some (item, i).
Proof.
  intros Hd He. apply list_elem_of_lookup, list_elem_of_filter. split.
  - simpl. by apply Is_true_true.
  - apply list_elem_of_lookup. exists i. rewrite list_lookup_imap, Hd. done.
Qed.

Lemma imap_pairs_snd {A} (l : list A) n :
  (imap (fun i item => (item, n + i)) l).*2 = seq n (length l).
Proof.
  revert n. induction l as [|x l IH]; intros n; [done|].
  rewrite imap_cons. simpl. f_equal; [lia|].
  rewrite <- (IH (S n)). f_equal. apply imap_ext. intros; simpl. f_equal. lia.
Qed.

Lemma queue_NoDup a : NoDup (queue a).*2.
Proof.
  unfold queue.
  apply (sublist_NoDup _ (imap (fun i item => (item, i)) (data a)).*2).
  - pose proof (imap_pairs_snd (data a) 0) as H. simpl in H. rewrite H.
    apply NoDup_seq.
  - apply fmap_sublist, sublist_filter.
Qed.

Lemma queue_position a k k' item item' i :
  queue a !! k = Some (item, i) → queue a !! k' = Some (item', i) → k = k'.
Proof.
  intros H H'. eapply NoDup_lookup; [apply queue_NoDup| |].
  - rewrite list_lookup_fmap, H. done.
  - rewrite list_lookup_fmap, H'. done.
Qed.

Lemma imap_pairs_fst {A} (P : A → bool) (l : list A) n :
  (filter (fun p : A * nat => P p.1)
          (imap (fun i item => (item, n + i)) l)).*1
  = filter (fun x => P x) l.
Proof.
  revert n. induction l as [|x l IH]; intros n; [done|].
  assert (Hext : imap ((fun i item => (item, n + i)) ∘ S) l
                 = imap (fun i item => (item, S n + i)) l).
  { apply imap_ext. intros; simpl. f_equal. lia. }
  rewrite imap_cons, Hext, !filter_cons. cbn [fst].
  destruct (decide (P x)); rewrite ?fmap_cons, IH; done.
Qed.

Lemma queue_length a :
  length (queue a) = length (filter (fun item => eligible item) (data a)).
Proof.
  unfold queue. rewrite <- (imap_pairs_fst eligible (data a) 0).
  by rewrite length_fmap.
Qed.

Lemma queue_in_range a k item i :
  queue a !! k = Some (item, i) → i < length (data a).
Proof.
  intros H. apply queue_from_data in H as [H _]. by eapply lookup_lt_Some.
Qed.

(** *** One turn of a worker *)

Lemma worker_loop_cases (r : Run) :
  (worker_loop r = (r, Returned) ∧
   (length (itemsToProcess r) ≤ index r ∨ stopProcessingRef (st r) = true))
  ∨ (∃ item i,
       itemsToProcess r !! index r = Some (item, i) ∧
       stopProcessingRef (st r) = false ∧
       worker_loop r = (claim r item i, Waiting (index r))).
Proof.
  unfold worker_loop. destruct (index r <? length (itemsToProcess r)) eqn:Hlt.
  - apply Nat.ltb_lt in Hlt.
    destruct (stopProcessingRef (st r)) eqn:Hstop; [left; auto|].
    destruct (lookup_lt_is_Some_2 _ _ Hlt) as [[item i] Hi].
    right. exists item, i. rewrite Hi. done.
  - apply Nat.ltb_ge in Hlt. left. auto.
Qed.

Section Turn.
Context {C : Gemini.Constants}.

Lemma outcome_config (s a : State) item net :
  apiKey s = apiKey a ∧ selectedModel s = selectedModel a ∧
  customRules s = customRules a →
  outcome s item net = outcome a item net.
Proof. intros (H1 & H2 & H3). unfold outcome. by rewrite H1, H2, H3. Qed.

(** The call for position [k] settles and its outcome is written back. *)
Lemma Inv_written a r (W W' : nat → Prop) ret k item i net :
  Inv a r W ret → W k → queue a !! k = Some (item, i) →
  (∀ k0, W' k0 ↔ W k0 ∧ k0 ≠ k) →
  Inv a (written r item i net) W' ret.
Proof.
  intros [Hitems Hindex Hlen Hcfg Hcl Hret Hrows Hoth Hcalls] HWk Hq HW'.
  destruct (Hrows _ _ _ Hq) as (_ & Hproc & _).
  specialize (Hproc (Hcl _ HWk) HWk).
  split; simpl; try done.
  - by rewrite replaceAt_length.
  - intros k0 Hk0. apply Hcl. by apply HW'.
  - intros k0 item0 i0 Hq0.
    destruct (decide (k0 = k)) as [->|Hne].
    + rewrite Hq in Hq0. injection Hq0 as <- <-.
      rewrite (replaceAt_lookup_eq _ _ _ _ Hproc).
      split_and!.
      * intros Hle. specialize (Hcl _ HWk). lia.
      * intros _ Hw. apply HW' in Hw. by destruct Hw.
      * intros _ _. eexists. split; [done|]. exists net.
        by rewrite (outcome_config _ a).
    + assert (i ≠ i0).
      { intros <-. apply Hne. by eapply queue_position. }
      rewrite replaceAt_lookup_ne by done.
      destruct (Hrows _ _ _ Hq0) as (H0 & H1 & H2).
      split_and!; [done| |].
      * intros Hlt Hw. apply H1; [done|]. by apply HW'.
      * intros Hlt Hw. apply H2; [done|]. intros Hw'. apply Hw, HW'. done.
  - intros i0 Hi0. rewrite replaceAt_lookup_ne; [by apply Hoth|].
    intros <-. apply Hi0. apply list_elem_of_fmap. exists (item, i).
    split; [done|]. by eapply list_elem_of_lookup_2.
Qed.

(** The position under the cursor is claimed. *)
Lemma Inv_claim a r (W W' : nat → Prop) ret item i :
  Inv a r W ret →
  itemsToProcess r !! index r = Some (item, i) →
  stopProcessingRef (st r) = false →
  (∀ k0, W' k0 ↔ W k0 ∨ k0 = index r) →
  Inv a (claim r item i) W' ret.
Proof.
  intros [Hitems Hindex Hlen Hcfg Hcl Hret Hrows Hoth Hcalls] Hq Hstop HW'.
  rewrite Hitems in Hq.
  assert (Hlt : index r < length (queue a)) by (by eapply lookup_lt_Some).
  destruct (Hrows _ _ _ Hq) as (Hfresh & _ & _).
  specialize (Hfresh (le_n _)).
  split; simpl; try done.
  - by rewrite replaceAt_length.
  - intros k0 Hk0. apply HW' in Hk0 as [Hk0| ->]; [|lia].
    specialize (Hcl _ Hk0). lia.
  - intros _ Hr. specialize (Hret Hstop Hr). lia.
  - intros k0 item0 i0 Hq0.
    destruct (decide (k0 = index r)) as [->|Hne].
    + rewrite Hq in Hq0. injection Hq0 as <- <-.
      rewrite (replaceAt_lookup_eq _ _ _ _ Hfresh).
      split_and!.
      * intros Hle. lia.
      * done.
      * intros _ Hw. exfalso. apply Hw, HW'. by right.
    + assert (i ≠ i0).
      { intros <-. apply Hne. by eapply queue_position. }
      rewrite replaceAt_lookup_ne by done.
      destruct (Hrows _ _ _ Hq0) as (H0 & H1 & H2).
      split_and!.
      * intros Hle. apply H0. lia.
      * intros Hlt' Hw. apply HW' in Hw as [Hw|?]; [|done].
        apply H1; [|done]. by apply Hcl.
      * intros Hlt' Hw. apply H2; [lia|]. intros Hw'. apply Hw, HW'. by left.
  - intros i0 Hi0. rewrite replaceAt_lookup_ne; [by apply Hoth|].
    intros <-. apply Hi0. apply list_elem_of_fmap. exists (item, i).
    split; [done|]. by eapply list_elem_of_lookup_2.
  - rewrite Hcalls. by rewrite (take_S_r _ _ _ Hq), fmap_app.
Qed.

(** The invariant looks at the rows, the configuration, the stop flag, the
    cursor and the calls only. *)
Lemma Inv_ext a r r' (W W' : nat → Prop) (ret ret' : Prop) :
  Inv a r W ret →
  itemsToProcess r' = itemsToProcess r → index r' = index r →
  calls r' = calls r → data (st r') = data (st r) →
  apiKey (st r') = apiKey (st r) →
  selectedModel (st r') = selectedModel (st r) →
  customRules (st r') = customRules (st r) →
  (stopProcessingRef (st r') = false → stopProcessingRef (st r) = false) →
  (∀ k, W' k ↔ W k) →
  (ret' → ret ∨ length (queue a) ≤ index r
          ∨ stopProcessingRef (st r') = true) →
  Inv a r' W' ret'.
Proof.
  intros [Hitems Hindex Hlen Hcfg Hcl Hret Hrows Hoth Hcalls]
    Ei Ex Ec Ed Ek Em Eu Hs HW Hr.
  split; rewrite ?Ei, ?Ex, ?Ec, ?Ed, ?Ek, ?Em, ?Eu; try done.
  - intros k Hk. apply Hcl. by apply HW.
  - intros Hstop Hret'. destruct (Hr Hret') as [H|[H|H]].
    + apply Hret; auto.
    + lia.
    + congruence.
  - intros k item i Hq. destruct (Hrows _ _ _ Hq) as (H0 & H1 & H2).
    split_and!; [done| |].
    + intros Hlt Hw. apply H1; [done|]. by apply HW.
    + intros Hlt Hw. apply H2; [done|]. intros Hw'. by apply Hw, HW.
Qed.

End Turn.

(** *** The workers *)

Lemma waiting_insert (ws : list Worker) w k x k0 :
  distinct ws → ws !! w = Some (Waiting k) →
  Waiting k0 ∈ <[w:=x]> ws ↔ (Waiting k0 ∈ ws ∧ k0 ≠ k) ∨ x = Waiting k0.
Proof.
  intros Hd Hw. assert (Hlt : w < length ws) by (by eapply lookup_lt_Some).
  split.
  - intros Hin. apply list_elem_of_lookup in Hin as [j Hj].
    destruct (decide (j = w)) as [->|Hne].
    + rewrite list_lookup_insert_eq in Hj by done. right. congruence.
    + rewrite list_lookup_insert_ne in Hj by done. left. split.
      * by eapply list_elem_of_lookup_2.
      * intros ->. apply Hne. by eapply Hd.
  - intros [[Hin Hne]| ->].
    + apply list_elem_of_lookup in Hin as [j Hj].
      apply list_elem_of_lookup. exists j.
      rewrite list_lookup_insert_ne; [done|]. intros ->. congruence.
    + apply list_elem_of_lookup. exists w. by apply list_lookup_insert_eq.
Qed.

Lemma returned_insert (ws : list Worker) w x :
  Returned ∈ <[w:=x]> ws → Returned ∈ ws ∨ x = Returned.
Proof.
  intros Hin. apply list_elem_of_lookup in Hin as [j Hj].
  destruct (decide (j = w)) as [->|Hne].
  - destruct (decide (w < length ws)).
    + rewrite list_lookup_insert_eq in Hj by done. right. congruence.
    + rewrite list_insert_ge in Hj by lia. left.
      by eapply list_elem_of_lookup_2.
  - rewrite list_lookup_insert_ne in Hj by done. left.
    by eapply list_elem_of_lookup_2.
Qed.

Lemma distinct_insert (ws : list Worker) w x :
  distinct ws → (∀ k, x = Waiting k → Waiting k ∉ ws) →
  distinct (<[w:=x]> ws).
Proof.
  intros Hd Hx j j' k Hj Hj'.
  destruct (decide (w < length ws)) as [Hlt|Hge];
    [|rewrite list_insert_ge in Hj, Hj' by lia; by eapply Hd].
  destruct (decide (j = w)) as [->|Hne], (decide (j' = w)) as [->|Hne'];
    try done.
  - rewrite list_lookup_insert_eq in Hj by done.
    rewrite list_lookup_insert_ne in Hj' by done.
    injection Hj as ->. exfalso. eapply Hx; [done|].
    by eapply list_elem_of_lookup_2.
  - rewrite list_lookup_insert_eq in Hj' by done.
    rewrite list_lookup_insert_ne in Hj by done.
    injection Hj' as ->. exfalso. eapply Hx; [done|].
    by eapply list_elem_of_lookup_2.
  - rewrite list_lookup_insert_ne in Hj, Hj' by done. by eapply Hd.
Qed.

Lemma distinct_snoc (ws : list Worker) x :
  distinct ws → (∀ k, x = Waiting k → Waiting k ∉ ws) →
  distinct (ws ++ [x]).
Proof.
  intros Hd Hx j j' k Hj Hj'.
  apply lookup_snoc_Some in Hj as [[Hlt Hj]|[-> Hj]];
    apply lookup_snoc_Some in Hj' as [[Hlt' Hj']|[-> Hj']]; try done.
  - by eapply Hd.
  - subst x. exfalso. eapply Hx; [done|]. by eapply list_elem_of_lookup_2.
  - subst x. exfalso. eapply Hx; [done|]. by eapply list_elem_of_lookup_2.
Qed.

(** *** The invariant along a run *)

Section Run.
Context {C : Gemini.Constants}.

Lemma resume_cases w net r r' :
  resume w net r = Some r' →
  ∃ k item i,
    workers r !! w = Some (Waiting k) ∧
    itemsToProcess r !! k = Some (item, i) ∧
    ((r' = settle (place (<[w:=Returned]> (workers r)) (written r item i net))
      ∧ (length (itemsToProcess r) ≤ index r
         ∨ stopProcessingRef (st r) = true))
     ∨ (∃ item' i',
          itemsToProcess r !! index r = Some (item', i') ∧
          stopProcessingRef (st r) = false ∧
          r' = settle (place (<[w:=Waiting (index r)]> (workers r))
                         (claim (written r item i net) item' i')))).
Proof.
  unfold resume. intros H.
  destruct (workers r !! w) as [[k|]|] eqn:Hw; try done.
  destruct (itemsToProcess r !! k) as [[item i]|] eqn:Hk; try done.
  exists k, item, i. split_and!; try done.
  fold (written r item i net) in H.
  destruct (worker_loop_cases (written r item i net))
    as [[Hl Hc]|(item' & i' & Hq & Hs & Hl)]; rewrite Hl in H;
    injection H as <-.
  - left. done.
  - right. exists item', i'. done.
Qed.

Lemma Reach_settle a r : Reach a r → Reach a (settle r).
Proof.
  intros [Hi Hd]. unfold settle. destruct (finished r); [|done].
  split; [|done]. eapply Inv_ext; eauto; tauto.
Qed.

Lemma Reach_resume a r w net r' :
  Reach a r → resume w net r = Some r' → Reach a r'.
Proof.
  intros [Hi Hd] Hres.
  destruct (resume_cases _ _ _ _ Hres) as (k & item & i & Hw & Hk & Hcase).
  assert (Hwk : waiting r k) by (by eapply list_elem_of_lookup_2).
  rewrite (inv_items _ _ _ _ Hi) in Hk.
  pose proof (Inv_written a r (waiting r) (fun k0 => waiting r k0 ∧ k0 ≠ k)
                _ k item i net Hi Hwk Hk (fun _ => reflexivity _)) as H1.
  destruct Hcase as [[-> Hend]|(item' & i' & Hq & Hs & ->)];
    apply Reach_settle.
  - split.
    + eapply Inv_ext; [exact H1|done..| |].
      * intros k0. unfold waiting at 1. simpl.
        rewrite (waiting_insert _ _ _ _ _ Hd Hw). unfold waiting.
        split; [intros [?|?]; done|by left].
      * simpl. intros _. right. rewrite (inv_items _ _ _ _ Hi) in Hend. done.
    + simpl. apply distinct_insert; done.
  - pose proof (Inv_claim a (written r item i net) _
                  (fun k0 => (waiting r k0 ∧ k0 ≠ k) ∨ k0 = index r)
                  _ item' i' H1 Hq Hs (fun _ => reflexivity _)) as H2.
    split.
    + eapply Inv_ext; [exact H2|done..| |].
      * intros k0. unfold waiting at 1. simpl.
        rewrite (waiting_insert _ _ _ _ _ Hd Hw). unfold waiting.
        split; [intros [?|[= ->]]; auto|intros [?| ->]; auto].
      * simpl. intros Hr. apply returned_insert in Hr as [Hr|Hr]; [|done].
        by left.
    + simpl. apply distinct_insert; [done|].
      intros k0 [= <-] Hin.
      pose proof (inv_claimed _ _ _ _ Hi _ Hin). lia.
Qed.

Lemma Reach_stop a r : Reach a r → Reach a (withSt stopProcessing r).
Proof.
  intros [Hi Hd]. split; [|done].
  eapply Inv_ext; eauto; simpl; try tauto; try done.
Qed.

Lemma Reach_step a r e r' : Reach a r → step r e = Some r' → Reach a r'.
Proof.
  destruct e as [w net|]; simpl.
  - apply Reach_resume.
  - intros H [= <-]. by apply Reach_stop.
Qed.

Lemma Reach_run a es : ∀ r r',
  Reach a r → run r es = Some r' → Reach a r'.
Proof.
  induction es as [|e es IH]; intros r r' Hr Hrun; simpl in Hrun.
  - by injection Hrun as <-.
  - destruct (step r e) as [r1|] eqn:Hstep; [|done]. simpl in Hrun.
    eapply IH; [|exact Hrun]. by eapply Reach_step.
Qed.

Lemma waiting_snoc (ws : list Worker) x k0 :
  Waiting k0 ∈ ws ++ [x] ↔ Waiting k0 ∈ ws ∨ x = Waiting k0.
Proof.
  rewrite elem_of_app, list_elem_of_singleton. intuition (subst; auto; congruence).
Qed.

Lemma Reach_spawn a r : Reach a r → Reach a (spawn r).
Proof.
  intros [Hi Hd]. unfold spawn, worker.
  destruct (stopProcessingRef (st r)) eqn:Hstop.
  - split.
    + eapply Inv_ext; [exact Hi|done..| |]; simpl.
      * intros k0. unfold waiting. simpl. rewrite waiting_snoc. intuition (subst; auto; congruence).
      * auto.
    + simpl. by apply distinct_snoc.
  - destruct (worker_loop_cases r) as [[-> Hc]|(item & i & Hq & _ & ->)].
    + split.
      * eapply Inv_ext; [exact Hi|done..| |]; simpl.
        -- intros k0. unfold waiting. simpl. rewrite waiting_snoc.
           intuition (subst; auto; congruence).
        -- intros _. right. rewrite (inv_items _ _ _ _ Hi) in Hc.
           destruct Hc as [?|?]; [by left|congruence].
      * simpl. by apply distinct_snoc.
    + pose proof (Inv_claim a r _ (fun k0 => waiting r k0 ∨ k0 = index r)
                    _ item i Hi Hq Hstop (fun _ => reflexivity _)) as H2.
      split.
      * eapply Inv_ext; [exact H2|done..| |]; simpl.
        -- intros k0. unfold waiting. simpl. rewrite waiting_snoc.
           intuition (subst; auto; congruence).
        -- intros Hr. left. apply elem_of_app in Hr as [Hr|Hr]; [done|].
           by apply list_elem_of_singleton in Hr.
      * simpl. apply distinct_snoc; [done|]. intros k0 [= <-] Hin.
        pose proof (inv_claimed _ _ _ _ Hi _ Hin). lia.
Qed.

Lemma Reach_ready a : Reach a (ready a).
Proof.
  split; [split; simpl; try done|].
  - lia.
  - intros k Hk. by apply elem_of_nil in Hk.
  - intros _ Hr. by apply elem_of_nil in Hr.
  - intros k item i Hq. split_and!; [|lia|lia].
    intros _. by apply queue_from_data in Hq as [? _].
  - intros w w' k Hw. simpl in Hw. by rewrite lookup_nil in Hw.
Qed.

Lemma startProcessing_started a :
  truthy (apiKey a) = true → data a ≠ [] →
  startProcessing a = settle (Nat.iter CONCURRENCY spawn (ready a)).
Proof.
  intros Hk Hd. unfold startProcessing. rewrite Hk. simpl.
  destruct (length (data a) =? 0) eqn:E; [|done].
  apply Nat.eqb_eq in E. destruct (data a); done.
Qed.

Lemma startProcessing_idle a :
  truthy (apiKey a) = false ∨ data a = [] → startProcessing a = idle a.
Proof.
  unfold startProcessing. intros [->|Hd]; [done|]. rewrite Hd. simpl.
  by destruct (truthy (apiKey a)).
Qed.

Lemma Reach_start a :
  truthy (apiKey a) = true → data a ≠ [] → Reach a (startProcessing a).
Proof.
  intros Hk Hd. rewrite startProcessing_started by done.
  apply Reach_settle. unfold CONCURRENCY. simpl.
  do 3 apply Reach_spawn. apply Reach_ready.
Qed.

(** The pool keeps its size. *)
Lemma spawn_workers r : length (workers (spawn r)) = S (length (workers r)).
Proof.
  unfold spawn, worker. destruct (stopProcessingRef (st r)); simpl.
  - rewrite length_app. simpl. lia.
  - destruct (worker_loop_cases r) as [[-> _]|(item & i & _ & _ & ->)];
      simpl; rewrite length_app; simpl; lia.
Qed.

Lemma settle_workers r : workers (settle r) = workers r.
Proof. unfold settle. by destruct (finished r). Qed.

Lemma step_workers r e r' :
  step r e = Some r' → length (workers r') = length (workers r).
Proof.
  destruct e as [w net|]; simpl; [|intros [= <-]; done].
  intros H. apply resume_cases in H
    as (k & item & i & _ & _ & [[-> _]|(item' & i' & _ & _ & ->)]);
    rewrite settle_workers; simpl; apply length_insert.
Qed.

Lemma run_workers es : ∀ r r',
  run r es = Some r' → length (workers r') = length (workers r).
Proof.
  induction es as [|e es IH]; intros r r' H; simpl in H.
  - by injection H as <-.
  - destruct (step r e) as [r1|] eqn:Hs; [|done]. simpl in H.
    rewrite (IH _ _ H). by eapply step_workers.
Qed.

Lemma start_workers a :
  truthy (apiKey a) = true → data a ≠ [] →
  length (workers (startProcessing a)) = CONCURRENCY.
Proof.
  intros Hk Hd. rewrite startProcessing_started by done.
  rewrite settle_workers. unfold CONCURRENCY. simpl.
  by rewrite !spawn_workers.
Qed.

(** *** The stop flag *)

Lemma settle_fields r :
  stopProcessingRef (st (settle r)) = stopProcessingRef (st r) ∧
  index (settle r) = index r ∧ calls (settle r) = calls r ∧
  data (st (settle r)) = data (st r).
Proof. unfold settle. by destruct (finished r). Qed.

Lemma resume_flag w net r r' :
  resume w net r = Some r' →
  stopProcessingRef (st r') = stopProcessingRef (st r).
Proof.
  intros H. apply resume_cases in H
    as (k & item & i & _ & _ & [[-> _]|(item' & i' & _ & _ & ->)]);
    by rewrite (proj1 (settle_fields _)).
Qed.

Lemma run_flag es : ∀ r r',
  noStop es → run r es = Some r' →
  stopProcessingRef (st r') = stopProcessingRef (st r).
Proof.
  induction es as [|e es IH]; intros r r' Hn H; simpl in H.
  - by injection H as <-.
  - inversion Hn as [|? ? He Hn']; subst.
    destruct (step r e) as [r1|] eqn:Hs; [|done]. simpl in H.
    rewrite (IH _ _ Hn' H). destruct e as [w net|]; [|done].
    by eapply resume_flag.
Qed.

Lemma spawn_flag r :
  stopProcessingRef (st (spawn r)) = stopProcessingRef (st r).
Proof.
  unfold spawn, worker. destruct (stopProcessingRef (st r)) eqn:Hs; [done|].
  by destruct (worker_loop_cases r) as [[-> _]|(item & i & _ & _ & ->)].
Qed.

Lemma start_flag a :
  truthy (apiKey a) = true → data a ≠ [] →
  stopProcessingRef (st (startProcessing a)) = false.
Proof.
  intros Hk Hd. rewrite startProcessing_started by done.
  rewrite (proj1 (settle_fields _)). unfold CONCURRENCY. simpl.
  by rewrite !spawn_flag.
Qed.



(** *** The end of a run *)

Lemma finished_all r w : finished r = true → w ∈ workers r → w = Returned.
Proof.
  unfold finished. induction (workers r) as [|x ws IH]; simpl; intros Hf Hw.
  - by apply elem_of_nil in Hw.
  - apply andb_true_iff in Hf as [Hx Hf].
    apply elem_of_cons in Hw as [->|Hw]; [by destruct x|auto].
Qed.

Lemma finished_not_waiting r k : finished r = true → ¬ waiting r k.
Proof. intros Hf Hw. by apply (finished_all _ _ Hf) in Hw. Qed.

Lemma finished_returned r :
  finished r = true → workers r ≠ [] → Returned ∈ workers r.
Proof.
  intros Hf Hne. destruct (workers r) as [|x ws] eqn:E; [done|].
  assert (x = Returned) as ->.
  { apply (finished_all r); [done|]. rewrite E. apply elem_of_cons. by left. }
  apply elem_of_cons. by left.
Qed.

Lemma run_idle a es r :
  noStop es → run (idle a) es = Some r → r = idle a.
Proof.
  intros Hn H. destruct es as [|e es]; simpl in H; [by injection H as <-|].
  inversion Hn as [|? ? He _]; subst. destruct e as [w net|]; [|done].
  simpl in H. done.
Qed.

Lemma writeBack_terminal o row : terminal (status (writeBack o row)) = true.
Proof. by destruct o. Qed.

Lemma settledRow_terminal a item row :
  settledRow a item row → terminal (status row) = true.
Proof. intros [net ->]. apply writeBack_terminal. Qed.

(** A run that has ended without a stop has gone through its queue. *)
Lemma finished_index a r :
  Reach a r → stopProcessingRef (st r) = false →
  finished r = true → workers r ≠ [] → index r = length (queue a).
Proof.
  intros [Hi _] Hs Hf Hne.
  apply (inv_returned _ _ _ _ Hi Hs). by apply finished_returned.
Qed.

(** The rows of a run that has ended: those of the queue below the cursor
    hold the outcome of their call, the others are as at the start. *)
Lemma finished_rows a r :
  Reach a r → finished r = true →
  (∀ k item i, queue a !! k = Some (item, i) →
     (k < index r →
        ∃ row, data (st r) !! i = Some row ∧ settledRow a item row) ∧
     (index r ≤ k → data (st r) !! i = Some item)) ∧
  (∀ i, i ∉ (queue a).*2 → data (st r) !! i = data a !! i).
Proof.
  intros [Hi _] Hf. split.
  - intros k item i Hq.
    destruct (inv_rows _ _ _ _ Hi _ _ _ Hq) as (H0 & _ & H2).
    split; [|done]. intros Hlt. apply H2; [done|].
    by apply finished_not_waiting.
  - apply (inv_others _ _ _ _ Hi).
Qed.

Lemma queue_member a i :
  i ∈ (queue a).*2 ↔ ∃ k item, queue a !! k = Some (item, i).
Proof.
  rewrite list_elem_of_fmap. split.
  - intros ([item i'] & -> & Hin). apply list_elem_of_lookup in Hin as [k Hk].
    by exists k, item.
  - intros (k & item & Hk). exists (item, i). split; [done|].
    by eapply list_elem_of_lookup_2.
Qed.

Lemma calls_indices (q : list (CaptionRow * nat)) :
  originalIndex <$> (callOf <$> q) = q.*2.
Proof. rewrite <- list_fmap_compose. by apply list_fmap_ext. Qed.

(** A run in which a guard of [startProcessing] has failed makes no call
    and leaves the list as it is. *)
Lemma run_no_workers_rows es : ∀ r r',
  workers r = [] → run r es = Some r' →
  calls r' = calls r ∧ data (st r') = data (st r).
Proof.
  induction es as [|e es IH]; intros r r' Hw H; simpl in H.
  - by injection H as <-.
  - destruct e as [w net|]; simpl in H.
    + unfold resume in H. rewrite Hw in H. simpl in H. done.
    + apply IH in H; [|done]. done.
Qed.

Lemma closed_run_keyless a es r :
  truthy (apiKey a) = false →
  run (startProcessing a) es = Some r →
  calls r = [] ∧ data (st r) = data a.
Proof.
  intros Hk Hrun. unfold startProcessing in Hrun. rewrite Hk in Hrun.
  simpl in Hrun. by apply run_no_workers_rows in Hrun.
Qed.

(** The rows that are not queued are not written, and no call is made for
    them. *)
Lemma closed_run_others a es r i row :
  run (startProcessing a) es = Some r →
  data a !! i = Some row → eligible row = false →
  data (st r) !! i = Some row ∧ i ∉ (originalIndex <$> calls r).
Proof.
  intros Hrun Hi He.
  destruct (truthy (apiKey a)) eqn:Hk.
  2:{ apply closed_run_keyless in Hrun as [-> ->]; [|done].
      split; [done|]. apply not_elem_of_nil. }
  destruct (decide (data a = [])) as [Hd|Hd].
  { by rewrite Hd in Hi. }
  assert (Hr : Reach a r).
  { eapply Reach_run; [|exact Hrun]. by apply Reach_start. }
  assert (Hq : i ∉ (queue a).*2).
  { intros Hin. apply queue_member in Hin as (k & item & Hq).
    apply queue_from_data in Hq as [Hq He']. congruence. }
  split.
  - by rewrite (inv_others _ _ _ _ (proj1 Hr)).
  - rewrite (inv_calls _ _ _ _ (proj1 Hr)), calls_indices.
    intros Hin. apply Hq.
    apply list_elem_of_fmap in Hin as (p & -> & Hp).
    apply list_elem_of_fmap. exists p. split; [done|].
    apply list_elem_of_lookup in Hp as [k Hp].
    apply lookup_take_Some in Hp as [Hp _].
    by eapply list_elem_of_lookup_2.
Qed.

(** With an API key, a run that is not stopped and has ended has called
    [rewriteCaption] once for each row that was pending or in error, and
    for no other row; every row that was called for is completed or in
    error, and a row in processing is one that was in processing at the
    start. *)
Lemma closed_run_calls_each_row_once a es r :
  truthy (apiKey a) = true →
  noStop es →
  run (startProcessing a) es = Some r → finished r = true →
  length (calls r) = length (filter (fun item => eligible item) (data a)) ∧
  NoDup (originalIndex <$> calls r) ∧
  (∀ i, i ∈ (originalIndex <$> calls r) ↔
        ∃ item, data a !! i = Some item ∧ eligible item = true) ∧
  (∀ i row, data (st r) !! i = Some row → status row = Status.processing →
        data a !! i = Some row) ∧
  (∀ c, c ∈ calls r →
        ∃ row, data (st r) !! originalIndex c = Some row ∧
               (status row = Status.completed ∨ status row = Status.error)).
Proof.
  intros Hk Hn Hrun Hf.
  destruct (decide (data a = [])) as [Hd|Hd].
  - rewrite startProcessing_idle in Hrun by auto.
    apply run_idle in Hrun as ->; [|done]. simpl. rewrite Hd.
    split_and!; try done.
    + apply NoDup_nil_2.
    + intros i. split; [intros Hi; by apply elem_of_nil in Hi|].
      intros (item & Hi & _). by rewrite lookup_nil in Hi.
    + intros c Hc. by apply elem_of_nil in Hc.
  - assert (Hr : Reach a r).
    { eapply Reach_run; [|exact Hrun]. by apply Reach_start. }
    assert (Hs : stopProcessingRef (st r) = false).
    { rewrite (run_flag _ _ _ Hn Hrun). by apply start_flag. }
    assert (Hw : workers r ≠ []).
    { intros Hnil. pose proof (run_workers _ _ _ Hrun) as Hl.
      rewrite start_workers, Hnil in Hl by done. done. }
    pose proof (finished_index _ _ Hr Hs Hf Hw) as Hx.
    destruct (finished_rows _ _ Hr Hf) as [Hq Ho].
    assert (Hc : calls r = callOf <$> queue a).
    { rewrite (inv_calls _ _ _ _ (proj1 Hr)), Hx. by rewrite firstn_all. }
    rewrite Hc, calls_indices.
    split_and!.
    + by rewrite length_fmap, queue_length.
    + apply queue_NoDup.
    + intros i. rewrite queue_member. split.
      * intros (k & item & Hki). exists item. by eapply queue_from_data.
      * intros (item & Hi & He).
        destruct (queue_complete _ _ _ Hi He) as [k Hki]. eauto.
    + intros i row Hi Hst.
      destruct (decide (i ∈ (queue a).*2)) as [Hin|Hin].
      * exfalso. apply queue_member in Hin as (k & item & Hki).
        destruct (proj1 (Hq _ _ _ Hki)) as (row' & Hrow & Hset).
        { rewrite Hx. by eapply lookup_lt_Some. }
        assert (row' = row) as -> by congruence.
        apply settledRow_terminal in Hset. by rewrite Hst in Hset.
      * by rewrite (Ho _ Hin) in Hi.
    + intros c Hin. apply list_elem_of_fmap in Hin as ([item i] & -> & Hin).
      apply list_elem_of_lookup in Hin as [k Hki].
      destruct (proj1 (Hq _ _ _ Hki)) as (row & Hrow & Hset).
      { rewrite Hx. by eapply lookup_lt_Some. }
      exists row. split; [done|].
      apply settledRow_terminal in Hset. unfold terminal in Hset.
      by destruct (status row); [| |left|right].
Qed.

(** *** Stopping *)

Lemma settledRow_status a item row :
  settledRow a item row →
  status row = Status.completed ∨ status row = Status.error.
Proof.
  intros H. apply settledRow_terminal in H. unfold terminal in H.
  by destruct (status row); [| |left|right].
Qed.

Lemma queue_status a k item i :
  queue a !! k = Some (item, i) →
  status item = Status.pending ∨ status item = Status.error.
Proof.
  intros H. apply queue_from_data in H as [_ H]. unfold eligible in H.
  by destruct (status item); [left| | |right].
Qed.

Lemma run_app es1 : ∀ es2 r,
  run r (es1 ++ es2) = run r es1 ≫= fun r1 => run r1 es2.
Proof.
  induction es1 as [|e es1 IH]; intros es2 r; simpl; [done|].
  destruct (step r e) as [r1|]; simpl; [apply IH|done].
Qed.



(** *** The order of the statuses *)

Lemma phase_cases r k :
  (phase r k = 0 ∧ index r ≤ k) ∨
  (phase r k = 1 ∧ k < index r ∧ waiting r k) ∨
  (phase r k = 2 ∧ k < index r ∧ ¬ waiting r k).
Proof.
  unfold phase. destruct (decide (index r ≤ k)); [by left|].
  destruct (decide (waiting r k)); [right; left|right; right];
    split_and!; try done; lia.
Qed.

(** What one event changes: at most one position leaves the workers, at
    most the position under the cursor is claimed, and the rows of the
    other positions stay. *)
Lemma step_effect a r e r' :
  Reach a r → step r e = Some r' →
  ∃ fin cl : option nat,
    index r' = match cl with Some _ => S (index r) | None => index r end ∧
    (cl = None ∨ cl = Some (index r)) ∧
    (∀ k, fin = Some k → waiting r k) ∧
    (∀ k, waiting r' k ↔ (waiting r k ∧ fin ≠ Some k) ∨ cl = Some k) ∧
    (∀ k item i, queue a !! k = Some (item, i) →
       fin ≠ Some k → cl ≠ Some k →
       data (st r') !! i = data (st r) !! i).
Proof.
  intros [Hi Hd] Hstep. destruct e as [w net|]; simpl in Hstep.
  - apply resume_cases in Hstep
      as (k0 & item0 & i0 & Hw & Hk0 & Hcase).
    rewrite (inv_items _ _ _ _ Hi) in Hk0.
    assert (Hwk : waiting r k0) by (by eapply list_elem_of_lookup_2).
    destruct Hcase as [[-> _]|(item' & i' & Hq & _ & ->)].
    + exists (Some k0), None.
      destruct (settle_fields (place (<[w:=Returned]> (workers r))
                                 (written r item0 i0 net)))
        as (_ & -> & _ & ->).
      unfold waiting. rewrite settle_workers. simpl.
      split_and!; [done|by left|by intros ? [= <-]| |].
      * intros k. rewrite (waiting_insert _ _ _ _ _ Hd Hw).
        intuition congruence.
      * intros k item i Hki Hne _. apply replaceAt_lookup_ne.
        intros <-. apply Hne. f_equal. by eapply queue_position.
    + exists (Some k0), (Some (index r)).
      destruct (settle_fields (place (<[w:=Waiting (index r)]> (workers r))
                                 (claim (written r item0 i0 net) item' i')))
        as (_ & -> & _ & ->).
      unfold waiting. rewrite settle_workers. simpl in *.
      rewrite (inv_items _ _ _ _ Hi) in Hq.
      split_and!; [done|by right|by intros ? [= <-]| |].
      * intros k. rewrite (waiting_insert _ _ _ _ _ Hd Hw).
        intuition congruence.
      * intros k item i Hki Hne Hne'.
        rewrite !replaceAt_lookup_ne; [done| |].
        -- intros <-. apply Hne. f_equal. by eapply queue_position.
        -- intros <-. apply Hne'. f_equal. by eapply queue_position.
  - injection Hstep as <-. exists None, None. simpl.
    split_and!; [done|by left|done| |done].
    intros k. unfold waiting. simpl. intuition congruence.
Qed.

Lemma step_phase a r e r' k item i :
  Reach a r → step r e = Some r' → queue a !! k = Some (item, i) →
  phase r k ≤ phase r' k ∧ phase r' k ≤ S (phase r k) ∧
  (phase r' k = phase r k → data (st r') !! i = data (st r) !! i).
Proof.
  intros Hr Hstep Hq.
  destruct (step_effect _ _ _ _ Hr Hstep) as (fin & cl & Hx & Hcl & Hfin & Hw & Hrow).
  pose proof (inv_claimed _ _ _ _ (proj1 Hr) k) as Hbelow.
  specialize (Hw k). specialize (Hrow _ _ _ Hq).
  assert (Hxk : index r ≤ index r') by (rewrite Hx; destruct cl; lia).
  destruct (decide (fin = Some k)) as [Hf|Hf].
  { (* the call of this position settles *)
    pose proof (Hfin _ Hf) as Hwk. specialize (Hbelow Hwk).
    assert (Hn : ¬ waiting r' k).
    { rewrite Hw. intros [[_ ?]|Hc]; [done|].
      destruct Hcl as [-> | ->]; [done|]. injection Hc as Hc. lia. }
    destruct (phase_cases r k) as [[-> ?]|[(-> & _ & _)|(-> & _ & ?)]];
      [lia| |done].
    destruct (phase_cases r' k) as [[-> ?]|[(-> & _ & ?)|(-> & _ & _)]];
      [lia|done|lia]. }
  destruct (decide (cl = Some k)) as [Hc|Hc].
  { (* this position is claimed *)
    assert (k = index r) as -> by (destruct Hcl as [-> | ->]; congruence).
    assert (Hwk : waiting r' (index r)) by (apply Hw; by right).
    rewrite Hc in Hx.
    destruct (phase_cases r (index r)) as [[-> ?]|[(-> & ? & _)|(-> & ? & _)]];
      [|lia|lia].
    destruct (phase_cases r' (index r))
      as [[-> ?]|[(-> & _ & _)|(-> & _ & ?)]]; [lia|lia|done]. }
  (* another position *)
  assert (Hsame : waiting r' k ↔ waiting r k) by tauto.
  assert (Hik : index r' ≤ k ↔ index r ≤ k).
  { rewrite Hx. destruct Hcl as [-> | ->]; [done|].
    assert (k ≠ index r) by congruence. lia. }
  destruct (phase_cases r k) as [[-> ?]|[(-> & ? & ?)|(-> & ? & ?)]];
    destruct (phase_cases r' k) as [[-> ?]|[(-> & ? & ?)|(-> & ? & ?)]];
    split_and!; try lia; try tauto; intros _; by apply Hrow.
Qed.

Lemma run_phase a es : ∀ r r' k item i,
  Reach a r → run r es = Some r' → queue a !! k = Some (item, i) →
  phase r k ≤ phase r' k ∧
  (length es ≤ 1 → phase r' k ≤ S (phase r k)) ∧
  (phase r' k = phase r k → data (st r') !! i = data (st r) !! i).
Proof.
  induction es as [|e es IH]; intros r r' k item i Hr Hrun Hq; simpl in Hrun.
  - injection Hrun as <-. split_and!; auto.
  - destruct (step r e) as [r1|] eqn:Hstep; [|done]. simpl in Hrun.
    destruct (step_phase _ _ _ _ _ _ _ Hr Hstep Hq) as (Ha & Hb & Hc).
    destruct (IH _ _ _ _ _ (Reach_step _ _ _ _ Hr Hstep) Hrun Hq)
      as (Ha' & _ & Hc').
    split_and!; [lia| |].
    + intros Hl. simpl in Hl. destruct es; [|simpl in Hl; lia].
      simpl in Hrun. injection Hrun as <-. done.
    + intros He. rewrite Hc' by lia. apply Hc. lia.
Qed.

(** In a run, the row of every queued entry goes through three phases
    in order and never back: as it was at the start (pending or in
    error), then marked as processing, then holding the outcome of its
    call (completed or in error). An event moves it by one phase at most,
    a row that stays in its phase is not written, and a row that was not
    pending or in error at the start is never written. *)
Lemma closed_run_phases a es es' r r' :
  truthy (apiKey a) = true →
  run (startProcessing a) es = Some r → run r es' = Some r' →
  (∀ k item i, queue a !! k = Some (item, i) →
     phase r k ≤ phase r' k ∧
     (length es' ≤ 1 → phase r' k ≤ S (phase r k)) ∧
     (phase r' k = phase r k → data (st r') !! i = data (st r) !! i) ∧
     ∃ row, data (st r') !! i = Some row ∧
       match phase r' k with
       | 0 => row = item ∧
              (status row = Status.pending ∨ status row = Status.error)
       | 1 => row = markProcessing item ∧ status row = Status.processing
       | _ => settledRow a item row ∧
              (status row = Status.completed ∨ status row = Status.error)
       end) ∧
  (∀ i row, data a !! i = Some row → eligible row = false →
     data (st r') !! i = Some row).
Proof.
  intros Hk Hrun Hrun'.
  destruct (decide (data a = [])) as [Hd|Hd].
  { split.
    - intros k item i Hq. unfold queue in Hq. rewrite Hd in Hq.
      simpl in Hq. done.
    - intros i row Hi. rewrite Hd in Hi. by rewrite lookup_nil in Hi. }
  assert (Hr : Reach a r).
  { eapply Reach_run; [|exact Hrun]. by apply Reach_start. }
  assert (Hr' : Reach a r') by (by eapply Reach_run).
  split.
  - intros k item i Hq.
    destruct (run_phase _ _ _ _ _ _ _ Hr Hrun' Hq) as (Ha & Hb & Hc).
    split_and!; [done..|].
    destruct (inv_rows _ _ _ _ (proj1 Hr') _ _ _ Hq) as (H0 & H1 & H2).
    destruct (phase_cases r' k) as [[-> ?]|[(-> & ? & ?)|(-> & ? & ?)]].
    + exists item. split; [auto|]. split; [done|]. by eapply queue_status.
    + eexists. split; [by apply H1|done].
    + destruct H2 as (row & Hrow & Hset); [done..|].
      exists row. split_and!; [done..|]. by eapply settledRow_status.
  - intros i row Hi He.
    rewrite (inv_others _ _ _ _ (proj1 Hr')); [done|].
    intros Hin. apply queue_member in Hin as (k & item & Hq).
    apply queue_from_data in Hq as [Hq He']. congruence.
Qed.

End Run.

End BatchProps.

(* ================================================================= *)
(** ** The batch among the other handlers *)

(** A run of the component in which, after the start button, only
    replies and the stop button occur is a run of [App]; the properties
    of a run are stated for such runs. What the other handlers do to a
    run is shown on examples. *)

Module LiveProps.
Import Live LiveSpec.

(** *** References *)

Lemma object_valid l r : valid l r → heap l !! r = Some (object l r).
Proof.
  intros H. unfold object. destruct (heap l !! r) eqn:E; [done|].
  apply lookup_ge_None in E. unfold valid in H. lia.
Qed.

Lemma object_Some l r o : heap l !! r = Some o → object l r = o.
Proof. intros H. unfold object. by rewrite H. Qed.

Lemma shown_length l : length (shown l) = length (data l).
Proof. unfold shown. by rewrite length_fmap. Qed.

Lemma shown_lookup l i : shown l !! i = object l <$> data l !! i.
Proof. unfold shown. by rewrite list_lookup_fmap. Qed.

Lemma object_grow l (d : list nat) r x :
  valid l r → object (setRows (heap l ++ [x]) d l) r = object l r.
Proof.
  intros H. unfold object. simpl. by rewrite lookup_app_l.
Qed.

Lemma replaceAt_Some i f l l1 :
  replaceAt i f l = Some l1 →
  ∃ r old, data l !! i = Some r ∧ heap l !! r = Some old ∧
    l1 = setRows (heap l ++ [f old]) (<[i := length (heap l)]> (data l)) l.
Proof.
  unfold replaceAt, row. intros H.
  destruct (data l !! i) as [r|] eqn:Hr; [|done]. simpl in H.
  destruct (heap l !! r) as [old|] eqn:Ho; [|done]. simpl in H.
  injection H as <-. eauto.
Qed.

Lemma replaceAt_shown i f l l1 :
  Forall (valid l) (data l) → replaceAt i f l = Some l1 →
  shown l1 = App.replaceAt i f (shown l).
Proof.
  intros Hv H. apply replaceAt_Some in H as (r & old & Hr & Ho & ->).
  unfold App.replaceAt. rewrite shown_lookup, Hr. simpl.
  rewrite (object_Some _ _ _ Ho). unfold shown. simpl.
  rewrite list_fmap_insert. f_equal.
  - unfold object. simpl. by rewrite lookup_app_r, Nat.sub_diag by lia.
  - apply Forall_fmap_ext_1. eapply list.Forall_impl; [exact Hv|].
    intros r' Hr'. by apply object_grow.
Qed.


Lemma Sound_replaceAt i f l l1 :
  Sound l → replaceAt i f l = Some l1 →
  Sound l1 ∧ length (data l1) = length (data l) ∧
  heap l1 = heap l ++ [f (default noRow (row l i))] ∧
  invocations l1 = invocations l ∧ uploads l1 = uploads l ∧
  calls l1 = calls l ∧ settings l1 = settings l ∧
  isProcessing l1 = isProcessing l ∧
  stopProcessingRef l1 = stopProcessingRef l ∧
  processingStats l1 = processingStats l ∧ uploadMode l1 = uploadMode l.
Proof.
  intros [Hd Hq Hw Hu] H.
  pose proof H as H'. apply replaceAt_Some in H' as (r & old & Hr & Ho & ->).
  split_and!; try done.
  - split; simpl.
    + apply Forall_insert.
      * eapply list.Forall_impl; [exact Hd|]. unfold valid. simpl.
        intros ?. rewrite length_app. lia.
      * unfold valid. simpl. rewrite length_app. simpl. lia.
    + intros c p Hc Hp. destruct (Hq c p Hc Hp) as [H1 H2].
      unfold valid in *. simpl. rewrite length_app, length_insert. lia.
    + exact Hw.
    + intros u Hin. destruct (Hu u Hin) as [H1 H2].
      rewrite length_insert. split; [done|].
      eapply list.Forall_impl; [exact H2|]. unfold valid. simpl.
      intros ?. rewrite length_app. lia.
  - simpl. by rewrite length_insert.
  - simpl. unfold row. rewrite Hr. simpl. by rewrite Ho.
Qed.

Lemma forget_finished (ws : list Worker) :
  forallb App.isReturned (forget <$> ws) = forallb isReturned ws.
Proof.
  induction ws as [|w ws IH]; [done|]. csimpl. rewrite IH. by destruct w.
Qed.

(** The run that a state shows after a row has been replaced. *)
Lemma view_replaceAt i f l l1 :
  Sound l → length (invocations l) ≤ 1 → replaceAt i f l = Some l1 →
  view l1 = App.withSt (App.setData (App.replaceAt i f)) (view l).
Proof.
  intros Hs Hone H.
  pose proof (replaceAt_shown i f l l1 (sound_data _ Hs) H) as Hshown.
  destruct (Sound_replaceAt _ _ _ _ Hs H)
    as (_ & _ & Hh & Hi & _ & Hc & Hset & Hp & Hst & Hps & _).
  unfold view, App.withSt, App.setData. simpl.
  rewrite Hi, Hc, Hset, Hp, Hst, Hps, Hshown. f_equal.
  destruct (invocations l) as [|c cs] eqn:E; simpl; [done|].
  apply Forall_fmap_ext_1, list.Forall_forall. intros p Hp'.
  f_equal. unfold object. rewrite Hh.
  assert (valid l p.1) as Hv.
  { apply (sound_queues _ Hs c p); [rewrite E; apply elem_of_cons; by left|done]. }
  by rewrite lookup_app_l.
Qed.


Lemma items_grow l l1 (items : list (nat * nat)) :
  (∀ p, p ∈ items → valid l p.1) →
  (∀ r, valid l r → object l1 r = object l r) →
  (fun p => (object l1 p.1, p.2)) <$> items
  = (fun p => (object l p.1, p.2)) <$> items.
Proof.
  intros Hv Ho. apply Forall_fmap_ext_1, list.Forall_forall.
  intros p Hp. f_equal. apply Ho, Hv, Hp.
Qed.

Lemma replaceAt_object i f l l1 r :
  replaceAt i f l = Some l1 → valid l r → object l1 r = object l r.
Proof.
  intros H Hv. apply replaceAt_Some in H as (r' & old & _ & _ & ->).
  by apply object_grow.
Qed.

(** The invocation is replaced by one with the same queue. *)
Lemma Quiet_invocation l c c' :
  Quiet l c →
  captured c' = captured c → itemsToProcess c' = itemsToProcess c →
  (∀ k input, Waiting k input ∈ workers c' →
     ∃ p, itemsToProcess c !! k = Some p ∧ input = App.inputOf (object l p.1)) →
  Quiet (setInvocations [c'] l) c'.
Proof.
  intros [[Hd Hq Hw Hu] Hup Hone Hset Hin] Hc Hi Hws.
  split; simpl; try done.
  - split; simpl; try done.
    + intros c0 p Hc0 Hp. apply list_elem_of_singleton in Hc0 as ->.
      rewrite Hi in Hp. apply (Hq c p); [|done].
      rewrite Hone. by apply list_elem_of_singleton.
    + intros c0 k input Hc0 Hk. apply list_elem_of_singleton in Hc0 as ->.
      destruct (Hws k input Hk) as (p & Hp & _). rewrite Hi.
      by eapply lookup_lt_Some.
  - by rewrite Hc.
  - intros k input Hk. rewrite Hi. by apply Hws.
Qed.

(** The state is replaced by one with a larger heap. *)
Lemma Quiet_replaceAt i f l l1 c :
  Quiet l c → replaceAt i f l = Some l1 → Quiet l1 c.
Proof.
  intros [Hs Hup Hone Hset Hin] H.
  destruct (Sound_replaceAt _ _ _ _ Hs H)
    as (Hs1 & _ & _ & Hi & Hu & _ & Hse & _).
  split; try done; try congruence.
  intros k input Hk. destruct (Hin k input Hk) as (p & Hp & ->).
  exists p. split; [done|]. f_equal. symmetry.
  eapply replaceAt_object; [exact H|].
  apply (sound_queues _ Hs c p).
  - rewrite Hone. by apply list_elem_of_singleton.
  - by eapply list_elem_of_lookup_2.
Qed.

Lemma view_items l c :
  invocations l = [c] →
  App.itemsToProcess (view l)
  = (fun p => (object l p.1, p.2)) <$> itemsToProcess c ∧
  App.index (view l) = index c ∧
  App.workers (view l) = forget <$> workers c.
Proof. intros H. unfold view. rewrite H. done. Qed.

Lemma view_claimed l c call :
  invocations l = [c] →
  view (logCall call (setInvocations (<[0 := claimed c]> (invocations l)) l))
  = {| App.st := App.st (view l);
       App.itemsToProcess := App.itemsToProcess (view l);
       App.index := S (App.index (view l));
       App.workers := App.workers (view l);
       App.calls := App.calls (view l) ++ [call] |}.
Proof. intros H. unfold view. simpl. rewrite H. done. Qed.

Lemma worker_loop_view l c l' w' :
  Quiet l c → worker_loop 0 l = Some (l', w') →
  App.worker_loop (view l) = (view l', forget w') ∧
  ∃ c', Quiet l' c' ∧ workers c' = workers c ∧
    (∀ k input, w' = Waiting k input →
       ∃ p, itemsToProcess c' !! k = Some p ∧
            input = App.inputOf (object l' p.1)).
Proof.
  intros Hq H. pose proof Hq as [Hs Hup Hone Hset Hin].
  destruct (view_items l c Hone) as (Hvi & Hvx & Hvw).
  unfold worker_loop in H. rewrite Hone in H. simpl in H.
  unfold App.worker_loop. rewrite Hvi, Hvx, length_fmap, list_lookup_fmap.
  destruct (index c <? length (itemsToProcess c))%nat eqn:Hlt.
  2:{ injection H as <- <-. split; [done|]. exists c. split_and!; try done. }
  replace (App.stopProcessingRef (App.st (view l)))
    with (stopProcessingRef l) by done.
  destruct (stopProcessingRef l) eqn:Hstop.
  { injection H as <- <-. split; [done|]. exists c. split_and!; try done. }
  destruct (itemsToProcess c !! index c) as [[item oi]|] eqn:Hitem; simpl.
  2:{ injection H as <- <-. split.
      - unfold view. simpl. rewrite Hone. done.
      - exists (claimed c). split_and!; try done.
        apply (Quiet_invocation l c (claimed c) Hq);
          first [done | intros k input Hk; by apply Hin]. }
  destruct (replaceAt oi App.markProcessing l) as [l1|] eqn:Hrep;
    [|done]. simpl in H.
  destruct (heap l1 !! item) as [obj|] eqn:Hobj; [|done]. simpl in H.
  injection H as <- <-.
  pose proof (Quiet_replaceAt _ _ _ _ _ Hq Hrep) as Hq1.
  destruct (Sound_replaceAt _ _ _ _ Hs Hrep)
    as (Hs1 & _ & Hh & Hi & Hu & Hc & Hse & Hp & Hst & Hps & Hm).
  assert (Hvalid : valid l item).
  { apply (sound_queues _ Hs c (item, oi)).
    - rewrite Hone. by apply list_elem_of_singleton.
    - by eapply list_elem_of_lookup_2. }
  assert (Hobj' : obj = object l item).
  { rewrite <- (replaceAt_object _ _ _ _ _ Hrep Hvalid).
    symmetry. by apply object_Some. }
  split.
  - rewrite Hobj'.
    rewrite (view_claimed l1 c _ (eq_trans Hi Hone)).
    rewrite (view_replaceAt oi App.markProcessing l l1 Hs); [|by rewrite Hone|done].
    unfold App.withSt. simpl. rewrite Hone. done.
  - exists (claimed c).
    assert (Hq2 : Quiet (setInvocations [claimed c] l1) (claimed c)).
    { apply (Quiet_invocation l1 c (claimed c) Hq1);
        first [done | intros k input Hk; by apply (quiet_inputs _ _ Hq1)]. }
    split_and!; try done.
    + rewrite Hi, Hone. simpl.
      destruct Hq2 as [[Hd2 Hqq2 Hw2 Hu2] Hup2 Hone2 Hset2 Hin2].
      split; try done.
    + intros k input [= <- <-]. exists (item, oi). split; [done|].
      rewrite Hobj'. f_equal. unfold object. simpl.
      change (default noRow (heap l1 !! item)) with (object l1 item).
      symmetry. by eapply replaceAt_object.
Qed.


Lemma Quiet_place l c (ws : list Worker) :
  Quiet l c →
  (∀ k input, Waiting k input ∈ ws →
     ∃ p, itemsToProcess c !! k = Some p ∧ input = App.inputOf (object l p.1)) →
  Quiet (setInvocations [withWorkers ws c] l) (withWorkers ws c).
Proof.
  intros Hq Hws. by apply (Quiet_invocation l c (withWorkers ws c) Hq).
Qed.

Lemma Quiet_flags l c (l' : State) :
  Quiet l c →
  heap l' = heap l → data l' = data l → invocations l' = invocations l →
  uploads l' = uploads l → settings l' = settings l →
  Quiet l' c.
Proof.
  intros [[Hd Hq Hw Hu] Hup Hone Hset Hin] Hh Hda Hi Hu' Hs.
  split; try congruence.
  - split; unfold valid; rewrite ?Hh, ?Hda, ?Hi, ?Hu'; done.
  - intros k input Hk. destruct (Hin k input Hk) as (p & Hp & ->).
    exists p. split; [done|]. unfold object. by rewrite Hh.
Qed.

(** *** No reference dangles, and no write falls outside the list *)

Lemma elem_of_insert_inv {A} (l : list A) i x y :
  y ∈ <[i := x]> l → y = x ∨ y ∈ l.
Proof.
  intros H. apply list_elem_of_lookup in H as [j Hj].
  apply list_lookup_insert_Some in Hj as [(-> & -> & _)|[_ Hj]]; [by left|].
  right. by eapply list_elem_of_lookup_2.
Qed.

(** The invocation [ci] is replaced by one with the same queue, whose
    workers hold positions of the queue. *)
Lemma Sound_invocation l ci c c' :
  Sound l → invocations l !! ci = Some c →
  itemsToProcess c' = itemsToProcess c →
  (∀ k input, Waiting k input ∈ workers c' → k < length (itemsToProcess c)) →
  Sound (setInvocations (<[ci := c']> (invocations l)) l).
Proof.
  intros [Hd Hq Hw Hu] Hc Hi Hws. split; simpl; try done.
  - intros c0 p Hc0 Hp. apply elem_of_insert_inv in Hc0 as [->|Hc0].
    + rewrite Hi in Hp. apply (Hq c p); [|done].
      by eapply list_elem_of_lookup_2.
    + by apply (Hq c0 p).
  - intros c0 k input Hc0 Hk. apply elem_of_insert_inv in Hc0 as [->|Hc0].
    + rewrite Hi. by eapply Hws.
    + by eapply Hw.
Qed.

Lemma Sound_flags l (l' : State) :
  Sound l →
  heap l' = heap l → data l' = data l → invocations l' = invocations l →
  uploads l' = uploads l →
  Sound l'.
Proof.
  intros [Hd Hq Hw Hu] Hh Hda Hi Hu'.
  split; unfold valid; rewrite ?Hh, ?Hda, ?Hi, ?Hu'; done.
Qed.

Lemma replaceAt_defined i f l :
  Sound l → i < length (data l) → is_Some (replaceAt i f l).
Proof.
  intros Hs Hi. unfold replaceAt, row.
  destruct (lookup_lt_is_Some_2 _ _ Hi) as [r Hr]. rewrite Hr. simpl.
  assert (Hv : valid l r).
  { apply (proj1 (list.Forall_forall _ _) (sound_data _ Hs)).
    by eapply list_elem_of_lookup_2. }
  rewrite (object_valid _ _ Hv). simpl. eauto.
Qed.

(** What a turn of the loop of a worker leaves. *)
Lemma Sound_worker_loop ci l l' w :
  Sound l → worker_loop ci l = Some (l', w) →
  Sound l' ∧ length (data l') = length (data l) ∧ uploads l' = uploads l ∧
  length (invocations l') = length (invocations l) ∧
  ∃ c c', invocations l !! ci = Some c ∧ invocations l' !! ci = Some c' ∧
    itemsToProcess c' = itemsToProcess c ∧ workers c' = workers c ∧
    match w with
    | Waiting k _ => k < length (itemsToProcess c)
    | Returned => True
    end.
Proof.
  intros Hs H. unfold worker_loop in H.
  destruct (invocations l !! ci) as [c|] eqn:Hc; [|done]. simpl in H.
  destruct (index c <? length (itemsToProcess c))%nat eqn:Hlt.
  2:{ injection H as <- <-. split_and!; try done. by exists c, c. }
  destruct (stopProcessingRef l).
  { injection H as <- <-. split_and!; try done. by exists c, c. }
  assert (Hci : ci < length (invocations l)) by (by eapply lookup_lt_Some).
  assert (Hkeep : ∀ k input, Waiting k input ∈ workers (claimed c) →
            k < length (itemsToProcess c)).
  { intros k input Hk. apply (sound_workers _ Hs c k input); [|done].
    by eapply list_elem_of_lookup_2. }
  destruct (itemsToProcess c !! index c) as [[item oi]|] eqn:Hitem.
  2:{ injection H as <- <-. split_and!; try done.
      - by apply (Sound_invocation l ci c (claimed c)).
      - simpl. by rewrite length_insert.
      - exists c, (claimed c). split_and!; try done.
        simpl. by rewrite list_lookup_insert_eq. }
  destruct (replaceAt oi App.markProcessing l) as [l1|] eqn:Hrep; [|done].
  simpl in H.
  destruct (heap l1 !! item) as [obj|] eqn:Hobj; [|done]. simpl in H.
  injection H as <- <-.
  destruct (Sound_replaceAt _ _ _ _ Hs Hrep)
    as (Hs1 & Hlen & _ & Hi & Hu & _).
  rewrite <- Hi in Hc.
  split_and!; try done.
  - apply (Sound_flags (setInvocations (<[ci:=claimed c]> (invocations l1)) l1));
      [|done..].
    by apply (Sound_invocation l1 ci c (claimed c)).
  - simpl. rewrite length_insert. by rewrite Hi.
  - exists c, (claimed c). split_and!; try done.
    + simpl. rewrite list_lookup_insert_eq; [done|]. by eapply lookup_lt_Some.
    + by apply Nat.ltb_lt.
Qed.

Lemma worker_loop_defined ci l :
  Sound l → ci < length (invocations l) → is_Some (worker_loop ci l).
Proof.
  intros Hs Hci. unfold worker_loop.
  destruct (lookup_lt_is_Some_2 _ _ Hci) as [c Hc]. rewrite Hc. simpl.
  destruct (index c <? length (itemsToProcess c))%nat; [|eauto].
  destruct (stopProcessingRef l); [eauto|].
  destruct (itemsToProcess c !! index c) as [[item oi]|] eqn:Hitem; [|eauto].
  destruct (sound_queues _ Hs c (item, oi)) as [Hv Hoi];
    [by eapply list_elem_of_lookup_2..|]. simpl in *.
  destruct (replaceAt_defined oi App.markProcessing l Hs Hoi) as [l1 Hrep].
  rewrite Hrep. simpl.
  destruct (Sound_replaceAt _ _ _ _ Hs Hrep) as (_ & _ & Hh & _).
  assert (Hv1 : valid l1 item).
  { unfold valid in *. rewrite Hh, length_app. lia. }
  rewrite (object_valid _ _ Hv1). simpl. eauto.
Qed.

Lemma Sound_place ci l c (ws : list Worker) :
  Sound l → invocations l !! ci = Some c →
  (∀ k input, Waiting k input ∈ ws → k < length (itemsToProcess c)) →
  Sound (setInvocations (<[ci := withWorkers ws c]> (invocations l)) l).
Proof. intros Hs Hc Hws. by apply (Sound_invocation l ci c). Qed.

Lemma Sound_spawn ci l l' :
  Sound l → spawn ci l = Some l' →
  Sound l' ∧ length (data l') = length (data l) ∧ uploads l' = uploads l ∧
  length (invocations l') = length (invocations l).
Proof.
  intros Hs H. unfold spawn, worker in H.
  assert (Hgo : ∀ l1 w, Sound l1 →
            length (data l1) = length (data l) → uploads l1 = uploads l →
            length (invocations l1) = length (invocations l) →
            match w with
            | Waiting k _ =>
                ∀ c, invocations l1 !! ci = Some c →
                     k < length (itemsToProcess c)
            | Returned => True
            end →
            (c ← invocations l1 !! ci;
             Some (setInvocations
                     (<[ci := withWorkers (workers c ++ [w]) c]>
                        (invocations l1)) l1)) = Some l' →
            Sound l' ∧ length (data l') = length (data l) ∧
            uploads l' = uploads l ∧
            length (invocations l') = length (invocations l)).
  { intros l1 w Hs1 Hd1 Hu1 Hi1 Hw H1.
    destruct (invocations l1 !! ci) as [c|] eqn:Hc; [|done]. simpl in H1.
    injection H1 as <-. split_and!; try done.
    - apply (Sound_place ci l1 c); [done..|].
      intros k input Hin. apply elem_of_app in Hin as [Hin|Hin].
      + apply (sound_workers _ Hs1 c k input); [|done].
        by eapply list_elem_of_lookup_2.
      + apply list_elem_of_singleton in Hin as <-. by apply Hw.
    - simpl. by rewrite length_insert. }
  destruct (stopProcessingRef l).
  - simpl in H. by apply (Hgo l Returned).
  - destruct (worker_loop ci l) as [[l1 w]|] eqn:Hloop; [|done]. simpl in H.
    destruct (Sound_worker_loop _ _ _ _ Hs Hloop)
      as (Hs1 & Hd1 & Hu1 & Hi1 & c & c' & Hc & Hc' & Hit & _ & Hw).
    apply (Hgo l1 w); try done.
    destruct w as [k input|]; [|done].
    intros c0 Hc0. assert (c0 = c') as -> by congruence. by rewrite Hit.
Qed.

Lemma spawn_defined ci l :
  Sound l → ci < length (invocations l) → is_Some (spawn ci l).
Proof.
  intros Hs Hci. unfold spawn, worker.
  destruct (stopProcessingRef l).
  - simpl. destruct (lookup_lt_is_Some_2 _ _ Hci) as [c ->]. simpl. eauto.
  - destruct (worker_loop_defined ci l Hs Hci) as [[l1 w] Hloop].
    rewrite Hloop. simpl.
    destruct (Sound_worker_loop _ _ _ _ Hs Hloop)
      as (_ & _ & _ & _ & c & c' & _ & -> & _). simpl. eauto.
Qed.

Lemma Sound_settle ci l l' :
  Sound l → settle ci l = Some l' →
  Sound l' ∧ length (data l') = length (data l) ∧ uploads l' = uploads l ∧
  length (invocations l') = length (invocations l).
Proof.
  intros Hs H. unfold settle in H.
  destruct (invocations l !! ci) as [c|]; [|done]. simpl in H.
  injection H as <-. destruct (finished c); [|done].
  split_and!; try done. by apply (Sound_flags l).
Qed.

Lemma Sound_startProcessing l l' :
  Sound l → startProcessing l = Some l' →
  Sound l' ∧ length (data l') = length (data l).
Proof.
  intros Hs H. unfold startProcessing in H.
  destruct (negb (truthy (apiKey (settings l)))); [by injection H as <-|].
  destruct (length (data l) =? 0)%nat; [by injection H as <-|].
  set (l2 := setInvocations _ _) in H.
  assert (Hs2 : Sound l2).
  { destruct Hs as [Hd Hq Hw Hu]. split; simpl; try done.
    - intros c p Hc Hp. apply elem_of_app in Hc as [Hc|Hc];
        [by apply (Hq c p)|].
      apply list_elem_of_singleton in Hc as ->. simpl in Hp.
      apply list_elem_of_filter in Hp as [_ Hp].
      apply elem_of_lookup_imap in Hp as (i & r & -> & Hr). simpl. split.
      + apply (proj1 (list.Forall_forall _ _) Hd).
        by eapply list_elem_of_lookup_2.
      + by eapply lookup_lt_Some.
    - intros c k input Hc Hk. apply elem_of_app in Hc as [Hc|Hc];
        [by eapply Hw|].
      apply list_elem_of_singleton in Hc as ->. by apply elem_of_nil in Hk. }
  destruct (spawn _ l2) as [l3|] eqn:H3; [|done]. simpl in H.
  destruct (Sound_spawn _ _ _ Hs2 H3) as (Hs3 & Hd3 & _ & Hi3).
  destruct (spawn _ l3) as [l4|] eqn:H4; [|done]. simpl in H.
  destruct (Sound_spawn _ _ _ Hs3 H4) as (Hs4 & Hd4 & _ & Hi4).
  destruct (spawn _ l4) as [l5|] eqn:H5; [|done]. simpl in H.
  destruct (Sound_spawn _ _ _ Hs4 H5) as (Hs5 & Hd5 & _ & Hi5).
  destruct (Sound_settle _ _ _ Hs5 H) as (Hs6 & Hd6 & _).
  split; [done|]. rewrite Hd6, Hd5, Hd4, Hd3. done.
Qed.

Lemma startProcessing_defined l : Sound l → is_Some (startProcessing l).
Proof.
  intros Hs. unfold startProcessing.
  destruct (negb (truthy (apiKey (settings l)))); [eauto|].
  destruct (length (data l) =? 0)%nat; [eauto|].
  set (l2 := setInvocations _ _).
  assert (Hs2 : Sound l2).
  { destruct Hs as [Hd Hq Hw Hu]. split; simpl; try done.
    - intros c p Hc Hp. apply elem_of_app in Hc as [Hc|Hc];
        [by apply (Hq c p)|].
      apply list_elem_of_singleton in Hc as ->. simpl in Hp.
      apply list_elem_of_filter in Hp as [_ Hp].
      apply elem_of_lookup_imap in Hp as (i & r & -> & Hr). simpl. split.
      + apply (proj1 (list.Forall_forall _ _) Hd).
        by eapply list_elem_of_lookup_2.
      + by eapply lookup_lt_Some.
    - intros c k input Hc Hk. apply elem_of_app in Hc as [Hc|Hc];
        [by eapply Hw|].
      apply list_elem_of_singleton in Hc as ->. by apply elem_of_nil in Hk. }
  assert (Hci : length (invocations l) < length (invocations l2)).
  { unfold l2. simpl. rewrite length_app. simpl. lia. }
  destruct (spawn_defined _ l2 Hs2 Hci) as [l3 H3]. rewrite H3. simpl.
  destruct (Sound_spawn _ _ _ Hs2 H3) as (Hs3 & _ & _ & Hi3).
  destruct (spawn_defined (length (invocations l)) l3 Hs3) as [l4 H4];
    [lia|]. rewrite H4. simpl.
  destruct (Sound_spawn _ _ _ Hs3 H4) as (Hs4 & _ & _ & Hi4).
  destruct (spawn_defined (length (invocations l)) l4 Hs4) as [l5 H5];
    [lia|]. rewrite H5. simpl.
  destruct (Sound_spawn _ _ _ Hs4 H5) as (Hs5 & _ & _ & Hi5).
  unfold settle.
  destruct (lookup_lt_is_Some_2 (invocations l5) (length (invocations l)))
    as [c ->]; [lia|]. simpl. eauto.
Qed.

(** The uploads. *)
Lemma applyUpdates_length nd us h :
  length (applyUpdates nd us h) = length h.
Proof.
  unfold applyUpdates. revert h.
  induction us as [|u us IH]; intros h; simpl; [done|].
  rewrite IH. destruct (nd !! u.1); [|done]. by rewrite length_alter.
Qed.

Lemma Sound_proceed ui u i l :
  Sound l → ui < length (uploads l) →
  length (newData u) = length (data l) → Forall (valid l) (newData u) →
  Sound (proceed ui u i l) ∧
  length (data (proceed ui u i l)) = length (data l).
Proof.
  intros [Hd Hq Hw Hu] Hui Hlen Hv. unfold proceed.
  destruct (nextRead _ _ _ _) as [rd|].
  - split; [|done]. split; simpl; try done.
    intros u0 Hu0. apply elem_of_insert_inv in Hu0 as [->|Hu0]; [|by apply Hu].
    done.
  - split; [|done]. split; simpl.
    + eapply list.Forall_impl; [exact Hv|]. unfold valid. simpl.
      intros r. by rewrite applyUpdates_length.
    + intros c p Hc Hp. destruct (Hq c p Hc Hp) as [H1 H2].
      unfold valid in *. simpl. rewrite applyUpdates_length. lia.
    + exact Hw.
    + intros u0 Hu0. unfold valid. simpl.
      setoid_rewrite applyUpdates_length.
      apply elem_of_insert_inv in Hu0 as [->|Hu0]; [done|].
      destruct (Hu u0 Hu0) as [H1 H2]. split; [congruence|done].
Qed.

Section Simulation.
Context {C : Gemini.Constants}.

Lemma settle_view l c l' :
  invocations l = [c] → settle 0 l = Some l' →
  App.settle (view l) = view l' ∧
  heap l' = heap l ∧ data l' = data l ∧ invocations l' = invocations l ∧
  uploads l' = uploads l ∧ settings l' = settings l.
Proof.
  intros Hone H. unfold settle in H. rewrite Hone in H. simpl in H.
  injection H as <-. unfold App.settle, App.finished.
  destruct (view_items l c Hone) as (_ & _ & ->).
  rewrite forget_finished. unfold finished.
  destruct (forallb isReturned (workers c)); done.
Qed.

Lemma view_workers l c (ws : list Worker) :
  invocations l = [c] →
  view (setInvocations [withWorkers ws c] l)
  = {| App.st := App.st (view l);
       App.itemsToProcess := App.itemsToProcess (view l);
       App.index := App.index (view l);
       App.workers := forget <$> ws;
       App.calls := App.calls (view l) |}.
Proof. intros H. unfold view. simpl. rewrite H. done. Qed.

Lemma resume_view l c w net l' :
  Quiet l c → resume 0 w net l = Some l' →
  App.resume w net (view l) = Some (view l') ∧ ∃ c', Quiet l' c'.
Proof.
  intros Hq H. pose proof Hq as [Hs Hup Hone Hset Hin].
  destruct (view_items l c Hone) as (Hvi & Hvx & Hvw).
  unfold resume in H. rewrite Hone in H. simpl in H.
  destruct (workers c !! w) as [[k input|]|] eqn:Hw; try done.
  destruct (itemsToProcess c !! k) as [[item oi]|] eqn:Hk; [|done].
  simpl in H.
  destruct (Hin k input (list_elem_of_lookup_2 _ _ _ Hw)) as (p & Hp & Hinput).
  assert (p = (item, oi)) as -> by congruence. simpl in Hinput.
  rewrite Hset, Hinput in H.
  set (o := (Gemini.rewriteCaption (apiKey (settings l))
               (selectedModel (settings l)) (App.inputOf (object l item))
               (customRules (settings l)) net).2) in H.
  destruct (replaceAt oi (App.writeBack o) l) as [l1|] eqn:Hrep; [|done].
  simpl in H.
  pose proof (Quiet_replaceAt _ _ _ _ _ Hq Hrep) as Hq1.
  assert (Hq1' : Quiet (setProcessingStats (App.bump o) l1) c).
  { by apply (Quiet_flags l1). }
  destruct (worker_loop 0 (setProcessingStats (App.bump o) l1))
    as [[l2 w']|] eqn:Hloop; [|done]. simpl in H.
  destruct (worker_loop_view _ _ _ _ Hq1' Hloop)
    as (Hwl & c2 & Hq2 & Hws2 & Hw').
  rewrite (quiet_one _ _ Hq2) in H. simpl in H.
  assert (Hq3 : Quiet (setInvocations
                         [withWorkers (<[w:=w']> (workers c2)) c2] l2)
                      (withWorkers (<[w:=w']> (workers c2)) c2)).
  { apply Quiet_place; [done|]. intros k' input' Hin'.
    apply list_elem_of_lookup in Hin' as [j Hj].
    destruct (decide (j = w)) as [->|Hne].
    - rewrite list_lookup_insert_eq in Hj
        by (rewrite Hws2; by eapply lookup_lt_Some).
      injection Hj as Hj. by apply Hw'.
    - rewrite list_lookup_insert_ne in Hj by done.
      apply (quiet_inputs _ _ Hq2). by eapply list_elem_of_lookup_2. }
  destruct (settle_view _ _ _ (quiet_one _ _ Hq3) H)
    as (Hsettle & Hh & Hd & Hi & Hu & Hse).
  split.
  - unfold App.resume. rewrite Hvw, list_lookup_fmap, Hw.
    cbn [fmap option_fmap option_map forget].
    rewrite Hvi, list_lookup_fmap, Hk.
    cbn [fmap option_fmap option_map fst snd].
    change (App.outcome (App.st (view l)) (object l item) net) with o.
    assert (Hr1 : App.withSt
                    (fun s => App.setProcessingStats (App.bump o)
                                (App.setData
                                   (App.replaceAt oi (App.writeBack o)) s))
                    (view l)
                  = view (setProcessingStats (App.bump o) l1)).
    { transitivity (App.withSt (App.setProcessingStats (App.bump o))
                      (view l1)); [|done].
      rewrite (view_replaceAt oi (App.writeBack o) l l1 Hs);
        [done|by rewrite Hone|done]. }
    rewrite Hr1.
    rewrite Hwl. f_equal. rewrite <- Hsettle. f_equal.
    rewrite (view_workers l2 c2 _ (quiet_one _ _ Hq2)).
    f_equal. destruct (view_items l2 c2 (quiet_one _ _ Hq2)) as (_ & _ & ->).
    by rewrite list_fmap_insert.
  - exists (withWorkers (<[w:=w']> (workers c2)) c2).
    by apply (Quiet_flags _ _ l' Hq3).
Qed.

Lemma spawn_view l c l' :
  Quiet l c → spawn 0 l = Some l' →
  App.spawn (view l) = view l' ∧ ∃ c', Quiet l' c'.
Proof.
  intros Hq H. unfold spawn, worker in H. unfold App.spawn, App.worker.
  replace (App.stopProcessingRef (App.st (view l)))
    with (stopProcessingRef l) by done.
  destruct (stopProcessingRef l) eqn:Hstop.
  - simpl in H. rewrite (quiet_one _ _ Hq) in H. simpl in H.
    injection H as <-.
    rewrite (view_workers l c _ (quiet_one _ _ Hq)).
    destruct (view_items l c (quiet_one _ _ Hq)) as (_ & _ & ->).
    split; [by rewrite fmap_app|].
    exists (withWorkers (workers c ++ [Returned]) c).
    apply Quiet_place; [done|]. intros k input Hin.
    apply elem_of_app in Hin as [Hin|Hin].
    + by apply (quiet_inputs _ _ Hq).
    + by apply list_elem_of_singleton in Hin.
  - destruct (worker_loop 0 l) as [[l1 w1]|] eqn:Hloop; [|done].
    simpl in H.
    destruct (worker_loop_view _ _ _ _ Hq Hloop)
      as (Hwl & c1 & Hq1 & Hws1 & Hw1).
    rewrite (quiet_one _ _ Hq1) in H. simpl in H. injection H as <-.
    rewrite Hwl.
    rewrite (view_workers l1 c1 _ (quiet_one _ _ Hq1)).
    destruct (view_items l1 c1 (quiet_one _ _ Hq1)) as (_ & _ & ->).
    split; [by rewrite fmap_app|].
    exists (withWorkers (workers c1 ++ [w1]) c1).
    apply Quiet_place; [done|]. intros k input Hin.
    apply elem_of_app in Hin as [Hin|Hin].
    + by apply (quiet_inputs _ _ Hq1).
    + apply list_elem_of_singleton in Hin. by apply Hw1.
Qed.

(** *** The start *)

Lemma mounted_object mode a r :
  object (mounted mode a) r = default noRow (App.data a !! r).
Proof. done. Qed.

Lemma mounted_shown mode a : shown (mounted mode a) = App.data a.
Proof.
  unfold shown. simpl. apply list_eq. intros i.
  rewrite list_lookup_fmap.
  destruct (App.data a !! i) as [x|] eqn:E.
  - rewrite lookup_seq_lt by (by eapply lookup_lt_Some). simpl.
    by rewrite mounted_object, E.
  - rewrite lookup_seq_ge by (by apply lookup_ge_None). done.
Qed.

Lemma mounted_view mode a : view (mounted mode a) = BatchSpec.idle a.
Proof.
  unfold view, BatchSpec.idle. simpl.
  change (object (mounted mode a) <$> seq 0 (length (App.data a)))
    with (shown (mounted mode a)).
  rewrite mounted_shown. by destruct a.
Qed.

Lemma fmap_filter_elem {A B} (f : A → B) (P : A → bool) (Q : B → bool)
    (l : list A) :
  (∀ x, x ∈ l → P x = Q (f x)) →
  f <$> filter (fun x => P x) l = filter (fun y => Q y) (f <$> l).
Proof.
  induction l as [|x l IH]; intros H; [done|].
  csimpl. rewrite !filter_cons.
  rewrite (H x) by (apply elem_of_cons; by left).
  assert (IH' := IH (fun y Hy => H y (proj2 (elem_of_cons _ _ _) (or_intror Hy)))).
  destruct (Q (f x)); csimpl; by rewrite IH'.
Qed.

Lemma mounted_pairs mode a :
  (fun p => (object (mounted mode a) p.1, p.2))
    <$> imap (fun i item => (item, i)) (seq 0 (length (App.data a)))
  = imap (fun i item => (item, i)) (App.data a).
Proof.
  apply list_eq. intros i.
  rewrite list_lookup_fmap, !list_lookup_imap.
  destruct (App.data a !! i) as [x|] eqn:E.
  - rewrite lookup_seq_lt by (by eapply lookup_lt_Some). simpl.
    by rewrite mounted_object, E.
  - rewrite lookup_seq_ge by (by apply lookup_ge_None). done.
Qed.

Lemma mounted_queue mode a :
  (fun p => (object (mounted mode a) p.1, p.2))
    <$> filter (fun p => eligible (mounted mode a) p)
          (imap (fun i item => (item, i)) (seq 0 (length (App.data a))))
  = BatchSpec.queue a.
Proof.
  unfold BatchSpec.queue. rewrite <- (mounted_pairs mode).
  apply (fmap_filter_elem _ _ (fun p => App.eligible p.1)). intros p Hp.
  apply elem_of_lookup_imap in Hp as (i & r & -> & Hr).
  apply lookup_seq in Hr as [-> Hr]. simpl in *.
  unfold eligible, object. simpl.
  destruct (App.data a !! i) eqn:E; [done|].
  apply lookup_ge_None in E. lia.
Qed.

Lemma mounted_Sound mode a : Sound (mounted mode a).
Proof.
  split; simpl; try done.
  - apply list.Forall_forall. intros r Hr. apply elem_of_seq in Hr.
    unfold valid. simpl. lia.
  - intros c p Hc. by apply elem_of_nil in Hc.
  - intros c k input Hc. by apply elem_of_nil in Hc.
  - intros u Hu. by apply elem_of_nil in Hu.
Qed.

Lemma start_view mode a l :
  startProcessing (mounted mode a) = Some l →
  view l = App.startProcessing a ∧
  ((∃ c, Quiet l c) ∨
   ((truthy (App.apiKey a) = false ∨ App.data a = []) ∧ l = mounted mode a)).
Proof.
  unfold startProcessing. simpl. rewrite length_seq.
  destruct (truthy (App.apiKey a)) eqn:Hk; simpl.
  2:{ intros [= <-]. rewrite mounted_view.
      rewrite BatchProps.startProcessing_idle by auto. auto. }
  destruct (length (App.data a) =? 0)%nat eqn:Hd.
  { intros [= <-]. apply Nat.eqb_eq in Hd.
    assert (App.data a = []) as Hnil by (by apply nil_length_inv).
    rewrite mounted_view, BatchProps.startProcessing_idle by auto. auto. }
  apply Nat.eqb_neq in Hd.
  assert (Hne : App.data a ≠ []) by (intros E; by rewrite E in Hd).
  rewrite (BatchProps.startProcessing_started a Hk Hne).
  set (c0 := {| captured := settings (mounted mode a);
                itemsToProcess :=
                  filter (fun p => eligible (mounted mode a) p)
                    (imap (fun i item => (item, i))
                       (seq 0 (length (App.data a))));
                index := 0; workers := [] |}).
  set (l2 := setInvocations [c0]
               (setStopProcessingRef false
                  (setIsProcessing true (mounted mode a)))).
  assert (Hq2 : Quiet l2 c0).
  { split; try done.
    - destruct (mounted_Sound mode a) as [H1 _ _ _].
      split; simpl; try done.
      + intros c p Hc Hp. apply list_elem_of_singleton in Hc as ->.
        simpl in Hp. apply list_elem_of_filter in Hp as [_ Hp].
        apply elem_of_lookup_imap in Hp as (i & r & -> & Hr).
        apply lookup_seq in Hr as [-> Hr]. simpl in *.
        unfold valid. simpl. rewrite length_seq. lia.
      + intros c k input Hc Hw. apply list_elem_of_singleton in Hc as ->.
        by apply elem_of_nil in Hw.
      + intros u Hu. by apply elem_of_nil in Hu.
    - intros k input Hw. by apply elem_of_nil in Hw. }
  assert (Hv2 : view l2 = BatchSpec.ready a).
  { unfold view, BatchSpec.ready. simpl.
    change (object l2) with (object (mounted mode a)).
    rewrite mounted_queue.
    change (shown l2) with (shown (mounted mode a)).
    rewrite mounted_shown. reflexivity. }
  intros H0.
  assert (H : (l3 ← spawn 0 l2; l4 ← spawn 0 l3; l5 ← spawn 0 l4;
               settle 0 l5) = Some l) by exact H0.
  clear H0.
  destruct (spawn 0 l2) as [l3|] eqn:H3; [|done]. simpl in H.
  destruct (spawn_view _ _ _ Hq2 H3) as (Hv3 & c3 & Hq3).
  destruct (spawn 0 l3) as [l4|] eqn:H4; [|done]. simpl in H.
  destruct (spawn_view _ _ _ Hq3 H4) as (Hv4 & c4 & Hq4).
  destruct (spawn 0 l4) as [l5|] eqn:H5; [|done]. simpl in H.
  destruct (spawn_view _ _ _ Hq4 H5) as (Hv5 & c5 & Hq5).
  destruct (settle_view _ _ _ (quiet_one _ _ Hq5) H)
    as (Hsettle & Hh & Hda & Hi & Hu & Hse).
  split.
  - rewrite <- Hsettle, <- Hv5, <- Hv4, <- Hv3, Hv2. done.
  - left. exists c5. by apply (Quiet_flags _ _ l Hq5).
Qed.

(** *** The events *)

Lemma step_view l c e l' :
  Quiet l c → step l (quiet e) = Some l' →
  App.step (view l) e = Some (view l') ∧ ∃ c', Quiet l' c'.
Proof.
  intros Hq H. destruct e as [w net|]; simpl in H.
  - by eapply resume_view.
  - destruct (stopEnabled l); [|done]. injection H as <-. split; [done|].
    exists c. by apply (Quiet_flags _ _ _ Hq).
Qed.

Lemma run_view es : ∀ l c l',
  Quiet l c → run l (quiet <$> es) = Some l' →
  App.run (view l) es = Some (view l') ∧ ∃ c', Quiet l' c'.
Proof.
  induction es as [|e es IH]; intros l c l' Hq H; simpl in H.
  - injection H as <-. eauto.
  - destruct (step l (quiet e)) as [l1|] eqn:Hstep; [|done]. simpl in H.
    destruct (step_view _ _ _ _ Hq Hstep) as (Hs & c1 & Hq1).
    simpl. rewrite Hs. simpl. by eapply IH.
Qed.


Lemma quiet_run mode a es l :
  run (mounted mode a) (StartPressed :: (quiet <$> es)) = Some l →
  App.run (App.startProcessing a) es = Some (view l) ∧
  Sound l ∧ length (invocations l) ≤ 1 ∧ uploads l = [].
Proof.
  intros H. simpl in H.
  destruct (startEnabled (mounted mode a)) eqn:He; [|done].
  destruct (startProcessing (mounted mode a)) as [l0|] eqn:Hstart; [|done].
  simpl in H.
  destruct (start_view _ _ _ Hstart) as (Hv & [[c Hq]|[Hidle ->]]).
  - destruct (run_view _ _ _ _ Hq H) as (Hrun & c' & Hq').
    rewrite <- Hv. split; [done|].
    split_and!; [apply Hq'|by rewrite (quiet_one _ _ Hq')|apply Hq'].
  - destruct es as [|e es]; simpl in H.
    + injection H as <-. simpl. rewrite <- Hv. split; [done|].
      split_and!; [apply mounted_Sound|simpl; lia|done].
    + exfalso. destruct e as [w net|]; simpl in H; [done|].
      unfold stopEnabled in H. unfold startEnabled in He.
      simpl in *. destruct (App.isProcessing a); simpl in *.
      * by rewrite andb_false_r in He.
      * by rewrite andb_false_r in H.
Qed.

(** Every event leaves the references and the positions sound, and
    the list at its length. *)
Lemma Sound_step l e l' :
  Sound l → step l e = Some l' →
  Sound l' ∧ length (data l') = length (data l).
Proof.
  intros Hs H. destruct e as [| |ci w net|files|ui]; simpl in H.
  - destruct (startEnabled l); [|done]. by apply Sound_startProcessing.
  - destruct (stopEnabled l); [|done]. injection H as <-.
    split; [|done]. by apply (Sound_flags l).
  - unfold resume in H.
    destruct (invocations l !! ci) as [c|] eqn:Hc; [|done]. simpl in H.
    destruct (workers c !! w) as [[k input|]|] eqn:Hw; try done.
    destruct (itemsToProcess c !! k) as [[item oi]|] eqn:Hk; [|done].
    simpl in H.
    destruct (replaceAt oi _ l) as [l1|] eqn:Hrep; [|done]. simpl in H.
    destruct (Sound_replaceAt _ _ _ _ Hs Hrep)
      as (Hs1 & Hd1 & _ & Hi1 & Hu1 & _).
    match type of H with context [worker_loop ci ?x] =>
      assert (Hs1' : Sound x) by (by apply (Sound_flags l1));
      destruct (worker_loop ci x) as [[l2 w']|] eqn:Hloop; [|done]
    end.
    simpl in H.
    destruct (Sound_worker_loop _ _ _ _ Hs1' Hloop)
      as (Hs2 & Hd2 & Hu2 & Hi2 & c1 & c2 & Hc1 & Hc2 & Hit & Hws & Hw').
    rewrite Hc2 in H. simpl in H.
    simpl in Hc1. rewrite Hi1, Hc in Hc1. injection Hc1 as <-.
    match type of H with settle ci ?x = _ =>
      assert (Hs3 : Sound x)
    end.
    { apply (Sound_place ci l2 c2); [done..|].
      intros k' input' Hin. rewrite Hit.
      apply elem_of_insert_inv in Hin as [<-|Hin]; [done|].
      rewrite Hws in Hin. apply (sound_workers _ Hs c k' input'); [|done].
      by eapply list_elem_of_lookup_2. }
    destruct (Sound_settle _ _ _ Hs3 H) as (Hs4 & Hd4 & _).
    split; [done|]. rewrite Hd4. simpl. by rewrite Hd2.
  - destruct (matchEnabled l); [|done]. injection H as <-.
    unfold handleMatchImageUpload.
    destruct (length files =? 0)%nat; [done|].
    match goal with |- Sound (proceed ?ui ?u ?i ?l2) ∧ _ =>
      apply (Sound_proceed ui u i l2)
    end; simpl.
    + destruct Hs as [Hd Hq Hw Hu]. split; simpl; try done.
      intros u Hin. apply elem_of_app in Hin as [Hin|Hin]; [by apply Hu|].
      apply list_elem_of_singleton in Hin as ->. done.
    + rewrite length_app. simpl. lia.
    + done.
    + apply Hs.
  - unfold fileRead in H.
    destruct (uploads l !! ui) as [u|] eqn:Hu; [|done]. simpl in H.
    destruct (reading u) as [[i file]|]; [|done]. simpl in H.
    injection H as <-.
    destruct (sound_uploads _ Hs u) as [H1 H2];
      [by eapply list_elem_of_lookup_2|].
    apply Sound_proceed; try done.
    + by eapply lookup_lt_Some.
    + by destruct (Handlers.dataURL file).
    + by destruct (Handlers.dataURL file).
Qed.

Lemma Sound_run es : ∀ l l',
  Sound l → run l es = Some l' →
  Sound l' ∧ length (data l') = length (data l).
Proof.
  induction es as [|e es IH]; intros l l' Hs H; simpl in H.
  - by injection H as <-.
  - destruct (step l e) as [l1|] eqn:Hstep; [|done]. simpl in H.
    destruct (Sound_step _ _ _ Hs Hstep) as [Hs1 Hd1].
    destruct (IH _ _ Hs1 H) as [Hs' Hd']. split; [done|]. congruence.
Qed.

(** The reply to a call in flight can always be taken: the row it is
    for is in the list. *)
Lemma reply_defined ci w net l c k input :
  Sound l → invocations l !! ci = Some c →
  workers c !! w = Some (Waiting k input) →
  is_Some (resume ci w net l).
Proof.
  intros Hs Hc Hw. unfold resume. rewrite Hc. simpl. rewrite Hw.
  assert (Hk : k < length (itemsToProcess c)).
  { apply (sound_workers _ Hs c k input); by eapply list_elem_of_lookup_2. }
  destruct (lookup_lt_is_Some_2 _ _ Hk) as [[item oi] Hitem].
  rewrite Hitem. simpl.
  destruct (sound_queues _ Hs c (item, oi)) as [_ Hoi];
    [by eapply list_elem_of_lookup_2..|]. simpl in Hoi.
  match goal with |- context [replaceAt oi ?f l] =>
    destruct (replaceAt_defined oi f l Hs Hoi) as [l1 Hrep]
  end.
  rewrite Hrep. simpl.
  destruct (Sound_replaceAt _ _ _ _ Hs Hrep)
    as (Hs1 & Hd1 & _ & Hi1 & Hu1 & _).
  assert (Hci : ci < length (invocations l)) by (by eapply lookup_lt_Some).
  match goal with |- context [worker_loop ci ?x] =>
    assert (Hs1' : Sound x) by (by apply (Sound_flags l1));
    destruct (worker_loop_defined ci x Hs1') as [[l2 w'] Hloop];
      [simpl; by rewrite Hi1|]
  end.
  rewrite Hloop. simpl.
  destruct (Sound_worker_loop _ _ _ _ Hs1' Hloop)
    as (_ & _ & _ & _ & c1 & c2 & _ & Hc2 & _).
  rewrite Hc2. simpl. unfold settle. simpl.
  rewrite list_lookup_insert_eq by (by eapply lookup_lt_Some). simpl. eauto.
Qed.

Lemma live_run_app es1 : ∀ es2 l,
  run l (es1 ++ es2) = run l es1 ≫= fun l1 => run l1 es2.
Proof.
  induction es1 as [|e es1 IH]; intros es2 l; simpl; [done|].
  destruct (step l e) as [l1|]; simpl; [apply IH|done].
Qed.

Lemma ended_view l :
  length (invocations l) ≤ 1 → ended l = App.finished (view l).
Proof.
  intros H. unfold ended, App.finished, view.
  destruct (invocations l) as [|c [|c' cs]]; simpl in *; [done| |lia].
  rewrite forget_finished. unfold finished. by rewrite andb_true_r.
Qed.

(** *** An undisturbed run *)

(** C1, as the code has it. Take a run of the batch in which, after the
    start button, nothing happens but replies to the calls: no stop, no
    second start, no images attached. With an API key, once every worker
    has returned, [rewriteCaption] has been called once for each row that
    was pending or in error at the start, and for no other row; every row
    that was called for is completed or in error; and a row in processing
    is one that was in processing at the start. Such a row is not queued:
    it stays as it is and is not called for, at every point of the run.
    Without an API key nothing is called and the list stays as it is. *)
Theorem startProcessing_calls_each_row_once mode a es l :
  run (mounted mode a) (StartPressed :: (quiet <$> es)) = Some l →
  (truthy (App.apiKey a) = false →
     calls l = [] ∧ shown l = App.data a) ∧
  (∀ i row, App.data a !! i = Some row → status row = Status.processing →
     shown l !! i = Some row ∧ i ∉ (App.originalIndex <$> calls l)) ∧
  (truthy (App.apiKey a) = true → BatchSpec.noStop es → ended l = true →
     length (calls l)
       = length (filter (fun item => App.eligible item) (App.data a)) ∧
     NoDup (App.originalIndex <$> calls l) ∧
     (∀ i, i ∈ (App.originalIndex <$> calls l) ↔
           ∃ item, App.data a !! i = Some item ∧ App.eligible item = true) ∧
     (∀ i row, shown l !! i = Some row → status row = Status.processing →
           App.data a !! i = Some row) ∧
     (∀ c, c ∈ calls l →
           ∃ row, shown l !! App.originalIndex c = Some row ∧
                  (status row = Status.completed ∨
                   status row = Status.error))).
Proof.
  intros H. apply quiet_run in H as (Hrun & _ & Hone & _).
  split_and!.
  - intros Hk.
    exact (BatchProps.closed_run_keyless a es (view l) Hk Hrun).
  - intros i row Hi Hst.
    apply (BatchProps.closed_run_others a es (view l) i row Hrun Hi).
    unfold App.eligible. by rewrite Hst.
  - intros Hk Hn He. rewrite (ended_view l Hone) in He.
    exact (BatchProps.closed_run_calls_each_row_once a es (view l)
             Hk Hn Hrun He).
Qed.


(** X28. Take a run in which, after the start button, nothing happens
    but replies to the calls and the stop button. The row of every queued
    entry goes through three phases in order and never back: as it was at
    the start, pending or in error; then in processing; then holding the
    outcome of its call, completed or in error. An event moves it by one
    phase at most, a row that stays in its phase is not written, and a
    row that was neither pending nor in error at the start is never
    written. *)
Theorem statuses_move_forward mode a es es' l l' :
  truthy (App.apiKey a) = true →
  run (mounted mode a) (StartPressed :: (quiet <$> es)) = Some l →
  run l (quiet <$> es') = Some l' →
  (∀ k item i, BatchSpec.queue a !! k = Some (item, i) →
     phase l k ≤ phase l' k ∧
     (length es' ≤ 1 → phase l' k ≤ S (phase l k)) ∧
     (phase l' k = phase l k → shown l' !! i = shown l !! i) ∧
     ∃ row, shown l' !! i = Some row ∧
       match phase l' k with
       | 0 => row = item ∧
              (status row = Status.pending ∨ status row = Status.error)
       | 1 => row = App.markProcessing item ∧
              status row = Status.processing
       | _ => BatchSpec.settledRow a item row ∧
              (status row = Status.completed ∨ status row = Status.error)
       end) ∧
  (∀ i row, App.data a !! i = Some row → App.eligible row = false →
     shown l' !! i = Some row).
Proof.
  intros Hk H1 H2.
  assert (H : run (mounted mode a)
                (StartPressed :: (quiet <$> (es ++ es'))) = Some l').
  { rewrite fmap_app. change (StartPressed :: ?x ++ ?y)
      with ((StartPressed :: x) ++ y).
    rewrite live_run_app, H1. exact H2. }
  apply quiet_run in H1 as (Hrun1 & _).
  apply quiet_run in H as (Hrun & _).
  rewrite BatchProps.run_app, Hrun1 in Hrun. simpl in Hrun.
  exact (BatchProps.closed_run_phases a es es' (view l) (view l')
           Hk Hrun1 Hrun).
Qed.

End Simulation.


Lemma startProcessing_calls_each_row_once_witness :
  ∃ l,
    @run GeminiSpec.prompt0 (mounted Handlers.excel BatchSpec.two)
      (StartPressed ::
         (quiet <$> [App.Settled 0 BatchSpec.reply0;
                     App.Settled 1 BatchSpec.failure0])) = Some l ∧
    length (calls l) = 2 ∧
    NoDup (App.originalIndex <$> calls l) ∧
    status <$> shown l = [Status.completed; Status.error].
Proof.
  destruct (@run GeminiSpec.prompt0 (mounted Handlers.excel BatchSpec.two)
              (StartPressed ::
                 (quiet <$> [App.Settled 0 BatchSpec.reply0;
                             App.Settled 1 BatchSpec.failure0])))
    as [l|] eqn:E.
  2: { exfalso. vm_compute in E. discriminate E. }
  exists l. split; [reflexivity|].
  destruct (@startProcessing_calls_each_row_once GeminiSpec.prompt0
              Handlers.excel BatchSpec.two _ l E) as (_ & _ & H).
  destruct H as (Hlen & Hnd & _).
  - reflexivity.
  - repeat constructor; discriminate.
  - vm_compute in E. injection E as <-. reflexivity.
  - split_and!; [exact Hlen|exact Hnd|].
    vm_compute in E. injection E as <-. reflexivity.
Defined.

(** The claim C1 fails on the code. A row that is in processing when the
    run starts, as in a session that was saved during a run, is still in
    processing when the run has ended. Without an API key no call is made
    for a pending row. And when images are attached during the run, the
    handler writes back the list it copied before it read the file: the
    run ends with a row in processing for which the call had settled. *)
Lemma batch_done_fails :
  (∃ l, @run GeminiSpec.prompt0 (mounted Handlers.excel BatchSpec.stale)
          [StartPressed] = Some l ∧
        ended l = true ∧ status <$> shown l = [Status.processing] ∧
        ¬ batch_done (mounted Handlers.excel BatchSpec.stale) l) ∧
  (∃ l, @run GeminiSpec.prompt0 (mounted Handlers.excel BatchSpec.keyless)
          [StartPressed] = Some l ∧
        ended l = true ∧ status <$> shown l = [Status.pending] ∧
        calls l = [] ∧
        ¬ batch_done (mounted Handlers.excel BatchSpec.keyless) l) ∧
  (∃ l, @run GeminiSpec.prompt0 sheetOfTwo lateImage = Some l ∧
        ended l = true ∧ isProcessing l = false ∧
        App.originalIndex <$> calls l = [0; 1] ∧
        status <$> shown l = [Status.processing; Status.completed] ∧
        ¬ batch_done sheetOfTwo l).
Proof.
  split_and!; eexists; (split; [vm_compute; reflexivity|]);
    split_and!; try reflexivity.
  - intros (_ & H & _). inversion H as [|? ? Hp _]. by apply Hp.
  - intros (H & _). vm_compute in H. discriminate H.
  - intros (_ & H & _). inversion H as [|? ? Hp _]. by apply Hp.
Qed.



Lemma statuses_move_forward_witness :
  ∃ l l',
    @run GeminiSpec.prompt0 (mounted Handlers.excel BatchSpec.two)
      (StartPressed :: (quiet <$> [])) = Some l ∧
    @run GeminiSpec.prompt0 l (quiet <$> [App.Settled 0 BatchSpec.reply0])
      = Some l' ∧
    phase l 0 = 1 ∧ phase l' 0 = 2 ∧
    ∃ row, shown l' !! 0 = Some row ∧
           (status row = Status.completed ∨ status row = Status.error).
Proof.
  destruct (@run GeminiSpec.prompt0 (mounted Handlers.excel BatchSpec.two)
              (StartPressed :: (quiet <$> []))) as [l|] eqn:E1.
  2: { exfalso. vm_compute in E1. discriminate E1. }
  destruct (@run GeminiSpec.prompt0 l
              (quiet <$> [App.Settled 0 BatchSpec.reply0])) as [l'|] eqn:E2.
  2: { exfalso. vm_compute in E1. injection E1 as <-.
       vm_compute in E2. discriminate E2. }
  exists l, l'. split; [reflexivity|]. split; [exact E2|].
  destruct (@statuses_move_forward GeminiSpec.prompt0 Handlers.excel
              BatchSpec.two [] _ l l' eq_refl E1 E2) as [Hrows _].
  destruct (Hrows 0 (BatchSpec.pendingRow 0 Status.pending) 0 eq_refl)
    as (_ & _ & _ & row & Hrow & Hphase).
  assert (H1 : phase l 0 = 1).
  { vm_compute in E1. injection E1 as <-. reflexivity. }
  assert (H2 : phase l' 0 = 2).
  { vm_compute in E1. injection E1 as <-.
    vm_compute in E2. injection E2 as <-. reflexivity. }
  split_and!; [exact H1|exact H2|].
  rewrite H2 in Hphase. exists row. split; [exact Hrow|apply Hphase].
Defined.

(** C9 fails on the code. Images are attached in match mode while two
    calls are in flight. The first call settles, and its row is
    completed. Then the file has been read, and [handleMatchImageUpload]
    sets the list it had copied before the read, in which that row is in
    processing: the row has gone from completed back to processing, while
    the run is still under way. *)
Theorem settled_row_goes_back :
  ∃ l l',
    @run GeminiSpec.prompt0 sheetOfTwo beforeWrite = Some l ∧
    @step GeminiSpec.prompt0 l (FileRead 0) = Some l' ∧
    ended l = false ∧ ended l' = false ∧
    status <$> shown l !! 0 = Some Status.completed ∧
    status <$> shown l' !! 0 = Some Status.processing.
Proof.
  eexists _, _. split; [vm_compute; reflexivity|].
  split; [vm_compute; reflexivity|]. split_and!; reflexivity.
Qed.



(** X27. Whatever the order in which the start button, the stop button,
    the replies to the calls, the choice of images to attach and the
    reads of their files occur, the list keeps the length it had, no
    position of a queue lies outside it, and every row object that is
    referred to exists. So the reply to any call in flight can be taken
    and is written into the list, the read that an upload awaits can end,
    and the start button, when it is enabled, starts a run. *)
Theorem writes_stay_in_the_list {C : Gemini.Constants} mode a es l :
  run (mounted mode a) es = Some l →
  length (data l) = length (App.data a) ∧
  length (shown l) = length (App.data a) ∧
  Forall (fun r => is_Some (heap l !! r)) (data l) ∧
  (∀ ci c w k input net, invocations l !! ci = Some c →
     workers c !! w = Some (Waiting k input) →
     ∃ l' p, step l (Settled ci w net) = Some l' ∧
             itemsToProcess c !! k = Some p ∧ p.2 < length (data l) ∧
             length (data l') = length (data l)) ∧
  (∀ ui u rd, uploads l !! ui = Some u → reading u = Some rd →
     is_Some (step l (FileRead ui))) ∧
  (startEnabled l = true → is_Some (step l StartPressed)).
Proof.
  intros H.
  destruct (Sound_run _ _ _ (mounted_Sound mode a) H) as [Hs Hlen].
  simpl in Hlen. rewrite length_seq in Hlen.
  split_and!.
  - done.
  - by rewrite shown_length.
  - eapply list.Forall_impl; [apply (sound_data _ Hs)|].
    intros r Hr. apply lookup_lt_is_Some_2, Hr.
  - intros ci c w k input net Hc Hw.
    destruct (reply_defined ci w net l c k input Hs Hc Hw) as [l' Hl'].
    assert (Hk : k < length (itemsToProcess c)).
    { apply (sound_workers _ Hs c k input); by eapply list_elem_of_lookup_2. }
    destruct (lookup_lt_is_Some_2 _ _ Hk) as [p Hp].
    exists l', p. split_and!; [done|done| |].
    + apply (sound_queues _ Hs c p); by eapply list_elem_of_lookup_2.
    + by apply (Sound_step l (Settled ci w net) l' Hs).
  - intros ui u [i file] Hu Hrd. simpl. unfold fileRead.
    rewrite Hu. simpl. rewrite Hrd. simpl. eauto.
  - intros He. simpl. rewrite He. by apply startProcessing_defined.
Qed.

Lemma writes_stay_in_the_list_witness :
  ∃ l,
    @run GeminiSpec.prompt0 sheetOfTwo
      [StartPressed; FilesChosen [HandlersSpec.catFile];
       Settled 0 0 BatchSpec.reply0; FileRead 0] = Some l ∧
    length (data l) = 2 ∧
    is_Some (@step GeminiSpec.prompt0 l (Settled 0 1 BatchSpec.failure0)).
Proof.
  destruct (@run GeminiSpec.prompt0 sheetOfTwo
              [StartPressed; FilesChosen [HandlersSpec.catFile];
               Settled 0 0 BatchSpec.reply0; FileRead 0]) as [l|] eqn:E.
  2: { exfalso. vm_compute in E. discriminate E. }
  exists l. split; [reflexivity|].
  destruct (@writes_stay_in_the_list GeminiSpec.prompt0 Handlers.match_mode
              _ _ l E) as (Hlen & _ & _ & Hreply & _).
  split; [exact Hlen|].
  destruct (invocations l !! 0) as [c|] eqn:Ec.
  2: { exfalso. vm_compute in E. injection E as <-. discriminate Ec. }
  destruct (workers c !! 1) as [[k input|]|] eqn:Ew.
  2: { exfalso. vm_compute in E. injection E as <-. injection Ec as <-.
       discriminate Ew. }
  2: { exfalso. vm_compute in E. injection E as <-. injection Ec as <-.
       discriminate Ew. }
  destruct (Hreply 0 c 1 k input BatchSpec.failure0 Ec Ew)
    as (l' & p & Hl' & _).
  exists l'. exact Hl'.
Defined.

End LiveProps.

(* ================================================================= *)
(** ** An upload of images among the events of a run *)

Module UploadLive.
Import Live LiveSpec LiveProps.

Lemma nextRead_None h fm rest : ∀ i,
  nextRead h fm i rest = None → later h fm i rest = [].
Proof.
  induction rest as [|r rest IH]; intros i H; simpl in *; [done|].
  unfold wanted. destruct (fileFor h fm r) as [file|]; [done|]. simpl.
  by apply IH.
Qed.

Lemma nextRead_Some h fm rest : ∀ i j file,
  nextRead h fm i rest = Some (j, file) →
  i ≤ j ∧ j - i < length rest ∧
  later h fm i rest
  = match Handlers.dataURL file with
    | Ok dataUrl => [(j, dataUrl)]
    | Throw _ => []
    end ++ later h fm (S j) (drop (S (j - i)) rest).
Proof.
  induction rest as [|r rest IH]; intros i j file H; simpl in *; [done|].
  unfold wanted. destruct (fileFor h fm r) as [file'|] eqn:Hf; simpl.
  - injection H as <- <-. rewrite Nat.sub_diag. simpl. rewrite drop_0.
    split; [lia|]. split; [lia|]. by destruct (Handlers.dataURL file').
  - destruct (IH _ _ _ H) as (Hle & Hlt & ->).
    replace (j - i) with (S (j - S i)) by lia. simpl.
    split; [lia|]. split; [lia|]. done.
Qed.


Lemma applyUpdates_later h fm nd : ∀ rest i h',
  drop i nd = rest → NoDup rest →
  ∀ r, applyUpdates nd (later h fm i rest) h' !! r
       = if decide (r ∈ rest) then updated h fm r <$> h' !! r else h' !! r.
Proof.
  induction rest as [|r0 rest IH]; intros i h' Hd Hnd r.
  - destruct (decide (r ∈ [])) as [H|_]; [by apply elem_of_nil in H|done].
  - assert (Hi : nd !! i = Some r0).
    { rewrite <- (Nat.add_0_r i), <- lookup_drop, Hd. done. }
    assert (Hd' : drop (S i) nd = rest).
    { replace (S i) with (i + 1) by lia.
      rewrite <- (drop_drop nd 1 i), Hd. done. }
    apply list.NoDup_cons in Hnd as [Hr0 Hnd].
    assert (Hstep : ∀ h'',
      (h'' !! r0 = updated h fm r0 <$> h' !! r0) →
      (∀ r', r' ≠ r0 → h'' !! r' = h' !! r') →
      applyUpdates nd (later h fm (S i) rest) h'' !! r
      = if decide (r ∈ r0 :: rest) then updated h fm r <$> h' !! r
        else h' !! r).
    { intros h'' H0 Hother. rewrite (IH (S i) h'' Hd' Hnd r).
      destruct (decide (r = r0)) as [->|Hne].
      - destruct (decide (r0 ∈ rest)); [done|].
        destruct (decide (r0 ∈ r0 :: rest)) as [_|Hn]; [done|].
        exfalso. apply Hn, elem_of_cons. by left.
      - rewrite (Hother r Hne).
        destruct (decide (r ∈ rest)) as [Hin|Hin];
          destruct (decide (r ∈ r0 :: rest)) as [Hin'|Hin']; try done.
        + exfalso. apply Hin', elem_of_cons. by right.
        + exfalso. apply elem_of_cons in Hin' as [?|?]; done. }
    simpl. destruct (wanted h fm r0) as [url|] eqn:Hw.
    + change (applyUpdates nd ((i, url) :: later h fm (S i) rest) h')
        with (applyUpdates nd (later h fm (S i) rest)
                (match nd !! i with
                 | Some r1 => alter (setImage url) r1 h'
                 | None => h'
                 end)).
      rewrite Hi. apply Hstep.
      * rewrite list_lookup_alter_eq. unfold updated. by rewrite Hw.
      * intros r' Hne. by rewrite list_lookup_alter_ne.
    + apply Hstep; [|done]. unfold updated. rewrite Hw.
      by destruct (h' !! r0).
Qed.

Lemma updated_matchRow h fm r object :
  h !! r = Some object →
  updated h fm r object = (Handlers.matchRow fm object).1.
Proof.
  intros Hr. unfold updated, wanted, fileFor, Handlers.matchRow.
  rewrite Hr. destruct (truthy_opt (imageData object)); [done|].
  destruct (Handlers.findMatch fm (imagePath object)) as [file|]; [|done].
  simpl. by destruct (Handlers.dataURL file).
Qed.

Section Upload.
Context {C : Gemini.Constants}.

(** The loop of an upload from position [i] on, when nothing but the
    reads of its files happens until the handler has returned. *)
Lemma upload_loop n : ∀ ui u i l l',
  ui < length (uploads l) →
  run (proceed ui u i l) (replicate n (FileRead ui)) = Some l' →
  reading <$> uploads l' !! ui = Some None →
  heap l'
  = applyUpdates (newData u)
      (updates u ++ later (heap l) (fileMap u) i (drop i (newData u)))
      (heap l) ∧
  data l' = newData u ∧
  settings l' = settings l ∧ uploadMode l' = uploadMode l ∧
  isProcessing l' = isProcessing l ∧
  processingStats l' = processingStats l ∧
  stopProcessingRef l' = stopProcessingRef l ∧
  invocations l' = invocations l ∧ calls l' = calls l.
Proof.
  induction n as [|n IH]; intros ui u i l l' Hui Hrun Hend;
    unfold proceed in Hrun;
    destruct (nextRead (heap l) (fileMap u) i (drop i (newData u)))
      as [[j file]|] eqn:Hn.
  - simpl in Hrun. injection Hrun as <-. simpl in Hend.
    rewrite list_lookup_insert_eq in Hend by done. done.
  - simpl in Hrun. injection Hrun as <-.
    rewrite (nextRead_None _ _ _ _ Hn), app_nil_r. done.
  - destruct (nextRead_Some _ _ _ _ _ _ Hn) as (Hle & Hlt & Hlater).
    simpl in Hrun. unfold fileRead in Hrun. simpl in Hrun.
    rewrite list_lookup_insert_eq in Hrun by done. simpl in Hrun.
    apply IH in Hrun; [|simpl; by rewrite length_insert|done].
    destruct Hrun as (Hh & Hrest). simpl in Hh, Hrest.
    split; [|by destruct (Handlers.dataURL file)].
    rewrite Hh, Hlater.
    replace (drop (S (j - i)) (drop i (newData u)))
      with (drop (S j) (newData u))
      by (rewrite drop_drop; f_equal; lia).
    destruct (Handlers.dataURL file); simpl; [|done].
    by rewrite <- app_assoc.
  - simpl in Hrun. unfold fileRead in Hrun. simpl in Hrun.
    rewrite list_lookup_insert_eq in Hrun by done. simpl in Hrun. done.
Qed.

(** X29. An upload of images that nothing interrupts is the handler
    taken as a whole. When the files are chosen and then nothing happens
    but the reads of these files until the handler has returned, the list
    that is shown is the one [Handlers.handleMatchImageUpload] computes
    from the list shown before: every row without image whose path a
    file matches has the data URL of that file, when it could be read,
    and the other rows are as they were. The counters, the flags, the
    invocations of the batch and the calls are untouched. *)
Theorem uninterrupted_upload_is_the_handler files l n l' (w : Handlers.World) :
  Sound l → NoDup (data l) →
  App.data (Handlers.app w) = shown l →
  run l (FilesChosen files :: replicate n (FileRead (length (uploads l))))
    = Some l' →
  reading <$> uploads l' !! length (uploads l) = Some None →
  shown l' = App.data (Handlers.app (Handlers.handleMatchImageUpload files w)) ∧
  processingStats l' = processingStats l ∧
  isProcessing l' = isProcessing l ∧
  stopProcessingRef l' = stopProcessingRef l ∧
  invocations l' = invocations l ∧ calls l' = calls l.
Proof.
  intros Hs Hnd Hw Hrun Hend. simpl in Hrun.
  destruct (matchEnabled l); [|done]. simpl in Hrun.
  unfold handleMatchImageUpload in Hrun.
  unfold Handlers.handleMatchImageUpload.
  destruct (length files =? 0)%nat eqn:Hf.
  { exfalso. destruct n as [|n]; simpl in Hrun.
    - injection Hrun as <-.
      rewrite (lookup_ge_None_2 (uploads l) (length (uploads l))) in Hend
        by lia. done.
    - unfold fileRead in Hrun.
      rewrite (lookup_ge_None_2 (uploads l) (length (uploads l))) in Hrun
        by lia. done. }
  match type of Hrun with
  | run (proceed ?ui ?u 0 ?l0) _ = _ =>
      destruct (upload_loop n ui u 0 l0 l') as (Hh & Hd & Hrest);
        [simpl; rewrite length_app; simpl; lia|exact Hrun|exact Hend|]
  end.
  simpl in Hh, Hd, Hrest. rewrite drop_0 in Hh.
  split; [|by destruct Hrest as (_ & _ & ? & ? & ? & ? & ?)].
  simpl. rewrite Hw. unfold shown at 1. rewrite Hd.
  unfold shown. rewrite <- !list_fmap_compose.
  apply Forall_fmap_ext_1, list.Forall_forall. intros r Hr. simpl.
  assert (Hv : valid l r).
  { by apply (proj1 (list.Forall_forall _ _) (sound_data _ Hs)). }
  pose proof (object_valid _ _ Hv) as Ho.
  unfold object at 1. rewrite Hh.
  rewrite (applyUpdates_later (heap l) (Handlers.fileMap files) (data l)
             (data l) 0 (heap l) (drop_0 _) Hnd r).
  rewrite decide_True by done. rewrite Ho. simpl.
  by apply updated_matchRow.
Qed.

End Upload.


Lemma uninterrupted_upload_is_the_handler_witness :
  ∃ l',
    @run GeminiSpec.prompt0 sheetOfTwo
      (FilesChosen [HandlersSpec.catFile]
         :: replicate 1 (FileRead (length (uploads sheetOfTwo)))) = Some l' ∧
    imageData <$> shown l'
    = [Some (str "data:image/png;base64,AAAA"); None] ∧
    shown l'
    = App.data (Handlers.app
                  (Handlers.handleMatchImageUpload [HandlersSpec.catFile]
                     worldOfTwo)).
Proof.
  destruct (@run GeminiSpec.prompt0 sheetOfTwo
              (FilesChosen [HandlersSpec.catFile]
                 :: replicate 1 (FileRead (length (uploads sheetOfTwo)))))
    as [l'|] eqn:E.
  2: { exfalso. vm_compute in E. discriminate E. }
  exists l'. split; [reflexivity|].
  destruct (@uninterrupted_upload_is_the_handler GeminiSpec.prompt0
              [HandlersSpec.catFile] sheetOfTwo 1 l' worldOfTwo)
    as (Hshown & _).
  - apply mounted_Sound.
  - apply (bool_decide_unpack _). vm_compute. exact I.
  - vm_compute. reflexivity.
  - exact E.
  - vm_compute in E. injection E as <-. reflexivity.
  - split; [|exact Hshown].
    vm_compute in E. injection E as <-. reflexivity.
Defined.

End UploadLive.

(* ================================================================= *)
(** ** More on the batch processor *)

Module BatchMore.
Import App BatchSpec BatchMeasure BatchProps.

Lemma busy_list_insert (ws : list Worker) w k x :
  ws !! w = Some (Waiting k) →
  length (filter (fun w => isReturned w = false) (<[w:=x]> ws))
    + 1
  = length (filter (fun w => isReturned w = false) ws)
    + (if isReturned x then 0 else 1).
Proof.
  intros Hw. assert (Hlt : w < length ws) by (by eapply lookup_lt_Some).
  rewrite <- (take_drop_middle _ _ _ Hw) at 2.
  rewrite insert_take_drop by done.
  rewrite !list.filter_app, !length_app, !filter_cons. simpl.
  destruct (isReturned x); simpl; lia.
Qed.

Lemma busy_snoc (ws : list Worker) x :
  length (filter (fun w => isReturned w = false) (ws ++ [x]))
  = length (filter (fun w => isReturned w = false) ws)
    + (if isReturned x then 0 else 1).
Proof.
  rewrite list.filter_app, length_app, filter_cons. simpl.
  destruct (isReturned x); simpl; lia.
Qed.

Lemma busy_settle r : busy (settle r) = busy r.
Proof. unfold busy. by rewrite settle_workers. Qed.

Lemma busy_finished r : finished r = true ↔ busy r = 0.
Proof.
  unfold finished, busy. induction (workers r) as [|x ws IH]; simpl; [done|].
  rewrite filter_cons. destruct x; simpl.
  - split; [done|]. intros H. lia.
  - done.
Qed.

Section Progress.
Context {C : Gemini.Constants}.

(** A waiting worker can always resume, whatever comes back. *)
Lemma resume_defined a r w k net :
  Reach a r → workers r !! w = Some (Waiting k) →
  ∃ r', resume w net r = Some r'.
Proof.
  intros [Hi _] Hw.
  assert (Hk : k < length (itemsToProcess r)).
  { rewrite (inv_items _ _ _ _ Hi).
    pose proof (inv_claimed _ _ _ _ Hi k) as Hc.
    pose proof (inv_index _ _ _ _ Hi). 
    assert (waiting r k) by (by eapply list_elem_of_lookup_2).
    specialize (Hc ltac:(done)). lia. }
  destruct (lookup_lt_is_Some_2 _ _ Hk) as [[item i] Hq].
  unfold resume. rewrite Hw, Hq.
  destruct (worker_loop _) as [r2 w']. eauto.
Qed.

Lemma unfinished_waiting r :
  finished r = false → ∃ w k, workers r !! w = Some (Waiting k).
Proof.
  unfold finished. induction (workers r) as [|x ws IH]; simpl; [done|].
  destruct x as [k|]; simpl.
  - intros _. by exists 0, k.
  - intros H. destruct (IH H) as (w & k & Hw). by exists (S w), k.
Qed.

(** Each settlement takes one off what remains. *)
Lemma resume_remaining a r w net r' :
  Reach a r → resume w net r = Some r' →
  S (remaining a r') = remaining a r.
Proof.
  intros [Hi _] H. apply resume_cases in H
    as (k & item & i & Hw & _ & [[-> _]|(item' & i' & Hq & _ & ->)]);
    unfold remaining; rewrite busy_settle.
  - destruct (settle_fields (place (<[w:=Returned]> (workers r))
                               (written r item i net))) as (_ & -> & _).
    unfold busy. simpl.
    pose proof (busy_list_insert _ _ _ Returned Hw) as Hb. simpl in Hb. lia.
  - destruct (settle_fields
                (place (<[w:=Waiting (index r)]> (workers r))
                   (claim (written r item i net) item' i'))) as (_ & -> & _).
    unfold busy. simpl.
    pose proof (busy_list_insert _ _ _ (Waiting (index r)) Hw) as Hb.
    simpl in Hb, Hq. rewrite (inv_items _ _ _ _ Hi) in Hq.
    apply lookup_lt_Some in Hq. lia.
Qed.

Lemma step_remaining a r e r' :
  Reach a r → step r e = Some r' →
  remaining a r' + (if isSettled e then 1 else 0) = remaining a r.
Proof.
  intros Hr. destruct e as [w net|]; simpl.
  - intros H. pose proof (resume_remaining _ _ _ _ _ Hr H). lia.
  - intros [= <-]. unfold remaining, busy. simpl. lia.
Qed.

Lemma run_remaining a es : ∀ r r',
  Reach a r → run r es = Some r' →
  remaining a r' + length (filter (fun e => isSettled e) es) = remaining a r.
Proof.
  induction es as [|e es IH]; intros r r' Hr H; simpl in H.
  - injection H as <-. simpl. lia.
  - destruct (step r e) as [r1|] eqn:Hs; [|done]. simpl in H.
    pose proof (step_remaining _ _ _ _ Hr Hs) as H1.
    pose proof (IH _ _ (Reach_step _ _ _ _ Hr Hs) H) as H2.
    rewrite filter_cons. destruct e; simpl in *; lia.
Qed.

Lemma run_to_end a (net : Gemini.Net) n : ∀ r,
  Reach a r → remaining a r ≤ n →
  ∃ es r', noStop es ∧ run r es = Some r' ∧ finished r' = true.
Proof.
  induction n as [|n IH]; intros r Hr Hn.
  - exists [], r. split_and!; [constructor|done|].
    apply busy_finished. unfold remaining in Hn. lia.
  - destruct (finished r) eqn:Hf.
    + exists [], r. split_and!; [constructor|done|done].
    + destruct (unfinished_waiting _ Hf) as (w & k & Hw).
      destruct (resume_defined _ _ _ _ net Hr Hw) as [r1 H1].
      pose proof (resume_remaining _ _ _ _ _ Hr H1) as Hrem.
      destruct (IH r1) as (es & r' & Hes & Hrun & Hfin).
      { by eapply Reach_resume. }
      { lia. }
      exists (Settled w net :: es), r'. split_and!; [|simpl; by rewrite H1|done].
      constructor; [done|exact Hes].
Qed.

Lemma spawn_remaining a r :
  Reach a r → remaining a (spawn r) = remaining a r.
Proof.
  intros [Hi _]. unfold remaining, busy, spawn, worker.
  destruct (stopProcessingRef (st r)); simpl.
  - rewrite busy_snoc. simpl. lia.
  - destruct (worker_loop_cases r) as [[-> _]|(item & i & Hq & _ & ->)];
      simpl; rewrite busy_snoc; simpl; [lia|].
    rewrite (inv_items _ _ _ _ Hi) in Hq. apply lookup_lt_Some in Hq. lia.
Qed.

Lemma start_remaining a :
  truthy (apiKey a) = true → data a ≠ [] →
  remaining a (startProcessing a) = length (queue a).
Proof using C.
  intros Hk Hd. rewrite startProcessing_started by done.
  unfold remaining at 1. rewrite busy_settle.
  destruct (settle_fields (Nat.iter CONCURRENCY spawn (ready a)))
    as (_ & -> & _).
  fold (remaining a (Nat.iter CONCURRENCY spawn (ready a))).
  unfold CONCURRENCY. simpl.
  rewrite !spawn_remaining; [unfold remaining, busy; simpl; lia|..];
    repeat apply Reach_spawn; apply Reach_ready.
Qed.

(** X1. A run of the batch always comes to its end. However the replies
    and the stop button interleave, the calls that have settled and what
    remains (the entries not yet claimed and the calls in flight) add up
    to the length of the queue; while the run has not ended, some waiting
    worker can take whatever reply comes back; and from every point some
    series of replies ends the run. *)
Theorem run_terminates a es r :
  truthy (apiKey a) = true → data a ≠ [] →
  run (startProcessing a) es = Some r →
  length (filter (fun e => isSettled e) es) + remaining a r
    = length (filter (fun item => eligible item) (data a)) ∧
  (finished r = false →
     ∃ w, ∀ net, is_Some (step r (Settled w net))) ∧
  (∀ net : Gemini.Net,
     ∃ es' r', noStop es' ∧ run r es' = Some r' ∧ finished r' = true).
Proof.
  intros Hk Hd Hrun.
  pose proof (Reach_start _ Hk Hd) as H0.
  pose proof (Reach_run _ _ _ _ H0 Hrun) as Hr.
  split_and!.
  - pose proof (run_remaining _ _ _ _ H0 Hrun) as H.
    rewrite start_remaining, queue_length in H by done. lia.
  - intros Hf. destruct (unfinished_waiting _ Hf) as (w & k & Hw).
    exists w. intros net. simpl.
    destruct (resume_defined _ _ _ _ net Hr Hw) as [r1 ->]. by eexists.
  - intros net. by eapply (run_to_end a net (remaining a r)).
Qed.

End Progress.

Section Pool.
Context {C : Gemini.Constants}.

(** X2. In a run that no other handler disturbs, the pool has three
    workers at every point, so at most three calls are in flight; and a
    queued row is in status processing exactly while a worker waits for
    its call. *)
Theorem at_most_three_in_flight a es r :
  truthy (apiKey a) = true → data a ≠ [] →
  run (startProcessing a) es = Some r →
  length (workers r) = CONCURRENCY ∧ busy r ≤ CONCURRENCY ∧
  ∀ k item i row,
    queue a !! k = Some (item, i) → data (st r) !! i = Some row →
    (status row = Status.processing ↔ waiting r k).
Proof.
  intros Hk Hd Hrun.
  pose proof (Reach_run _ _ _ _ (Reach_start _ Hk Hd) Hrun) as Hr.
  assert (Hl : length (workers r) = CONCURRENCY).
  { rewrite (run_workers _ _ _ Hrun). by apply start_workers. }
  split_and!; [done| |].
  - rewrite <- Hl. unfold busy. apply length_filter.
  - intros k item i row Hq Hrow.
    destruct (inv_rows _ _ _ _ (proj1 Hr) _ _ _ Hq) as (H0 & H1 & H2).
    pose proof (inv_claimed _ _ _ _ (proj1 Hr) k) as Hc.
    destruct (queue_from_data _ _ _ _ Hq) as [_ He].
    destruct (decide (index r ≤ k)) as [Hle|Hgt].
    + rewrite (H0 Hle) in Hrow. injection Hrow as <-. split.
      * intros Hs. unfold eligible in He. rewrite Hs in He. done.
      * intros Hw. specialize (Hc Hw). lia.
    + destruct (decide (waiting r k)) as [Hw|Hw].
      * rewrite H1 in Hrow by (done || lia). injection Hrow as <-. done.
      * destruct H2 as (row' & Hrow' & Hset); [lia|done|].
        assert (row' = row) as -> by congruence.
        apply settledRow_terminal in Hset. split; [|done].
        intros Hs. rewrite Hs in Hset. done.
Qed.





End Pool.

Lemma at_most_three_in_flight_witness :
  ∃ r,
    @run GeminiSpec.prompt0 (startProcessing four) [Settled 0 reply0]
      = Some r ∧
    busy r ≤ CONCURRENCY ∧ waiting r 3 ∧ ¬ waiting r 0 ∧
    status <$> data (st r)
    = [Status.completed; Status.processing; Status.processing;
       Status.processing].
Proof.
  destruct (@run GeminiSpec.prompt0 (startProcessing four)
              [Settled 0 reply0]) as [r|] eqn:E.
  2: { exfalso. vm_compute in E. discriminate E. }
  exists r. split; [reflexivity|].
  assert (Hd : data four ≠ []) by discriminate.
  destruct (@at_most_three_in_flight GeminiSpec.prompt0 four _ r
              eq_refl Hd E) as (_ & Hb & Hrows).
  assert (Hst : status <$> data (st r)
                = [Status.completed; Status.processing; Status.processing;
                   Status.processing]).
  { vm_compute in E. injection E as <-. reflexivity. }
  split_and!; [exact Hb| | |exact Hst].
  - destruct (data (st r) !! 3) as [row|] eqn:E3.
    2: { exfalso. vm_compute in E. injection E as <-. discriminate E3. }
    apply (Hrows 3 (pendingRow 3 Status.error) 3 row eq_refl E3).
    vm_compute in E. injection E as <-. injection E3 as <-. reflexivity.
  - destruct (data (st r) !! 0) as [row|] eqn:E0.
    2: { exfalso. vm_compute in E. injection E as <-. discriminate E0. }
    intros Hw.
    apply (Hrows 0 (pendingRow 0 Status.pending) 0 row eq_refl E0) in Hw.
    vm_compute in E. injection E as <-. injection E0 as <-.
    discriminate Hw.
Defined.


Section Counters.
Context {C : Gemini.Constants}.

Lemma settle_stats r :
  processingStats (st (settle r)) = processingStats (st r).
Proof. unfold settle. by destruct (finished r). Qed.

Lemma Tally_settle a r : Tally a r → Tally a (settle r).
Proof.
  unfold Tally. rewrite settle_stats, busy_settle.
  by destruct (settle_fields r) as (_ & -> & _).
Qed.

Lemma Tally_spawn a r : Tally a r → Tally a (spawn r).
Proof.
  unfold Tally, busy, spawn, worker.
  destruct (stopProcessingRef (st r)); simpl.
  - rewrite busy_snoc. simpl. lia.
  - destruct (worker_loop_cases r) as [[-> _]|(item & i & _ & _ & ->)];
      simpl; rewrite busy_snoc; simpl; lia.
Qed.

Lemma Tally_resume a r w net r' :
  Tally a r → resume w net r = Some r' → Tally a r'.
Proof.
  intros Ht H. apply resume_cases in H
    as (k & item & i & Hw & _ & [[-> _]|(item' & i' & _ & _ & ->)]);
    apply Tally_settle; unfold Tally, busy in *; simpl.
  - pose proof (busy_list_insert _ _ _ Returned Hw) as Hb. simpl in Hb.
    destruct (outcome (st r) item net); simpl; lia.
  - pose proof (busy_list_insert _ _ _ (Waiting (index r)) Hw) as Hb.
    simpl in Hb. destruct (outcome (st r) item net); simpl; lia.
Qed.

Lemma Tally_run a es : ∀ r r', Tally a r → run r es = Some r' → Tally a r'.
Proof.
  induction es as [|e es IH]; intros r r' Ht H; simpl in H.
  - by injection H as <-.
  - destruct (step r e) as [r1|] eqn:Hs; [|done]. simpl in H.
    eapply IH; [|exact H]. destruct e as [w net|]; simpl in Hs.
    + by eapply Tally_resume.
    + injection Hs as <-. exact Ht.
Qed.

Lemma Tally_start a :
  truthy (apiKey a) = true → data a ≠ [] → Tally a (startProcessing a).
Proof.
  intros Hk Hd. rewrite startProcessing_started by done.
  apply Tally_settle. unfold CONCURRENCY. simpl.
  do 3 apply Tally_spawn. unfold Tally, busy. simpl. lia.
Qed.

(** The counters at the end of a run that was not stopped. *)
Lemma Tally_end a es r :
  truthy (apiKey a) = true → data a ≠ [] →
  run (startProcessing a) es = Some r →
  noStop es → finished r = true →
  completed (processingStats (st r)) + failed (processingStats (st r))
  = completed (processingStats a) + failed (processingStats a)
    + length (filter (fun item => eligible item) (data a)).
Proof.
  intros Hk Hd Hrun Hn Hfin.
  destruct (Tally_run _ _ _ _ (Tally_start _ Hk Hd) Hrun)
    as (Ht & Hsum & Hc & Hf).
  pose proof (Reach_run _ _ _ _ (Reach_start _ Hk Hd) Hrun) as Hr.
  assert (Hx : index r = length (queue a)).
  { apply finished_index; try done.
    - rewrite (run_flag _ _ _ Hn Hrun). by apply start_flag.
    - intros Hnil. pose proof (run_workers _ _ _ Hrun) as Hl.
      rewrite start_workers, Hnil in Hl by done. done. }
  apply busy_finished in Hfin. rewrite Hx, queue_length in Hsum. lia.
Qed.

(** X4. During a run that no other handler disturbs (no session is
    loaded and the list is not cleared while it is under way), the total
    is kept and the other two counters only grow: each call that settles
    adds one to [completed] or to [failed]. At the end of such a run that
    was not stopped they have grown by the number of rows that were
    pending or in error at the start; the counts of an earlier run are not
    reset. *)
Theorem counters_count_settled_calls a es r :
  truthy (apiKey a) = true → data a ≠ [] →
  run (startProcessing a) es = Some r →
  total (processingStats (st r)) = total (processingStats a) ∧
  completed (processingStats (st r)) + failed (processingStats (st r))
    + busy r
  = completed (processingStats a) + failed (processingStats a) + index r ∧
  completed (processingStats a) ≤ completed (processingStats (st r)) ∧
  failed (processingStats a) ≤ failed (processingStats (st r)) ∧
  (noStop es → finished r = true →
   completed (processingStats (st r)) + failed (processingStats (st r))
   = completed (processingStats a) + failed (processingStats a)
     + length (filter (fun item => eligible item) (data a))).
Proof.
  intros Hk Hd Hrun.
  destruct (Tally_run _ _ _ _ (Tally_start _ Hk Hd) Hrun)
    as (Ht & Hsum & Hc & Hf).
  split_and!; try done.
  intros Hn Hfin. by apply (Tally_end a es r).
Qed.

(** X5. After a sheet has been imported, a run of the batch that is not
    stopped and that no other handler disturbs ends with
    [completed + failed = total]: every imported row is pending, and
    every row is called for once. *)
Theorem import_then_run_counts_every_row uuidv4 jsonData s es r :
  truthy (apiKey s) = true →
  processedData uuidv4 jsonData ≠ [] →
  noStop es →
  run (startProcessing (handleExcelUpload uuidv4 jsonData s)) es = Some r →
  finished r = true →
  completed (processingStats (st r)) + failed (processingStats (st r))
  = total (processingStats (st r)) ∧
  total (processingStats (st r)) = length (data (st r)).
Proof.
  intros Hk Hd Hn Hrun Hfin.
  set (a := handleExcelUpload uuidv4 jsonData s) in *.
  assert (Hka : truthy (apiKey a) = true) by done.
  assert (Hda : data a ≠ []) by done.
  destruct (Tally_run _ _ _ _ (Tally_start _ Hka Hda) Hrun) as (Ht & _).
  pose proof (Tally_end a es r Hka Hda Hrun Hn Hfin) as Hend.
  pose proof (Reach_run _ _ _ _ (Reach_start _ Hka Hda) Hrun) as Hr.
  rewrite Ht, (inv_length _ _ _ _ (proj1 Hr)), Hend. simpl.
  split; [|done]. f_equal.
  assert (Hall : Forall (fun item => eligible item)
                   (processedData uuidv4 jsonData)).
  { eapply list.Forall_impl; [apply ImportProps.processedData_fresh|].
    intros row (Hs & _). unfold eligible. by rewrite Hs. }
  clear -Hall. induction Hall as [|x l Hx _ IH]; [done|].
  rewrite filter_cons. destruct (decide (eligible x)); [|done].
  simpl. by rewrite IH.
Qed.

End Counters.

Lemma counters_count_settled_calls_witness :
  ∃ r,
    @run GeminiSpec.prompt0 (startProcessing two)
      [Settled 0 reply0; Settled 1 failure0] = Some r ∧
    completed (processingStats (st r)) + failed (processingStats (st r)) = 2.
Proof.
  destruct (@run GeminiSpec.prompt0 (startProcessing two)
              [Settled 0 reply0; Settled 1 failure0]) as [r|] eqn:E.
  2: { exfalso. vm_compute in E. discriminate E. }
  exists r. split; [reflexivity|].
  assert (Hf : finished r = true).
  { vm_compute in E. injection E as <-. reflexivity. }
  assert (Hd : data two ≠ []) by discriminate.
  assert (Hn : noStop [Settled 0 reply0; Settled 1 failure0]).
  { repeat constructor; discriminate. }
  destruct (@counters_count_settled_calls GeminiSpec.prompt0 two _ r
              eq_refl Hd E) as (_ & _ & _ & _ & Hend).
  exact (Hend Hn Hf).
Defined.

Lemma import_then_run_counts_every_row_witness :
  ∃ r,
    @run GeminiSpec.prompt0
      (startProcessing
         (handleExcelUpload ImportSpec.uuid0
            (FileParser.parseExcel ImportSpec.sheet0) two))
      [Settled 0 reply0; Settled 1 failure0] = Some r ∧
    completed (processingStats (st r)) + failed (processingStats (st r))
    = total (processingStats (st r)).
Proof.
  destruct (@run GeminiSpec.prompt0
              (startProcessing
                 (handleExcelUpload ImportSpec.uuid0
                    (FileParser.parseExcel ImportSpec.sheet0) two))
              [Settled 0 reply0; Settled 1 failure0]) as [r|] eqn:E.
  2: { exfalso. vm_compute in E. discriminate E. }
  exists r. split; [reflexivity|].
  assert (Hf : finished r = true).
  { vm_compute in E. injection E as <-. reflexivity. }
  assert (Hd : processedData ImportSpec.uuid0
                 (FileParser.parseExcel ImportSpec.sheet0) ≠ []).
  { vm_compute. discriminate. }
  assert (Hn : noStop [Settled 0 reply0; Settled 1 failure0]).
  { repeat constructor; discriminate. }
  destruct (@import_then_run_counts_every_row GeminiSpec.prompt0
              ImportSpec.uuid0 (FileParser.parseExcel ImportSpec.sheet0)
              two _ r eq_refl Hd Hn E Hf) as [Hsum _].
  exact Hsum.
Defined.

Lemma run_terminates_witness :
  ∃ es' r',
    noStop es' ∧
    @run GeminiSpec.prompt0 (startProcessing four) es' = Some r' ∧
    finished r' = true.
Proof.
  assert (Hd : data four ≠ []) by discriminate.
  destruct (@run_terminates GeminiSpec.prompt0 four [] (startProcessing four)
              eq_refl Hd eq_refl) as (_ & _ & Hend).
  exact (Hend reply0).
Defined.

End BatchMore.

(* ================================================================= *)
(** ** More on services/gemini.ts *)

Module GeminiMore.
Import Gemini GeminiSpec.

Lemma or_else_nonempty s d : d ≠ [] → or_else s d ≠ [].
Proof. unfold or_else. by destruct s. Qed.

Lemma or_undefined_nonempty o s : or_undefined o = Some s → s ≠ [].
Proof.
  unfold or_undefined. destruct o as [[|c t]|]; simpl; try done.
  by intros [= <-].
Qed.

Lemma str_nonempty c s : str (String.String c s) ≠ [].
Proof. done. Qed.

Section Rewrite.
Context {C : Constants}.

(** X6. Whatever comes back from the network, an error thrown by
    [rewriteCaption] carries a message that is not empty, a result carries
    a rewritten text that is not empty, and at most one request is
    sent. *)
Theorem rewriteCaption_never_empty apiKey modelName input customRules net :
  length (rewriteCaption apiKey modelName input customRules net).1 ≤ 1 ∧
  match (rewriteCaption apiKey modelName input customRules net).2 with
  | Throw message => message ≠ []
  | Ok result => rewritten result ≠ []
  end.
Proof.
  destruct (rewriteCaption apiKey modelName input customRules net)
    as [reqs res] eqn:H.
  unfold rewriteCaption, callOpenAICompatibleApi in H.
  cbn [fst snd].
  repeat match type of H with
         | context [match ?x with _ => _ end] => destruct x eqn:?
         end;
    simplify_eq; simpl; (split; [lia|]);
    try done;
    try (apply or_else_nonempty; done);
    try (by eapply or_undefined_nonempty);
    try (by apply app_nonempty_r).
  intros Hnil. apply app_eq_nil in Hnil as [_ Hnil]. discriminate Hnil.
Qed.

(** X7. A request is sent only with a non-empty API key, and only to the
    provider that the model name selects. A name that contains "gemini"
    goes to the Gemini SDK, with the image and the text that are not
    empty, of which there is at least one. Any other name sends the text,
    which is not empty, and never an image, to the chat completions address
    of DeepSeek when the name contains "deepseek", else of Moonshot when it
    contains "moonshot", and nothing at all otherwise. The system
    instruction starts with the default prompt. *)
Theorem requests_go_to_the_selected_provider
    apiKey modelName input customRules net req :
  req ∈ (rewriteCaption apiKey modelName input customRules net).1 →
  truthy apiKey = true ∧
  match req with
  | GenerateContent k m sys image txt =>
      k = apiKey ∧ m = modelName ∧
      includes modelName (str "gemini") = true ∧
      (∃ rest, sys = DEFAULT_SYSTEM_PROMPT ++ rest) ∧
      image = or_undefined (imageData input) ∧
      txt = or_undefined (text input) ∧
      (truthy_opt image = true ∨ truthy_opt txt = true)
  | Fetch url k m sys txt =>
      k = apiKey ∧ m = modelName ∧
      includes modelName (str "gemini") = false ∧
      (∃ rest, sys = DEFAULT_SYSTEM_PROMPT ++ rest) ∧
      truthy_opt (imageData input) = false ∧
      text input = Some txt ∧ txt ≠ [] ∧
      ((url = str "https://api.deepseek.com/chat/completions" ∧
        includes modelName (str "deepseek") = true) ∨
       (url = str "https://api.moonshot.cn/v1/chat/completions" ∧
        includes modelName (str "deepseek") = false ∧
        includes modelName (str "moonshot") = true))
  end.
Proof.
  unfold rewriteCaption.
  destruct (truthy apiKey) eqn:Hk; cbn [negb];
    [|intros Hin; by apply elem_of_nil in Hin].
  assert (Hsys : ∃ rest,
    (if truthy customRules
     then DEFAULT_SYSTEM_PROMPT ++ rulesHeading ++ customRules
     else DEFAULT_SYSTEM_PROMPT) = DEFAULT_SYSTEM_PROMPT ++ rest).
  { destruct (truthy customRules); [by eexists|].
    exists []. by rewrite app_nil_r. }
  cbv zeta.
  destruct (includes modelName (str "gemini")) eqn:Hg; cbn [negb].
  - unfold or_undefined.
    destruct (truthy_opt (imageData input)) eqn:Hi;
      [|destruct (truthy_opt (text input)) eqn:Ht];
      cbn [fst]; intros Hin; try (by apply elem_of_nil in Hin);
      apply list_elem_of_singleton in Hin as ->.
    + split; [done|]. split_and!; try done. by left.
    + split; [done|]. split_and!; try done. by right.
  - unfold callOpenAICompatibleApi.
    destruct (truthy_opt (imageData input)) eqn:Hi;
      [intros Hin; by apply elem_of_nil in Hin|].
    destruct (text input) as [[|c txt]|] eqn:Ht;
      try (intros Hin; by apply elem_of_nil in Hin).
    cbv zeta.
    destruct (includes modelName (str "deepseek")) eqn:Hd;
      [|destruct (includes modelName (str "moonshot")) eqn:Hm];
      cbn [fst]; intros Hin; try (by apply elem_of_nil in Hin);
      apply list_elem_of_singleton in Hin as ->;
      (split; [done|]); split_and!; try done.
    + by left.
    + by right.
Qed.

(** For an input without image, a result gives the text back as the
    extracted original. *)
Lemma text_result_returns_text apiKey modelName input customRules net res :
  truthy_opt (imageData input) = false →
  (rewriteCaption apiKey modelName input customRules net).2 = Ok res →
  extractedOriginal res = text input.
Proof.
  intros Hi.
  destruct (rewriteCaption apiKey modelName input customRules net)
    as [reqs res'] eqn:H.
  unfold rewriteCaption, callOpenAICompatibleApi in H.
  cbn [snd]. intros ->.
  repeat match type of H with
         | context [match ?x with _ => _ end] => destruct x eqn:?
         end;
    simplify_eq; done.
Qed.

End Rewrite.

Lemma requests_go_to_the_selected_provider_witness :
  let input := {| text := Some (str "a cat"); imageData := None |} in
  let req := Fetch (str "https://api.deepseek.com/chat/completions")
               (str "k") (str "deepseek-chat") prompt0 (str "a cat") in
  req ∈ (@rewriteCaption prompt0 (str "k") (str "deepseek-chat") input []
           net0).1 ∧
  truthy (str "k") = true.
Proof.
  intros input req.
  assert (Hin : req ∈ (@rewriteCaption prompt0 (str "k")
                         (str "deepseek-chat") input [] net0).1).
  { vm_compute. apply list_elem_of_singleton. reflexivity. }
  split; [exact Hin|].
  exact (proj1 (@requests_go_to_the_selected_provider prompt0 _ _ _ _ _ _
                  Hin)).
Defined.

End GeminiMore.

(* ================================================================= *)
(** ** What a run leaves alone *)

Module BatchFrame.
Import App BatchSpec BatchMeasure BatchProps.

Section Frame.
Context {C : Gemini.Constants}.

Lemma kept_refl row : kept row row.
Proof. by repeat split. Qed.

Lemma kept_markProcessing item :
  eligible item = true → kept item (markProcessing item).
Proof. intros He. repeat split; try done. congruence. Qed.

(** The caption that is written back for a row without image is the one
    that was sent. *)
Lemma outcome_original a item net res :
  truthy_opt (imageData item) = false →
  outcome a item net = Ok res →
  default (original item) (or_undefined (Gemini.extractedOriginal res))
  = original item.
Proof.
  intros Hi Ho. unfold outcome in Ho.
  apply GeminiMore.text_result_returns_text in Ho.
  - rewrite Ho. simpl. unfold or_undefined. simpl.
    destruct (truthy (original item)) eqn:Ht; simpl; [by rewrite Ht|done].
  - simpl. unfold or_undefined. by rewrite Hi.
Qed.

Lemma kept_settled a item row :
  eligible item = true → settledRow a item row → kept item row.
Proof.
  intros He [net ->]. destruct (outcome a item net) as [res|m] eqn:Ho; simpl.
  - repeat split; try done; [|congruence].
    intros Hi. simpl. by eapply outcome_original.
  - repeat split; try done. congruence.
Qed.

Lemma run_no_workers_data es : ∀ r r',
  workers r = [] → run r es = Some r' → data (st r') = data (st r).
Proof.
  induction es as [|e es IH]; intros r r' Hw H; simpl in H.
  - by injection H as <-.
  - destruct e as [w net|]; simpl in H.
    + unfold resume in H. rewrite Hw in H. simpl in H. done.
    + apply IH in H; [|done]. done.
Qed.

(** X8. In a run that no other handler disturbs, whatever the replies
    are and whenever it is stopped, the list keeps its length and every
    row its place, its id, its image path and its image. The caption of a
    row without image is never changed, and a row that was neither
    pending nor in error at the start is left exactly as it was. *)
Theorem run_keeps_rows a es r i row0 :
  run (startProcessing a) es = Some r →
  data a !! i = Some row0 →
  length (data (st r)) = length (data a) ∧
  ∃ row, data (st r) !! i = Some row ∧
    id row = id row0 ∧ imagePath row = imagePath row0 ∧
    imageData row = imageData row0 ∧
    (truthy_opt (imageData row0) = false → original row = original row0) ∧
    (eligible row0 = false → row = row0).
Proof.
  intros Hrun Hd0.
  cut (length (data (st r)) = length (data a) ∧
       ∃ row, data (st r) !! i = Some row ∧ kept row0 row).
  { intros [Hl (row & Hrow & (? & ? & ?) & ? & ?)]. split; [done|].
    exists row. done. }
  destruct (decide (truthy (apiKey a) = true ∧ data a ≠ [])) as [[Hk Hd]|Hn].
  - pose proof (Reach_run _ _ _ _ (Reach_start _ Hk Hd) Hrun) as [Hi _].
    split; [apply (inv_length _ _ _ _ Hi)|].
    destruct (eligible row0) eqn:He.
    + destruct (queue_complete _ _ _ Hd0 He) as [k Hq].
      destruct (inv_rows _ _ _ _ Hi _ _ _ Hq) as (H0 & H1 & H2).
      destruct (decide (index r ≤ k)) as [Hle|Hlt].
      { exists row0. split; [auto|apply kept_refl]. }
      destruct (decide (waiting r k)) as [Hw|Hw].
      { exists (markProcessing row0). split; [apply H1; [lia|done]|].
        by apply kept_markProcessing. }
      destruct H2 as (row & Hrow & Hs); [lia|done|].
      exists row. split; [done|]. by eapply kept_settled.
    + exists row0. split; [|apply kept_refl].
      rewrite (inv_others _ _ _ _ Hi); [done|].
      intros (k & item & Hq)%queue_member.
      apply queue_from_data in Hq as [Hd' He']. congruence.
  - rewrite startProcessing_idle in Hrun.
    + apply run_no_workers_data in Hrun; [|done]. simpl in Hrun.
      rewrite Hrun. split; [done|]. exists row0. split; [done|apply kept_refl].
    + destruct (truthy (apiKey a)); [|by left]. right.
      destruct (data a); [done|]. exfalso. apply Hn. done.
Qed.

(** X20. A row with neither caption nor image never reaches the network
    when its turn comes in a batch: whatever the provider, nothing is
    sent, the call fails with the message of the missing input, and the
    row ends in error. The copy of a row without caption that a session
    stores is such a row, whether or not the row had an image. *)
Theorem empty_row_fails_without_request a row net :
  truthy (apiKey a) = true → original row = [] →
  truthy_opt (imageData row) = false ∨ (∃ row0, row = Storage.strip row0) →
  (Gemini.rewriteCaption (apiKey a) (selectedModel a) (inputOf row)
     (customRules a) net).1 = [] ∧
  outcome a row net
    = Throw (if includes (selectedModel a) (str "gemini")
             then str "No input provided"
             else str "No text input provided for text-only model.") ∧
  status (writeBack (outcome a row net) (markProcessing row)) = Status.error.
Proof.
  intros Hk Ho Himg.
  assert (Hi : truthy_opt (imageData row) = false).
  { destruct Himg as [?|[row0 ->]]; done. }
  assert (Hin : inputOf row
                = {| Gemini.text := None; Gemini.imageData := None |}).
  { unfold inputOf, or_undefined. rewrite Ho, Hi. done. }
  unfold outcome. rewrite Hin.
  unfold Gemini.rewriteCaption, Gemini.callOpenAICompatibleApi.
  rewrite Hk. cbn [negb]. cbv zeta.
  destruct (includes (selectedModel a) (str "gemini")); cbn [negb];
    cbn; done.
Qed.

End Frame.

Lemma empty_row_fails_without_request_witness :
  status (writeBack
            (@outcome GeminiSpec.prompt0 four
               (Storage.strip
                  (Handlers.imageRow (str "n") HandlersSpec.catFile
                     (str "data:image/png;base64,AAAA")))
               reply0)
            (markProcessing
               (Storage.strip
                  (Handlers.imageRow (str "n") HandlersSpec.catFile
                     (str "data:image/png;base64,AAAA")))))
  = Status.error.
Proof.
  refine (proj2 (proj2 (@empty_row_fails_without_request
            GeminiSpec.prompt0 four _ reply0 _ _ _))); [reflexivity..|].
  right. eexists. reflexivity.
Defined.

Lemma run_keeps_rows_witness :
  ∃ r row,
    @run GeminiSpec.prompt0 (startProcessing four)
      [Settled 0 reply0; StopPressed; Settled 2 failure0] = Some r ∧
    length (data (st r)) = 4 ∧
    data (st r) !! 0 = Some row ∧ status row = Status.completed ∧
    id row = str "0" ∧ original row = str "a cat".
Proof.
  destruct (@run GeminiSpec.prompt0 (startProcessing four)
              [Settled 0 reply0; StopPressed; Settled 2 failure0])
    as [r|] eqn:E.
  2: { exfalso. vm_compute in E. discriminate E. }
  destruct (@run_keeps_rows GeminiSpec.prompt0 four _ r 0
              (pendingRow 0 Status.pending) E eq_refl)
    as (Hlen & row & Hrow & Hid & _ & _ & Ho & _).
  exists r, row. split; [reflexivity|].
  split_and!; [exact Hlen|exact Hrow| |exact Hid|exact (Ho eq_refl)].
  vm_compute in E. injection E as <-. injection Hrow as <-. reflexivity.
Defined.

End BatchFrame.

(* ================================================================= *)
(** ** The counters and the statuses *)

Module BatchAgree.
Import App BatchSpec BatchMeasure BatchProps.

Lemma count_app s (l k : list CaptionRow) :
  count s (l ++ k) = count s l + count s k.
Proof. unfold count. by rewrite list.filter_app, length_app. Qed.

Lemma count_cons s row (l : list CaptionRow) :
  count s (row :: l)
  = (if decide (status row = s) then 1 else 0) + count s l.
Proof. unfold count. rewrite filter_cons. by destruct (decide _). Qed.

(** Writing one row moves it from the count of its old status to the
    count of its new one. *)
Lemma count_replaceAt s i f (l : list CaptionRow) row :
  l !! i = Some row →
  count s (replaceAt i f l) + (if decide (status row = s) then 1 else 0)
  = count s l + (if decide (status (f row) = s) then 1 else 0).
Proof.
  intros Hi. unfold replaceAt. rewrite Hi.
  rewrite <- (take_drop_middle l i row Hi) at 2.
  rewrite insert_take_drop by (by eapply lookup_lt_Some).
  rewrite !count_app, !count_cons. lia.
Qed.

Lemma count_queue s a :
  (∀ row, status row = s → eligible row = true) →
  count s (queue a).*1 = count s (data a).
Proof.
  intros Hs. unfold queue, count.
  pose proof (imap_pairs_fst eligible (data a) 0) as H. simpl in H.
  rewrite H. clear H. f_equal.
  induction (data a) as [|row l IH]; [done|].
  rewrite !filter_cons.
  destruct (decide (eligible row)) as [He|He].
  - rewrite filter_cons. destruct (decide (status row = s)); by rewrite IH.
  - destruct (decide (status row = s)) as [Hst|Hst]; [|done].
    exfalso. apply He. by rewrite (Hs _ Hst).
Qed.

Section Agree.
Context {C : Gemini.Constants}.

Lemma Agree_ext a r r' :
  Agree a r → data (st r') = data (st r) →
  processingStats (st r') = processingStats (st r) → index r' = index r →
  Agree a r'.
Proof.
  unfold Agree, unclaimedErrors. intros H Hd Hp Hx. by rewrite Hd, Hp, Hx.
Qed.

Lemma Agree_settle a r : Agree a r → Agree a (settle r).
Proof.
  intros H. destruct (settle_fields r) as (_ & Hx & _ & Hd).
  eapply Agree_ext; [exact H|done| |done].
  unfold settle. by destruct (finished r).
Qed.

Lemma Agree_written a r item i net :
  data (st r) !! i = Some (markProcessing item) →
  Agree a r → Agree a (written r item i net).
Proof.
  intros Hi [Hc Hf]. unfold Agree, unclaimedErrors, written. simpl.
  pose proof (count_replaceAt Status.completed i
                (writeBack (outcome (st r) item net)) _ _ Hi) as H1.
  pose proof (count_replaceAt Status.error i
                (writeBack (outcome (st r) item net)) _ _ Hi) as H2.
  unfold unclaimedErrors in Hf.
  destruct (outcome (st r) item net); simpl in *; lia.
Qed.

Lemma Agree_claim a r item i :
  queue a !! index r = Some (item, i) →
  data (st r) !! i = Some item →
  Agree a r → Agree a (claim r item i).
Proof.
  intros Hq Hi [Hc Hf]. unfold Agree, unclaimedErrors, claim. simpl.
  pose proof (count_replaceAt Status.completed i markProcessing _ _ Hi) as H1.
  pose proof (count_replaceAt Status.error i markProcessing _ _ Hi) as H2.
  unfold unclaimedErrors in Hf.
  rewrite (drop_S _ _ _ Hq), fmap_cons, count_cons in Hf. simpl in Hf.
  destruct (queue_from_data _ _ _ _ Hq) as [_ He]. unfold eligible in He.
  simpl in *. destruct (status item); simpl in *; try done; lia.
Qed.

Lemma Agree_resume a r w net r' :
  Reach a r → Agree a r → resume w net r = Some r' → Agree a r'.
Proof.
  intros [Hi Hd] Ha H.
  apply resume_cases in H as (k & item & i & Hw & Hk & Hcase).
  rewrite (inv_items _ _ _ _ Hi) in Hk.
  assert (Hwk : waiting r k) by (by eapply list_elem_of_lookup_2).
  pose proof (inv_claimed _ _ _ _ Hi _ Hwk) as Hlt.
  destruct (inv_rows _ _ _ _ Hi _ _ _ Hk) as (_ & Hrow & _).
  specialize (Hrow Hlt Hwk).
  pose proof (Agree_written a r item i net Hrow Ha) as Hwr.
  destruct Hcase as [[-> _]|(item' & i' & Hq & _ & ->)];
    apply Agree_settle.
  - eapply Agree_ext; [exact Hwr|done..].
  - rewrite (inv_items _ _ _ _ Hi) in Hq.
    assert (Hcl : Agree a (claim (written r item i net) item' i')).
    { apply Agree_claim; [done| |done].
      destruct (inv_rows _ _ _ _ Hi _ _ _ Hq) as (Hrow' & _).
      simpl. rewrite replaceAt_lookup_ne; [by apply Hrow'|].
      intros <-. pose proof (queue_position _ _ _ _ _ _ Hk Hq). lia. }
    eapply Agree_ext; [exact Hcl|done..].
Qed.

Lemma Agree_run a es : ∀ r r',
  Reach a r → Agree a r → run r es = Some r' → Agree a r'.
Proof.
  induction es as [|e es IH]; intros r r' Hr Ha H; simpl in H.
  - by injection H as <-.
  - destruct (step r e) as [r1|] eqn:Hs; [|done]. simpl in H.
    eapply IH; [by eapply Reach_step| |exact H].
    destruct e as [w net|]; simpl in Hs.
    + by eapply Agree_resume.
    + injection Hs as <-. eapply Agree_ext; [exact Ha|done..].
Qed.

Lemma Agree_spawn a r : Reach a r → Agree a r → Agree a (spawn r).
Proof.
  intros [Hi _] Ha. unfold spawn, worker.
  destruct (stopProcessingRef (st r)).
  { eapply Agree_ext; [exact Ha|done..]. }
  destruct (worker_loop_cases r) as [[-> _]|(item & i & Hq & _ & ->)].
  - eapply Agree_ext; [exact Ha|done..].
  - rewrite (inv_items _ _ _ _ Hi) in Hq.
    assert (Hcl : Agree a (claim r item i)).
    { apply Agree_claim; [done| |done].
      destruct (inv_rows _ _ _ _ Hi _ _ _ Hq) as (Hrow & _). by apply Hrow. }
    eapply Agree_ext; [exact Hcl|done..].
Qed.

Lemma Agree_start a :
  truthy (apiKey a) = true → data a ≠ [] → Agree a (startProcessing a).
Proof using C.
  intros Hk Hd. rewrite startProcessing_started by done.
  apply Agree_settle. unfold CONCURRENCY. simpl.
  assert (H0 : Agree a (ready a)).
  { unfold Agree, unclaimedErrors. simpl. split; [done|].
    rewrite drop_0, count_queue; [done|].
    intros row Hs. unfold eligible. rewrite Hs. done. }
  pose proof (Reach_ready a) as R0.
  pose proof (Reach_spawn _ _ R0) as R1.
  pose proof (Reach_spawn _ _ R1) as R2.
  apply Agree_spawn; [done|]. apply Agree_spawn; [done|].
  by apply Agree_spawn.
Qed.

(** X21. The counters agree with the statuses at every point of a run
    that no other handler disturbs: [completed] has grown by the number
    of rows that became completed, and [failed] by the number of rows in
    error, not counting those that still wait in the queue with the error
    of an earlier run. At the end of such a run that was not stopped,
    [failed] has grown by the number of rows in error. *)
Theorem counters_agree_with_statuses a es r :
  truthy (apiKey a) = true → data a ≠ [] →
  run (startProcessing a) es = Some r →
  completed (processingStats (st r)) + count Status.completed (data a)
  = completed (processingStats a) + count Status.completed (data (st r)) ∧
  failed (processingStats (st r)) + unclaimedErrors a r
  = failed (processingStats a) + count Status.error (data (st r)) ∧
  (noStop es → finished r = true →
   failed (processingStats (st r))
   = failed (processingStats a) + count Status.error (data (st r))).
Proof.
  intros Hk Hd Hrun.
  pose proof (Reach_start _ Hk Hd) as R0.
  destruct (Agree_run _ _ _ _ R0 (Agree_start _ Hk Hd) Hrun) as [Hc Hf].
  split_and!; try done.
  intros Hn Hfin.
  pose proof (Reach_run _ _ _ _ R0 Hrun) as Hr.
  assert (Hx : index r = length (queue a)).
  { apply finished_index; try done.
    - rewrite (run_flag _ _ _ Hn Hrun). by apply start_flag.
    - intros Hnil. pose proof (run_workers _ _ _ Hrun) as Hl.
      rewrite start_workers, Hnil in Hl by done. done. }
  unfold unclaimedErrors in Hf. rewrite Hx, drop_all in Hf.
  unfold count in Hf at 1. simpl in Hf. lia.
Qed.

End Agree.

Lemma counters_agree_with_statuses_witness :
  ∃ r,
    @run GeminiSpec.prompt0 (startProcessing two)
      [Settled 0 reply0; Settled 1 failure0] = Some r ∧
    completed (processingStats (st r)) = 1 ∧
    failed (processingStats (st r)) = 1 ∧
    count Status.completed (data (st r)) = 1 ∧
    count Status.error (data (st r)) = 1.
Proof.
  destruct (@run GeminiSpec.prompt0 (startProcessing two)
              [Settled 0 reply0; Settled 1 failure0]) as [r|] eqn:E.
  2: { exfalso. vm_compute in E. discriminate E. }
  exists r. split; [reflexivity|].
  destruct (@counters_agree_with_statuses GeminiSpec.prompt0 two
              [Settled 0 reply0; Settled 1 failure0] r)
    as (Hc & _ & Hf).
  - reflexivity.
  - discriminate.
  - exact E.
  - assert (Hn : noStop [Settled 0 reply0; Settled 1 failure0]).
    { repeat constructor; discriminate. }
    assert (Hfin : finished r = true).
    { vm_compute in E. injection E as <-. reflexivity. }
    specialize (Hf Hn Hfin).
    assert (H1 : count Status.completed (data (st r)) = 1).
    { vm_compute in E. injection E as <-. reflexivity. }
    assert (H2 : count Status.error (data (st r)) = 1).
    { vm_compute in E. injection E as <-. reflexivity. }
    rewrite H1 in Hc. rewrite H2 in Hf.
    change (count Status.completed (data two)) with 0 in Hc.
    change (completed (processingStats two)) with 0 in Hc.
    change (failed (processingStats two)) with 0 in Hf.
    split_and!; [lia|lia|done|done].
Defined.

End BatchAgree.

(* ================================================================= *)
(** ** More on the export and on the diff view *)

Module ExportMore.
Import FileParser DataPreview ExportSpec DiffProps.

Lemma or_else_nil (s : jsstring) : or_else s [] = s.
Proof. by destruct s. Qed.

Lemma originalRuns_text (diff : list Diff.Change) :
  mjoin (t <$> originalRuns diff) = Diff.oldText diff.
Proof.
  unfold Diff.oldText, originalRuns.
  induction diff as [|p diff IH]; [done|].
  cbn [omap list_omap]. rewrite filter_cons.
  destruct (Diff.added p) eqn:Ha.
  - rewrite decide_False by done. exact IH.
  - rewrite decide_True by done.
    destruct (Diff.removed p); csimpl; by rewrite IH.
Qed.

Lemma rewrittenRuns_text (diff : list Diff.Change) :
  mjoin (t <$> rewrittenRuns diff) = Diff.newText diff.
Proof.
  unfold Diff.newText, rewrittenRuns.
  induction diff as [|p diff IH]; [done|].
  cbn [omap list_omap]. rewrite filter_cons.
  destruct (Diff.removed p) eqn:Ha.
  - rewrite decide_False by done. exact IH.
  - rewrite decide_True by done.
    destruct (Diff.added p); csimpl; by rewrite IH.
Qed.

Lemma originalRuns_styles (diff : list Diff.Change) :
  Forall (fun s => s ≠ GreenBold) (pr <$> originalRuns diff).
Proof.
  unfold originalRuns. induction diff as [|p diff IH]; [constructor|].
  cbn [omap list_omap].
  destruct (Diff.added p); [exact IH|].
  destruct (Diff.removed p); cbn; by constructor.
Qed.

Lemma rewrittenRuns_styles (diff : list Diff.Change) :
  Forall (fun s => s ≠ GreenBoldUnderline) (pr <$> rewrittenRuns diff).
Proof.
  unfold rewrittenRuns. induction diff as [|p diff IH]; [constructor|].
  cbn [omap list_omap].
  destruct (Diff.removed p); [exact IH|].
  destruct (Diff.added p); cbn; by constructor.
Qed.

Section Texts.
Context {L : Diff.Lib}.

Lemma richTextRow_texts {S : Diff.Spec L} (item : ExportItem) :
  cellText (colOriginal (richTextRow item)) = OriginalCaption item ∧
  cellText (colRewritten (richTextRow item))
  = FileParser.extractRewrittenText (Some (RewrittenCaption item)).
Proof.
  unfold richTextRow. cbv zeta. cbn [colOriginal colRewritten].
  rewrite !or_else_nil. split.
  - destruct (0 <? length (originalRuns _)); [|done].
    cbn [cellText]. by rewrite originalRuns_text, Diff.diff_old.
  - destruct (0 <? length (rewrittenRuns _)); [|done].
    cbn [cellText]. by rewrite rewrittenRuns_text, Diff.diff_new.
Qed.

Lemma extract_rewritten (o : option jsstring) :
  FileParser.extractRewrittenText (Some (default [] (or_undefined o)))
  = FileParser.extractRewrittenText o.
Proof. by destruct o as [[|c s]|]. Qed.

(** X9. The worksheet object that [exportToCSV] builds and hands to
    [XLSX.writeFile] has one row per row of the list, in the order of the
    list. Whatever the diff library marks, the runs assigned to the cell
    of the original column spell the original caption, and those of the
    rewritten column the rewritten caption without its marker; the id, the
    image path and the status cells hold those of the row. No run of the
    original column has the style of an addition, and none of the
    rewritten column that of a removal. Neither caption cell has a value
    [v]. This is about the object in memory, not about the file. *)
Theorem download_spells_the_rows {S : Diff.Spec L} (s : App.State) i row :
  App.data s !! i = Some row →
  length (body (App.handleDownload s)) = length (App.data s) ∧
  ∃ srow, body (App.handleDownload s) !! i = Some srow ∧
    colID srow = id row ∧
    cellText (colOriginal srow) = original row ∧
    cellText (colRewritten srow)
      = FileParser.extractRewrittenText (rewritten row) ∧
    colStatus srow = StatusText.to_string (status row) ∧
    colImagePath srow = default [] (or_undefined (imagePath row)) ∧
    cellValue (colOriginal srow) = None ∧
    cellValue (colRewritten srow) = None ∧
    Forall (fun st => st ≠ GreenBold) (cellStyles (colOriginal srow)) ∧
    Forall (fun st => st ≠ GreenBoldUnderline)
           (cellStyles (colRewritten srow)).
Proof.
  intros Hrow. unfold App.handleDownload, exportToCSV. cbn [body].
  rewrite !length_fmap. split; [done|].
  exists (richTextRow (App.exportItem row)).
  rewrite !list_lookup_fmap, Hrow.
  destruct (richTextRow_texts (App.exportItem row)) as [Ho Hr].
  split_and!; try done.
  - rewrite Hr. apply extract_rewritten.
  - unfold richTextRow. cbv zeta. cbn [colOriginal].
    destruct (0 <? length (originalRuns _)); [|constructor].
    apply originalRuns_styles.
  - unfold richTextRow. cbv zeta. cbn [colRewritten].
    destruct (0 <? length (rewrittenRuns _)); [|constructor].
    apply rewrittenRuns_styles.
Qed.

(** X10. On the screen, the spans of the original view read as the
    original caption and those of the rewritten view as the rewritten
    caption without its marker, whatever the diff library marks. *)
Theorem DiffView_spells_the_texts {S : Diff.Spec L}
    (original rewritten : jsstring) :
  mjoin (spanText <$> DiffView original rewritten original_view) = original ∧
  mjoin (spanText <$> DiffView original rewritten rewritten_view)
  = FileParser.extractRewrittenText (Some rewritten).
Proof.
  unfold DiffView, DataPreview.extractRewrittenText. cbv zeta.
  rewrite !or_else_nil.
  set (diff := Diff.diffChars original _).
  split.
  - rewrite <- (Diff.diff_old original
                  (FileParser.extractRewrittenText (Some rewritten))).
    fold diff. unfold Diff.oldText. clearbody diff.
    induction diff as [|p diff IH]; [done|].
    cbn [omap list_omap]. rewrite filter_cons.
    destruct (Diff.added p) eqn:Ha.
    + rewrite decide_False by done. exact IH.
    + rewrite decide_True by done.
      destruct (Diff.removed p); csimpl; by rewrite IH.
  - rewrite <- (Diff.diff_new original
                  (FileParser.extractRewrittenText (Some rewritten))).
    fold diff. unfold Diff.newText. clearbody diff.
    induction diff as [|p diff IH]; [done|].
    cbn [omap list_omap]. rewrite filter_cons.
    destruct (Diff.removed p) eqn:Ha.
    + rewrite decide_False by done. exact IH.
    + rewrite decide_True by done.
      destruct (Diff.added p); csimpl; by rewrite IH.
Qed.

End Texts.

Lemma download_spells_the_rows_witness :
  ∃ srow,
    body (@App.handleDownload Diff.wholesale
            (BatchSpec.app0 (str "k") [ImportSpec.done_row])) !! 0
    = Some srow ∧
    colID srow = str "r1" ∧
    cellText (colOriginal srow) = str "a cat" ∧
    cellText (colRewritten srow) = str "A cat." ∧
    colStatus srow = str "completed" ∧
    colImagePath srow = str "cat.png".
Proof.
  destruct (@download_spells_the_rows Diff.wholesale wholesale_spec
              (BatchSpec.app0 (str "k") [ImportSpec.done_row]) 0
              ImportSpec.done_row)
    as (_ & srow & Hs & Hi & Ho & Hr & Hst & Hp & _); [reflexivity|].
  exists srow. split_and!; try done.
Defined.

Lemma DiffView_spells_the_texts_witness :
  mjoin (spanText <$> @DiffView Diff.wholesale (str "a cat")
                        (str "Final Caption: A cat.") rewritten_view)
  = FileParser.extractRewrittenText (Some (str "Final Caption: A cat.")).
Proof.
  exact (proj2 (@DiffView_spells_the_texts Diff.wholesale wholesale_spec
                  (str "a cat") (str "Final Caption: A cat."))).
Defined.

End ExportMore.

(* ================================================================= *)
(** ** The processing flag, and a batch that is stopped and started again *)

Module BatchFlags.
Import App BatchSpec BatchMeasure BatchProps.

Section Flags.
Context {C : Gemini.Constants}.

Lemma settle_finished r : finished (settle r) = finished r.
Proof.
  unfold settle. destruct (finished r) eqn:E; [|done]. exact E.
Qed.

Lemma Showing_settle r :
  isProcessing (st r) = negb (stopProcessingRef (st r)) →
  Showing (settle r).
Proof.
  intros H. unfold Showing. rewrite settle_finished.
  rewrite (proj1 (settle_fields r)). unfold settle.
  destruct (finished r) eqn:Hf; simpl.
  - split; [done|]. by intros [? _].
  - rewrite H. destruct (stopProcessingRef (st r)); simpl; intuition.
Qed.

Lemma Showing_open r :
  Showing r → finished r = false →
  isProcessing (st r) = negb (stopProcessingRef (st r)).
Proof.
  unfold Showing. intros H Hf.
  destruct (isProcessing (st r)), (stopProcessingRef (st r)); simpl;
    intuition.
Qed.

Lemma Showing_resume r w net r' :
  Showing r → resume w net r = Some r' → Showing r'.
Proof.
  intros Hs H.
  apply resume_cases in H as (k & item & i & Hw & _ & Hcase).
  assert (Hf : finished r = false).
  { destruct (finished r) eqn:Hf; [|done].
    exfalso. apply (finished_not_waiting r k Hf).
    by eapply list_elem_of_lookup_2. }
  pose proof (Showing_open r Hs Hf) as Ho.
  destruct Hcase as [[-> _]|(item' & i' & _ & _ & ->)];
    apply Showing_settle; simpl; exact Ho.
Qed.

Lemma Showing_run es : ∀ r r', Showing r → run r es = Some r' → Showing r'.
Proof.
  induction es as [|e es IH]; intros r r' Hs H; simpl in H.
  - by injection H as <-.
  - destruct (step r e) as [r1|] eqn:Hstep; [|done]. simpl in H.
    eapply IH; [|exact H]. destruct e as [w net|]; simpl in Hstep.
    + by eapply Showing_resume.
    + injection Hstep as <-. unfold Showing. simpl. split; [done|].
      by intros [_ ?].
Qed.

Lemma spawn_isProcessing r :
  isProcessing (st (spawn r)) = isProcessing (st r).
Proof.
  unfold spawn, worker. destruct (stopProcessingRef (st r)); [done|].
  by destruct (worker_loop_cases r) as [[-> _]|(item & i & _ & _ & ->)].
Qed.

Lemma Showing_start a :
  truthy (apiKey a) = true → data a ≠ [] → Showing (startProcessing a).
Proof.
  intros Hk Hd. rewrite startProcessing_started by done.
  apply Showing_settle. unfold CONCURRENCY. simpl.
  by rewrite !spawn_isProcessing, !spawn_flag.
Qed.

Lemma run_stopped es : ∀ r r',
  run r es = Some r' →
  stopProcessingRef (st r') = true ↔
  stopProcessingRef (st r) = true ∨ StopPressed ∈ es.
Proof.
  induction es as [|e es IH]; intros r r' H; simpl in H.
  - injection H as <-. split; [by left|]. intros [?|Hin]; [done|].
    by apply elem_of_nil in Hin.
  - destruct (step r e) as [r1|] eqn:Hstep; [|done]. simpl in H.
    rewrite (IH _ _ H), elem_of_cons. destruct e as [w net|]; simpl in Hstep.
    + rewrite (resume_flag _ _ _ _ Hstep).
      split; [intros [?|?]; auto|intros [?|[?|?]]; auto; done].
    + injection Hstep as <-. simpl. split; [auto|]. by left.
Qed.

(** X22. In a run that no other handler disturbs (the batch is not
    started again, no session is loaded and the list is not cleared while
    it is under way), the component shows that it is processing exactly
    while the batch is under way and has not been stopped: at every point
    of the run, [isProcessing] is true if and only if some worker has not
    returned and the stop flag is not set; and the stop flag is set if
    and only if the stop button was pressed in that run. *)
Theorem processing_flag_tracks_the_run a es r :
  truthy (apiKey a) = true → data a ≠ [] →
  run (startProcessing a) es = Some r →
  (isProcessing (st r) = true ↔
   finished r = false ∧ stopProcessingRef (st r) = false) ∧
  (stopProcessingRef (st r) = true ↔ StopPressed ∈ es).
Proof.
  intros Hk Hd Hrun. split.
  - by apply (Showing_run es _ _ (Showing_start a Hk Hd)).
  - rewrite (run_stopped _ _ _ Hrun), (start_flag a Hk Hd).
    split; [by intros [?|?]|by right].
Qed.

(** The rows at the end of a run that was not stopped. *)
Lemma unstopped_end_rows a es r i row0 :
  truthy (apiKey a) = true → data a ≠ [] →
  noStop es → run (startProcessing a) es = Some r → finished r = true →
  data a !! i = Some row0 →
  ∃ row, data (st r) !! i = Some row ∧
         (eligible row0 = true → terminal (status row) = true) ∧
         (eligible row0 = false → row = row0).
Proof.
  intros Hk Hd Hn Hrun Hf Hi.
  assert (Hr : Reach a r).
  { eapply Reach_run; [|exact Hrun]. by apply Reach_start. }
  assert (Hs : stopProcessingRef (st r) = false).
  { rewrite (run_flag _ _ _ Hn Hrun). by apply start_flag. }
  assert (Hw : workers r ≠ []).
  { intros Hnil. pose proof (run_workers _ _ _ Hrun) as Hl.
    rewrite start_workers, Hnil in Hl by done. done. }
  pose proof (finished_index _ _ Hr Hs Hf Hw) as Hx.
  destruct (finished_rows _ _ Hr Hf) as [Hq Ho].
  destruct (eligible row0) eqn:He.
  - destruct (queue_complete _ _ _ Hi He) as [k Hk'].
    destruct (proj1 (Hq _ _ _ Hk')) as (row & Hrow & Hset).
    { rewrite Hx. by eapply lookup_lt_Some. }
    exists row. split_and!; [done| |done].
    intros _. by eapply settledRow_terminal.
  - exists row0. split_and!; [|done|done].
    rewrite Ho; [done|]. intros (k & item & Hq')%queue_member.
    apply queue_from_data in Hq' as [Hd' He']. congruence.
Qed.

(** The rows at the end of a run, stopped or not. *)
Lemma end_rows a es r i row0 :
  truthy (apiKey a) = true → data a ≠ [] →
  run (startProcessing a) es = Some r → finished r = true →
  data a !! i = Some row0 →
  ∃ row, data (st r) !! i = Some row ∧
         (row = row0 ∨ (eligible row0 = true ∧ terminal (status row) = true)).
Proof.
  intros Hk Hd Hrun Hf Hi.
  assert (Hr : Reach a r).
  { eapply Reach_run; [|exact Hrun]. by apply Reach_start. }
  destruct (finished_rows _ _ Hr Hf) as [Hq Ho].
  destruct (eligible row0) eqn:He.
  - destruct (queue_complete _ _ _ Hi He) as [k Hk'].
    destruct (Hq _ _ _ Hk') as [Hlt Hge].
    destruct (decide (k < index r)) as [Hlt'|Hge'].
    + destruct (Hlt Hlt') as (row & Hrow & Hset). exists row.
      split; [done|]. right. split; [done|]. by eapply settledRow_terminal.
    + exists row0. split; [apply Hge; lia|by left].
  - exists row0. split; [|by left].
    rewrite Ho; [done|]. intros (k & item & Hq')%queue_member.
    apply queue_from_data in Hq' as [Hd' He']. congruence.
Qed.

(** X23. A batch that was stopped, or in which calls failed, is completed
    by starting it again once every worker of the first run has returned:
    after a run that has ended, stopped or not, a second run that is not
    stopped leaves every row that was pending or in error at the start
    completed or in error, and every other row as it was. The second run
    makes no call for a row that the first one completed, and such a row
    keeps its result. No other handler disturbs either run, and nothing
    happens between them. *)
Theorem restart_completes_the_batch a es1 r1 es2 r2 :
  truthy (apiKey a) = true →
  run (startProcessing a) es1 = Some r1 → finished r1 = true →
  noStop es2 →
  run (startProcessing (st r1)) es2 = Some r2 → finished r2 = true →
  (∀ i item, data a !! i = Some item →
     ∃ row, data (st r2) !! i = Some row ∧
            (eligible item = true → terminal (status row) = true) ∧
            (eligible item = false → row = item)) ∧
  (∀ i row, data (st r1) !! i = Some row → status row = Status.completed →
     data (st r2) !! i = Some row ∧
     i ∉ (originalIndex <$> calls r2)).
Proof.
  intros Hk Hrun1 Hf1 Hn Hrun2 Hf2.
  destruct (decide (data a = [])) as [Hd|Hd].
  { rewrite startProcessing_idle in Hrun1 by auto.
    pose proof (BatchFrame.run_no_workers_data es1 (idle a) r1 eq_refl Hrun1)
      as Hd1.
    simpl in Hd1. rewrite Hd in Hd1.
    split.
    - intros i item Hi. rewrite Hd in Hi. by rewrite lookup_nil in Hi.
    - intros i row Hi. rewrite Hd1 in Hi. by rewrite lookup_nil in Hi. }
  assert (Hr1 : Reach a r1).
  { eapply Reach_run; [|exact Hrun1]. by apply Reach_start. }
  destruct (inv_config _ _ _ _ (proj1 Hr1)) as (Hkey & _ & _).
  assert (Hk1 : truthy (apiKey (st r1)) = true) by (by rewrite Hkey).
  assert (Hd1 : data (st r1) ≠ []).
  { pose proof (inv_length _ _ _ _ (proj1 Hr1)) as Hl.
    destruct (data (st r1)); [|done]. destruct (data a); done. }
  split.
  - intros i item Hi.
    destruct (end_rows a es1 r1 i item Hk Hd Hrun1 Hf1 Hi)
      as (row1 & Hrow1 & Hcase).
    destruct (unstopped_end_rows (st r1) es2 r2 i row1 Hk1 Hd1 Hn Hrun2 Hf2
                Hrow1) as (row & Hrow & He1 & He0).
    exists row. split; [done|].
    destruct Hcase as [->|[He Ht]].
    + done.
    + split; [|congruence]. intros _.
      destruct (eligible row1) eqn:E1; [by apply He1|].
      by rewrite (He0 eq_refl).
  - intros i row Hi Hst.
    assert (He : eligible row = false) by (unfold eligible; by rewrite Hst).
    destruct (unstopped_end_rows (st r1) es2 r2 i row Hk1 Hd1 Hn Hrun2 Hf2 Hi)
      as (row2 & Hrow2 & _ & He0).
    rewrite (He0 He) in Hrow2. split; [done|].
    assert (Hr2 : Reach (st r1) r2).
    { eapply Reach_run; [|exact Hrun2]. by apply Reach_start. }
    rewrite (inv_calls _ _ _ _ (proj1 Hr2)), calls_indices.
    intros Hin. apply list_elem_of_fmap in Hin as ([item' i'] & Hi' & Hin).
    simpl in Hi'. subst i'.
    apply list_elem_of_lookup in Hin as [k' Hk'].
    apply lookup_take_Some in Hk' as [Hk' _].
    apply queue_from_data in Hk' as [Hd' He']. congruence.
Qed.

End Flags.

Lemma restart_completes_the_batch_witness :
  ∃ r1 r2,
    @run GeminiSpec.prompt0 (startProcessing two)
      [StopPressed; Settled 0 reply0; Settled 1 failure0] = Some r1 ∧
    @run GeminiSpec.prompt0 (startProcessing (st r1)) [Settled 0 reply0]
      = Some r2 ∧
    ∃ row, data (st r2) !! 1 = Some row ∧ terminal (status row) = true.
Proof.
  destruct (@run GeminiSpec.prompt0 (startProcessing two)
              [StopPressed; Settled 0 reply0; Settled 1 failure0])
    as [r1|] eqn:E1.
  2: { exfalso. vm_compute in E1. discriminate E1. }
  destruct (@run GeminiSpec.prompt0 (startProcessing (st r1))
              [Settled 0 reply0]) as [r2|] eqn:E2.
  2: { exfalso. vm_compute in E1. injection E1 as <-.
       vm_compute in E2. discriminate E2. }
  exists r1, r2. split; [reflexivity|]. split; [exact E2|].
  destruct (@restart_completes_the_batch GeminiSpec.prompt0 two
              [StopPressed; Settled 0 reply0; Settled 1 failure0] r1
              [Settled 0 reply0] r2) as [H _].
  - reflexivity.
  - exact E1.
  - vm_compute in E1. injection E1 as <-. reflexivity.
  - repeat constructor; discriminate.
  - exact E2.
  - vm_compute in E1. injection E1 as <-.
    vm_compute in E2. injection E2 as <-. reflexivity.
  - destruct (H 1 (pendingRow 1 Status.error) eq_refl) as (row & Hrow & Ht & _).
    exists row. split; [exact Hrow|]. apply Ht. reflexivity.
Defined.

Lemma processing_flag_tracks_the_run_witness :
  ∃ r,
    @run GeminiSpec.prompt0 (startProcessing four)
      [Settled 0 reply0; StopPressed] = Some r ∧
    finished r = false ∧
    stopProcessingRef (st r) = true ∧ isProcessing (st r) ≠ true.
Proof.
  destruct (@run GeminiSpec.prompt0 (startProcessing four)
              [Settled 0 reply0; StopPressed]) as [r|] eqn:E.
  2: { exfalso. vm_compute in E. discriminate E. }
  exists r. split; [reflexivity|].
  destruct (@processing_flag_tracks_the_run GeminiSpec.prompt0 four _ r
              eq_refl ltac:(discriminate) E) as [Hshow Hflag].
  assert (Hs : stopProcessingRef (st r) = true).
  { apply Hflag. apply elem_of_cons. right. apply elem_of_cons. by left. }
  split_and!; [|exact Hs|].
  - vm_compute in E. injection E as <-. reflexivity.
  - intros Hp. apply Hshow in Hp as [_ Hp]. rewrite Hs in Hp.
    discriminate Hp.
Defined.

End BatchFlags.

(* ================================================================= *)
(** ** The marker pattern of [extractRewrittenText] *)

Module ExtractProps.
Import FileParser ExtractSpec.

Lemma trimStart_split (s : jsstring) :
  ∃ ws, blank ws ∧ s = ws ++ trimStart s.
Proof.
  induction s as [|c s (ws & Hb & Hs)].
  { exists []. split; [constructor|done]. }
  simpl. destruct (isWhiteSpace c) eqn:Hc.
  - exists (c :: ws). split; [by constructor|]. simpl. by f_equal.
  - exists []. split; [constructor|done].
Qed.

Lemma trimStart_blank (ws s : jsstring) :
  blank ws → trimStart (ws ++ s) = trimStart s.
Proof.
  induction 1 as [|c ws Hc _ IH]; [done|]. simpl. by rewrite Hc.
Qed.

Lemma trimStart_nil_blank (s : jsstring) : trimStart s = [] → blank s.
Proof.
  induction s as [|c s IH]; [constructor|]. simpl.
  destruct (isWhiteSpace c) eqn:Hc; [|done]. intros H.
  constructor; [done|by apply IH].
Qed.

Lemma trimStart_idemp (s : jsstring) : trimStart (trimStart s) = trimStart s.
Proof.
  induction s as [|c s IH]; [done|]. simpl.
  destruct (isWhiteSpace c) eqn:Hc; [done|]. simpl. by rewrite Hc.
Qed.

Lemma trimStart_length (s : jsstring) : length (trimStart s) ≤ length s.
Proof.
  induction s as [|c s IH]; [done|]. simpl.
  destruct (isWhiteSpace c); simpl; lia.
Qed.

Lemma trim_length (s : jsstring) : length (trim s) ≤ length s.
Proof.
  unfold trim, trimEnd. rewrite length_rev.
  etrans; [apply trimStart_length|]. rewrite length_rev.
  apply trimStart_length.
Qed.

Lemma trim_blank (s : jsstring) : blank s → trim s = [].
Proof.
  intros Hb. unfold trim.
  rewrite <- (app_nil_r s), (trimStart_blank _ _ Hb). done.
Qed.

Lemma isColon_not_blank c : isColon c = true → isWhiteSpace c = false.
Proof.
  unfold isColon. intros [->%N.eqb_eq | ->%N.eqb_eq]%orb_true_iff; done.
Qed.

(** *** Soundness: what is extracted follows a marker and a colon *)

Lemma matchMarker_sound m : ∀ s s',
  matchMarker m s = Some s' → ∃ m', folds m' m ∧ s = m' ++ s'.
Proof.
  induction m as [|b m IH]; intros s s' H.
  - injection H as <-. exists []. split; reflexivity.
  - destruct s as [|a s]; [done|]. simpl in H.
    destruct (canon a =? canon b)%N eqn:E; [|done].
    apply N.eqb_eq in E. destruct (IH _ _ H) as (m' & Hf & ->).
    exists (a :: m'). split; [|done]. unfold folds in *. simpl. by f_equal.
Qed.

Lemma matchTail_sound s g :
  matchTail s = Some g →
  ∃ ws1 c ws2, blank ws1 ∧ isColon c = true ∧ blank ws2 ∧ g ≠ [] ∧
               s = ws1 ++ [c] ++ ws2 ++ g.
Proof.
  unfold matchTail. intros H.
  destruct (trimStart_split s) as (ws1 & Hb1 & Hs).
  destruct (trimStart s) as [|c rest]; [done|].
  destruct (isColon c) eqn:Hc; [|done].
  destruct (trimStart_split rest) as (ws2 & Hb2 & Hrest).
  destruct (trimStart rest) as [|d g'] eqn:Ht.
  - destruct (rev rest) as [|c' r'] eqn:Hr; [done|]. injection H as <-.
    assert (Hrest' : rest = rev r' ++ [c']).
    { by rewrite <- (rev_involutive rest), Hr. }
    exists ws1, c, (rev r'). split_and!; try done.
    + rewrite app_nil_r in Hrest. subst ws2. rewrite Hrest' in Hb2.
      by apply Forall_app in Hb2 as [? _].
    + rewrite Hs. simpl. by rewrite Hrest'.
  - injection H as <-. exists ws1, c, ws2. split_and!; try done.
    rewrite Hs. simpl. by rewrite <- Hrest.
Qed.

Lemma matchAlternatives_sound ms : ∀ s g,
  matchAlternatives ms s = Some g →
  ∃ m, m ∈ ms ∧ matchMarker m s ≫= matchTail = Some g.
Proof.
  induction ms as [|m ms IH]; intros s g H; [done|]. simpl in H.
  destruct (matchMarker m s ≫= matchTail) as [g'|] eqn:E.
  - injection H as <-. exists m. split; [left|done].
  - destruct (IH _ _ H) as (m0 & Hin & Hm). exists m0. split; [by right|done].
Qed.

Lemma regexMatch_cons c s :
  regexMatch (c :: s)
  = match matchAlternatives markers (c :: s) with
    | Some g => Some g
    | None => regexMatch s
    end.
Proof. done. Qed.

Lemma regexMatch_sound s : ∀ g,
  regexMatch s = Some g →
  ∃ pre s', s = pre ++ s' ∧ matchAlternatives markers s' = Some g.
Proof.
  induction s as [|c s IH]; intros g H.
  - exists [], []. split; [done|].
    simpl in H. by destruct (matchAlternatives markers []).
  - rewrite regexMatch_cons in H.
    destruct (matchAlternatives markers (c :: s)) as [g'|] eqn:E.
    + injection H as <-. by exists [], (c :: s).
    + destruct (IH _ H) as (pre & s' & -> & Hm). by exists (c :: pre), s'.
Qed.

Lemma regexMatch_Marked s g : regexMatch s = Some g → Marked s g.
Proof.
  intros (pre & s' & -> & H)%regexMatch_sound.
  apply matchAlternatives_sound in H as (m & Hin & H).
  destruct (matchMarker m s') as [s''|] eqn:Hm; [|done]. simpl in H.
  apply matchMarker_sound in Hm as (m' & Hf & ->).
  apply matchTail_sound in H as (ws1 & c & ws2 & ? & ? & ? & ? & ->).
  by exists pre, m', m, ws1, c, ws2.
Qed.

Lemma extractRewrittenText_cases (text : jsstring) :
  FileParser.extractRewrittenText (Some text)
  = match regexMatch text with
    | Some g => if truthy g then trim g else text
    | None => text
    end.
Proof.
  destruct text as [|c s]; [|done]. simpl.
  by destruct (matchAlternatives markers []).
Qed.

(** X11. [extractRewrittenText] never invents text. It returns the text
    it is given, or else the text has a marker (in any case of its
    letters), white space, a colon and white space somewhere, and what is
    returned is the rest of the text after them with the white space at its
    two ends removed; it is then shorter than the text. *)
Theorem extractRewrittenText_sound (text : jsstring) :
  FileParser.extractRewrittenText (Some text) = text ∨
  ∃ g, Marked text g ∧
       FileParser.extractRewrittenText (Some text) = trim g ∧
       length (FileParser.extractRewrittenText (Some text)) < length text.
Proof.
  rewrite extractRewrittenText_cases.
  destruct (regexMatch text) as [g|] eqn:E; [|by left].
  pose proof (regexMatch_Marked _ _ E) as HM.
  destruct HM as (pre & m' & m & ws1 & c & ws2 & Hm & Hf & H1 & Hc & H2 & Hg & ->).
  right. exists g. destruct g as [|d g]; [done|]. cbn [truthy].
  split_and!; [by exists pre, m', m, ws1, c, ws2|done|].
  eapply Nat.le_lt_trans; [apply trim_length|].
  rewrite !length_app. simpl. lia.
Qed.

(** *** Completeness: a marker with its colon is always found *)

Lemma matchMarker_complete m : ∀ m' s,
  folds m' m → matchMarker m (m' ++ s) = Some s.
Proof.
  unfold folds. induction m as [|b m IH]; intros m' s Hf.
  - destruct m'; [|done]. by destruct s.
  - destruct m' as [|a m']; [done|]. injection Hf as Ha Hf.
    simpl. rewrite Ha, N.eqb_refl. by apply IH.
Qed.

Lemma matchTail_complete ws1 c g :
  blank ws1 → isColon c = true → g ≠ [] →
  ∃ g', matchTail (ws1 ++ [c] ++ g) = Some g' ∧ trim g' = trim g.
Proof.
  intros Hb Hc Hg. unfold matchTail.
  rewrite (trimStart_blank _ _ Hb). simpl.
  rewrite (isColon_not_blank _ Hc), Hc.
  destruct (trimStart g) as [|d g'] eqn:Ht.
  - destruct (rev g) as [|c' r'] eqn:Hr.
    { apply (f_equal (@rev N)) in Hr. rewrite rev_involutive in Hr. done. }
    exists [c']. split; [done|].
    pose proof (trimStart_nil_blank _ Ht) as Hbg.
    rewrite (trim_blank g Hbg). apply trim_blank.
    assert (Hg' : g = rev r' ++ [c']).
    { by rewrite <- (rev_involutive g), Hr. }
    rewrite Hg' in Hbg. by apply Forall_app in Hbg as [_ ?].
  - exists (d :: g'). split; [done|].
    unfold trim. by rewrite <- Ht, trimStart_idemp.
Qed.

Lemma matchAlternatives_complete ms : ∀ m s g,
  m ∈ ms → matchMarker m s ≫= matchTail = Some g →
  is_Some (matchAlternatives ms s).
Proof.
  induction ms as [|m0 ms IH]; intros m s g Hin Hm.
  - by apply elem_of_nil in Hin.
  - simpl. destruct (matchMarker m0 s ≫= matchTail) as [g0|] eqn:E; [done|].
    apply elem_of_cons in Hin as [->|Hin]; [congruence|]. by eapply IH.
Qed.

Lemma regexMatch_complete pre : ∀ s,
  is_Some (matchAlternatives markers s) → is_Some (regexMatch (pre ++ s)).
Proof.
  induction pre as [|c pre IH]; intros s Hs.
  - simpl. destruct s as [|c s].
    + exfalso. destruct Hs as [g Hs]. vm_compute in Hs. discriminate Hs.
    + rewrite regexMatch_cons. by destruct (matchAlternatives markers (c :: s)).
  - simpl app. rewrite regexMatch_cons.
    destruct (matchAlternatives markers (c :: pre ++ s)); [done|]. by apply IH.
Qed.

Lemma canon_idemp c : canon (canon c) = canon c.
Proof.
  unfold canon.
  destruct ((97 <=? c) && (c <=? 122))%N eqn:E; [|by rewrite E].
  apply andb_true_iff in E as [H1%N.leb_le H2%N.leb_le].
  destruct ((97 <=? c - 32) && (c - 32 <=? 122))%N eqn:E'; [|done].
  apply andb_true_iff in E' as [H3%N.leb_le H4%N.leb_le]. lia.
Qed.

Lemma matchMarker_clash m0 : ∀ m m' s,
  clash m0 m = true → folds m' m → matchMarker m0 (m' ++ s) = None.
Proof.
  unfold folds. induction m0 as [|a m0 IH]; intros m m' s Hc Hf; [done|].
  destruct m as [|b m]; [done|]. destruct m' as [|b' m']; [done|].
  injection Hf as Hb Hf. simpl in Hc. simpl.
  destruct (canon b' =? canon a)%N eqn:E; [|done].
  apply N.eqb_eq in E. rewrite <- Hb, E, N.eqb_refl in Hc. simpl in Hc.
  by eapply IH.
Qed.

Lemma clash_irrefl m : clash m m = false.
Proof. induction m as [|a m IH]; [done|]. simpl. by rewrite N.eqb_refl. Qed.

Lemma matchAlternatives_only ms m m' s :
  Forall (fun m0 => m0 = m ∨ clash m0 m = true) ms → folds m' m →
  matchAlternatives ms (m' ++ s)
  = if bool_decide (m ∈ ms) then matchTail s else None.
Proof.
  intros Hms Hf. induction Hms as [|m0 ms Hm0 _ IH].
  - done.
  - simpl. destruct (decide (m0 = m)) as [->|Hne].
    + rewrite (matchMarker_complete _ _ _ Hf). simpl.
      rewrite bool_decide_true by left.
      destruct (matchTail s) as [g|] eqn:E; [done|].
      rewrite IH. by destruct (bool_decide (m ∈ ms)).
    + destruct Hm0 as [->|Hc]; [done|].
      rewrite (matchMarker_clash _ _ _ _ Hc Hf). simpl. rewrite IH.
      apply (f_equal (fun b : bool => if b then matchTail s else None)).
      apply bool_decide_ext. rewrite elem_of_cons.
      split; [by right|]. by intros [?|?].
Qed.

(** No two markers can start at the same place. *)
Lemma markers_clash m :
  m ∈ markers → Forall (fun m0 => m0 = m ∨ clash m0 m = true) markers.
Proof.
  revert m. apply list.Forall_forall.
  apply (bool_decide_unpack _). vm_compute. exact I.
Qed.

Lemma matchAlternatives_first m m' s :
  m ∈ markers → folds m' m →
  matchAlternatives markers (m' ++ s) = matchTail s.
Proof.
  intros Hin Hf.
  rewrite (matchAlternatives_only _ _ _ _ (markers_clash _ Hin) Hf).
  by rewrite bool_decide_true.
Qed.

(** X12. A marker, in any case of its letters, that is followed by white
    space, a colon and at least one more character is always found: the
    text is then not returned as it is, but the rest after some such
    marker, trimmed. When the text starts with the marker, what is
    returned is the rest after its colon, trimmed. *)
Theorem extractRewrittenText_complete pre m' m ws1 c g :
  m ∈ markers → folds m' m → blank ws1 → isColon c = true → g ≠ [] →
  (∃ g', Marked (pre ++ m' ++ ws1 ++ [c] ++ g) g' ∧
         FileParser.extractRewrittenText (Some (pre ++ m' ++ ws1 ++ [c] ++ g))
         = trim g') ∧
  FileParser.extractRewrittenText (Some (pre ++ m' ++ ws1 ++ [c] ++ g))
    ≠ pre ++ m' ++ ws1 ++ [c] ++ g ∧
  FileParser.extractRewrittenText (Some (m' ++ ws1 ++ [c] ++ g)) = trim g.
Proof.
  intros Hin Hf Hb Hc Hg.
  destruct (matchTail_complete ws1 c g Hb Hc Hg) as (g1 & Ht & Htrim).
  assert (Hat : matchAlternatives markers (m' ++ ws1 ++ [c] ++ g) = Some g1).
  { by rewrite (matchAlternatives_first _ _ _ Hin Hf). }
  assert (Hsome : is_Some (regexMatch (pre ++ m' ++ ws1 ++ [c] ++ g))).
  { apply regexMatch_complete. by rewrite Hat. }
  destruct Hsome as [g' Hg'].
  pose proof (regexMatch_Marked _ _ Hg') as HM.
  assert (Hne : g' ≠ []).
  { by destruct HM as (? & ? & ? & ? & ? & ? & ? & ? & ? & ? & ? & ? & ?). }
  assert (Hres : FileParser.extractRewrittenText
                   (Some (pre ++ m' ++ ws1 ++ [c] ++ g)) = trim g').
  { rewrite extractRewrittenText_cases, Hg'. by destruct g'. }
  split_and!.
  - by exists g'.
  - rewrite Hres. intros Heq. apply (f_equal length) in Heq.
    pose proof (trim_length g') as Hl.
    destruct HM as (p & m1 & m2 & w1 & c1 & w2 & _ & _ & _ & _ & _ & _ & HM).
    apply (f_equal length) in HM. rewrite Heq in Hl. rewrite HM in Hl.
    rewrite !length_app in Hl. simpl in Hl. lia.
  - rewrite extractRewrittenText_cases.
    assert (Hm' : m' ≠ []).
    { intros ->. unfold folds in Hf. destruct m; [|done].
      vm_compute in Hin. by repeat (apply elem_of_cons in Hin as [Hin | Hin];
        [discriminate Hin|]); apply elem_of_nil in Hin. }
    destruct m' as [|a m']; [done|]. simpl app. rewrite regexMatch_cons.
    change (a :: m' ++ ws1 ++ c :: g) with ((a :: m') ++ ws1 ++ [c] ++ g).
    rewrite Hat. destruct g1 as [|d g1]; [|done].
    unfold matchTail in Ht. exfalso. revert Ht.
    repeat case_match; congruence.
Qed.

Lemma extractRewrittenText_complete_witness :
  FileParser.extractRewrittenText (Some (str "final caption : A cat. "))
  = trim (str "A cat. ").
Proof.
  refine (proj2 (proj2 (@extractRewrittenText_complete []
            (str "final caption") (str "Final Caption") (str " ") 58%N
            (str "A cat. ") _ _ _ _ _))).
  - unfold markers. do 3 (apply elem_of_cons; right). apply elem_of_cons.
    by left.
  - reflexivity.
  - repeat constructor.
  - reflexivity.
  - discriminate.
Defined.

End ExtractProps.

(* ================================================================= *)
(** ** More on the spreadsheet import *)

Module ImportMore.
Import FileParser App ImportSpec ImportProps.

Lemma imap_importRow_ids uuidv4 (jsonData : list object) :
  id <$> imap (fun i row => importRow (uuidv4 i) row) jsonData
  = uuidv4 <$> seq 0 (length jsonData).
Proof.
  apply list_eq. intros i.
  rewrite !list_lookup_fmap, list_lookup_imap.
  destruct (jsonData !! i) as [o|] eqn:E; simpl.
  - rewrite lookup_seq_lt by (by eapply lookup_lt_Some). done.
  - rewrite lookup_seq_ge by (by apply lookup_ge_None). done.
Qed.

(** X13. An import replaces the list by the rows of the sheet that have
    a caption, in the order of the sheet. A row of the sheet is in the new
    list exactly when the text taken as its caption is not blank; that
    text is the cell under the first key that names a caption when this
    cell is a non-empty string. Each imported row is pending, without
    rewritten text, image or error, and its id is the one drawn for its
    row of the sheet, so that the ids are distinct when the draws are. The
    counters are reset, with the number of imported rows as the total; the
    settings are left as they are. Numbers in the sheet are taken to be
    integers that [String] prints exactly. *)
Theorem import_replaces_the_list uuidv4 jsonData s :
  NoDup (uuidv4 <$> seq 0 (length jsonData)) →
  Forall (fun o : object => Forall (fun kv => safeValue kv.2 = true) o)
         jsonData →
  let s' := handleExcelUpload uuidv4 jsonData s in
  sublist (data s') (imap (fun i row => importRow (uuidv4 i) row) jsonData) ∧
  (∀ row, row ∈ data s' ↔
     ∃ i o, jsonData !! i = Some o ∧ row = importRow (uuidv4 i) o ∧
            original row ≠ [] ∧ trim (original row) ≠ []) ∧
  (∀ i o k v, jsonData !! i = Some o →
     find isCaptionKey (keys o) = Some k → get o k = Some (VStr v) →
     v ≠ [] → original (importRow (uuidv4 i) o) = v) ∧
  NoDup (id <$> data s') ∧
  Forall (fun r => status r = Status.pending ∧ rewritten r = None ∧
                   imageData r = None ∧ error r = None)
         (data s') ∧
  processingStats s'
    = {| total := length (data s'); completed := 0; failed := 0 |} ∧
  length (data s') ≤ length jsonData ∧
  apiKey s' = apiKey s ∧ selectedModel s' = selectedModel s ∧
  customRules s' = customRules s.
Proof.
  intros Hnd _ s'.
  assert (Hsub : sublist (data s')
            (imap (fun i row => importRow (uuidv4 i) row) jsonData)).
  { apply sublist_filter. }
  split_and!; try done.
  - intros row. unfold s', handleExcelUpload, processedData. cbn [data setData setProcessingStats].
    rewrite list_elem_of_filter, elem_of_lookup_imap.
    unfold hasCaption. rewrite Is_true_true, andb_true_iff, negb_true_iff.
    unfold eqb. rewrite bool_decide_eq_false.
    split.
    + intros ((Ht & Hb) & i & o & -> & Hi). exists i, o.
      split_and!; try done. intros E. by rewrite E in Ht.
    + intros (i & o & Hi & -> & Ht & Hb). split; [|by eauto].
      split; [|done]. by destruct (original _).
  - intros i o k v _ Hk Hget Hv. unfold importRow. cbn [original].
    unfold captionKey. rewrite Hk.
    assert (Hkt : truthy_opt (Some k) = true).
    { destruct k as [|c k]; [|done]. exfalso. clear -Hk.
      induction (keys o) as [|k' l IH]; [done|]. simpl in Hk.
      destruct (isCaptionKey k') eqn:E; [|by apply IH].
      injection Hk as ->. by vm_compute in E. }
    unfold or_undefined. rewrite Hkt. unfold getAt. simpl.
    rewrite Hget. simpl. by destruct v.
  - eapply sublist_NoDup; [|apply (fmap_sublist id), Hsub].
    by rewrite imap_importRow_ids.
  - apply processedData_fresh.
  - apply sublist_length in Hsub. by rewrite length_imap in Hsub.
Qed.

Lemma import_replaces_the_list_witness :
  data (handleExcelUpload uuid0 (parseExcel wide_sheet)
          (BatchSpec.app0 (str "k") []))
  = [ {| id := str "id-0"; original := str "a cat"; rewritten := None;
         status := Status.pending; imagePath := Some (str "cat.png");
         imageData := None; error := None |} ] ∧
  importRow (uuid0 0)
    [ (str "caption", VStr (str "a cat")); (str "img", VStr (str "cat.png"));
      (str "__EMPTY", VNum 7) ]
  ∈ data (handleExcelUpload uuid0 (parseExcel wide_sheet)
            (BatchSpec.app0 (str "k") [])).
Proof.
  split; [by vm_compute|].
  refine (proj2 (proj1 (proj2 (@import_replaces_the_list uuid0
            (parseExcel wide_sheet) (BatchSpec.app0 (str "k") []) _ _)) _) _).
  - apply (bool_decide_unpack _). vm_compute. exact I.
  - apply (bool_decide_unpack _). vm_compute. exact I.
  - exists 0, [ (str "caption", VStr (str "a cat"));
                (str "img", VStr (str "cat.png")); (str "__EMPTY", VNum 7) ].
    split_and!; [by vm_compute|done|by vm_compute|by vm_compute].
Defined.

(** X25. With a spreadsheet library that writes the cells that have a
    value and reads them back, the rows imported from the file of an
    export have the identifier of the exported row as their [original]:
    the export assigns its two caption cells without a value, so the file
    has no caption column, and the import takes the first cell of each
    row. This is one imported row for each exported row whose identifier
    is not blank, in the same order. *)
Theorem reimport_original_is_id {L : Diff.Lib} keep uuidv4
    (rows : list CaptionRow) :
  Forall (fun r => trim (id r) ≠ []) rows →
  Forall2 (fun r r' => original r' = id r)
          rows (reimport (readBack keep) uuidv4 rows) ∧
  id <$> reimport (readBack keep) uuidv4 rows
  = uuidv4 <$> seq 0 (length rows) ∧
  Forall (fun o : object =>
            get o (str "Original Caption (Diff)") = None ∧
            get o (str "Rewritten Caption (Diff)") = None)
         (readBack keep (exportToCSV (exportItem <$> rows))).
Proof.
  intros Hid. rewrite (reimport_rows keep uuidv4 rows Hid). split_and!.
  - apply Forall2_imap_r. by intros i r _.
  - apply list_eq. intros i.
    rewrite !list_lookup_fmap, list_lookup_imap.
    destruct (rows !! i) as [r|] eqn:E; simpl.
    + rewrite lookup_seq_lt by (by eapply lookup_lt_Some). done.
    + rewrite lookup_seq_ge by (by apply lookup_ge_None). done.
  - unfold readBack, parseExcel, sheet_to_json, fileSheet.
    cbn [header FileParser.rows body exportToCSV headerRow].
    apply list.Forall_forall. intros o Ho.
    apply list_elem_of_filter in Ho as [_ Ho].
    apply list_elem_of_fmap in Ho as (cells & -> & Hc).
    apply list_elem_of_fmap in Hc as (srow & -> & _).
    unfold fileRow, cellValue, textCell.
    by destruct (keep || _), (keep || _), (keep || _), (keep || _);
      vm_compute.
Qed.

Lemma reimport_original_is_id_witness :
  Forall2 (fun r r' => original r' = id r) [done_row; plain_row]
    (reimport (L := Diff.wholesale) (readBack false) uuid0
       [done_row; plain_row]) ∧
  original <$> reimport (L := Diff.wholesale) (readBack false) uuid0
                 [done_row; plain_row]
  = [str "r1"; str "r2"].
Proof.
  assert (Hid : Forall (fun r => trim (id r) ≠ []) [done_row; plain_row]).
  { repeat constructor; by vm_compute. }
  split; [|by vm_compute].
  exact (proj1 (@reimport_original_is_id Diff.wholesale false uuid0
                  [done_row; plain_row] Hid)).
Defined.

End ImportMore.

(* ================================================================= *)
(** ** The handlers of the history and of the uploads *)

Module HandlersProps.
Import Storage History App Handlers StorageSpec HandlersSpec.
Import BatchSpec BatchMeasure BatchProps StorageProps.

Section Events.
Context {C : Gemini.Constants}.

(** A batch keeps the total counter and the length of the list. *)
Lemma run_total_length a es r :
  run (startProcessing a) es = Some r →
  total (processingStats (st r)) = total (processingStats a) ∧
  length (data (st r)) = length (data a).
Proof.
  intros Hrun.
  destruct (decide (truthy (apiKey a) = true ∧ data a ≠ [])) as [[Hk Hd]|Hn].
  - split.
    + by destruct (BatchMore.Tally_run _ _ _ _ (BatchMore.Tally_start _ Hk Hd)
                     Hrun) as [? _].
    + pose proof (Reach_run _ _ _ _ (Reach_start _ Hk Hd) Hrun) as [Hi _].
      apply (inv_length _ _ _ _ Hi).
  - rewrite startProcessing_idle in Hrun.
    + split.
      * assert (Ht : Tally a (idle a)) by (unfold Tally, busy; simpl; lia).
        by destruct (BatchMore.Tally_run _ _ _ _ Ht Hrun) as [? _].
      * apply BatchFrame.run_no_workers_data in Hrun; [|done].
        by rewrite Hrun.
    + destruct (truthy (apiKey a)); [|by left]. right.
      destruct (data a); [done|]. exfalso. by apply Hn.
Qed.

Lemma getSessions_cases ls :
  getSessions ls = Ok (Sessions []) ∨
  ∃ v, history ls = Some (Json v) ∧ getSessions ls = Ok v.
Proof.
  unfold getSessions, getItem.
  destruct (history ls) as [[s|v]|]; simpl; eauto.
  destruct (truthy s); simpl; eauto.
Qed.

Lemma Forall_sublist {A} (P : A → Prop) (k l : list A) :
  sublist k l → Forall P l → Forall P k.
Proof.
  intros Hs Hl. apply list.Forall_forall. intros x Hx.
  apply (proj1 (list.Forall_forall _ _) Hl).
  by eapply ImportProps.sublist_elem.
Qed.

Lemma filter_all {A} (P : A → Prop) `{∀ x, Decision (P x)} (l : list A) :
  Forall P l → filter P l = l.
Proof.
  induction 1 as [|x l Hx _ IH]; [done|].
  rewrite filter_cons_True by done. by f_equal.
Qed.

(** What a save does to the world. *)
Lemma handleSaveHistory_cases e h ref w w' h' :
  read_array h ref = Some (data (app w)) →
  handleSaveHistory e h ref w = Some (Ok w', h') →
  let newSession :=
    {| session_id := uuid e; timestamp := now e;
       name := str "Session " ++ dateLabel e;
       stats := processingStats (app w);
       session_data := strip <$> data (app w) |} in
  (data (app w) = [] ∧ w' = w) ∨
  (data (app w) ≠ [] ∧ w' = alert saveFailed w ∧
   ∃ m, (getSessions (storage w) ≫= prepend newSession) ≫=
          (fun u => setItem (storage w) (slice20 u)) = Throw m) ∨
  (data (app w) ≠ [] ∧
   ∃ stored u shown ls',
     getSessions (storage w) = Ok stored ∧
     prepend newSession stored = Ok u ∧
     setItem (storage w) (slice20 u) = Ok ls' ∧
     prepend newSession (historySessions w) = Ok shown ∧
     w' = alert savedNotice (withHistory shown ls' w)).
Proof.
  intros Hr Hsave newSession. unfold handleSaveHistory in Hsave.
  destruct (length (data (app w)) =? 0) eqn:El.
  { left. apply Nat.eqb_eq in El. injection Hsave as <- <-.
    split; [|done]. by destruct (data (app w)). }
  assert (Hne : data (app w) ≠ []).
  { intros Heq. rewrite Heq in El. done. }
  right.
  destruct (saveSession_defined e h (storage w) ref
              (processingStats (app w)) _ Hr)
    as (h1 & stripped & _ & _ & _ & _ & _ & Hs).
  cbv zeta in Hs. fold newSession in Hs. rewrite Hs in Hsave. clear Hs.
  simpl in Hsave.
  destruct (getSessions (storage w)) as [stored|m] eqn:Eg; simpl in *.
  2: { injection Hsave as <- <-. left. split; [done|]. split; [done|].
       by exists m. }
  destruct (prepend newSession stored) as [u|m] eqn:Ep; simpl in *.
  2: { injection Hsave as <- <-. left. split; [done|]. split; [done|].
       by exists m. }
  destruct (setItem (storage w) (slice20 u)) as [ls'|m] eqn:Es; simpl in *.
  2: { injection Hsave as <- <-. left. split; [done|]. split; [done|].
       by exists m. }
  destruct (prepend newSession (historySessions w)) as [shown|m] eqn:Eh;
    simpl in *; [|done].
  injection Hsave as <- <-. right. split; [done|].
  by exists stored, u, shown, ls'.
Qed.

Lemma deleteSession_sessions id foreign ls l v ls' :
  getSessions ls = Ok (Sessions l) →
  deleteSession id foreign ls = Ok (v, ls') →
  v = Sessions (filter (fun s => session_id s ≠ id) l) ∧
  getSessions ls' = Ok v.
Proof.
  intros Hg Hd. unfold deleteSession in Hd. rewrite Hg in Hd. simpl in Hd.
  destruct (setItem ls _) as [ls1|m] eqn:Es; simpl in Hd; [|done].
  injection Hd as <- <-. split; [done|]. by apply getSessions_setItem in Es.
Qed.

Lemma Counted_step w w' : Counted w → Step w w' → Counted w'.
Proof.
  intros (Hc & (shown & Hshown & Hs1) & (stored & Hstored & Hs2)) Hstep.
  unfold Consistent in Hc.
  destruct Hstep as [w|message w|key rules model mode text w|uuidv4 jsonData w
    |uuidv4 files w|files w|file w|newId w|w|e h ref w w' h' Hr Hsave
    |id foreign w w' Hdel|session w Hin|es r w Hrun Hfin].
  - (* mount *)
    unfold mount. rewrite Hstored. split_and!; [done| |]; simpl; eauto.
  - split_and!; [done| |]; simpl; eauto.
  - split_and!; [done| |]; simpl; eauto.
  - split_and!; [done| |]; simpl; eauto.
  - unfold handleImageUpload. destruct (length files =? 0).
    { split_and!; [done| |]; eauto. }
    split_and!; [|simpl; eauto..]. unfold Consistent. simpl.
    rewrite length_app. lia.
  - unfold handleMatchImageUpload. destruct (length files =? 0).
    { split_and!; [done| |]; eauto. }
    split_and!; [|simpl; eauto..]. unfold Consistent. simpl.
    by rewrite !length_fmap.
  - split_and!; [done| |]; simpl; eauto.
  - unfold addManualEntry. destruct (_ && _).
    { split_and!; [done| |]; simpl; eauto. }
    split_and!; [|simpl; eauto..]. unfold Consistent. simpl.
    rewrite length_app. simpl. lia.
  - split_and!; [done| |]; simpl; eauto.
  - (* save *)
    apply handleSaveHistory_cases in Hsave; [|done]. cbv zeta in Hsave.
    destruct Hsave as [[_ ->]|[(_ & -> & _)|(_ & st0 & u & sh & ls' & Hg & Hp
      & Hset & Hp' & ->)]].
    + split_and!; [done| |]; eauto.
    + split_and!; [done| |]; simpl; eauto.
    + rewrite Hstored in Hg. injection Hg as <-.
      rewrite Hshown in Hp'. simpl in Hp, Hp'.
      injection Hp as <-. injection Hp' as <-.
      assert (Hnew : SessionOk
                {| session_id := uuid e; timestamp := now e;
                   name := str "Session " ++ dateLabel e;
                   stats := processingStats (app w);
                   session_data := strip <$> data (app w) |}).
      { unfold SessionOk. simpl. by rewrite length_fmap. }
      split_and!; [done| |]; simpl.
      * eexists. split; [done|]. by constructor.
      * apply getSessions_setItem in Hset. simpl in Hset.
        eexists. split; [exact Hset|].
        constructor; [done|]. eapply Forall_sublist; [apply sublist_take|done].
  - (* delete *)
    unfold handleDeleteSession in Hdel.
    destruct (deleteSession id foreign (storage w)) as [[v ls']|m] eqn:Ed;
      simpl in Hdel; [|done].
    injection Hdel as <-.
    destruct (deleteSession_sessions _ _ _ _ _ _ Hstored Ed) as [-> Hg].
    assert (Hf : Forall SessionOk
                   (filter (fun s => session_id s ≠ id) stored)).
    { eapply Forall_sublist; [apply sublist_filter|done]. }
    split_and!; [done| |]; simpl; eauto.
  - (* load *)
    rewrite Hshown in Hin. simpl in Hin.
    unfold handleLoadSession. destruct (length (session_data session) =? 0).
    { split_and!; [done| |]; simpl; eauto. }
    split_and!; [|simpl; eauto..]. unfold Consistent. simpl.
    by apply (proj1 (list.Forall_forall _ _) Hs1).
  - (* batch *)
    destruct (run_total_length _ _ _ Hrun) as [Ht Hl].
    split_and!; [|simpl; eauto..]. unfold Consistent. simpl. lia.
Qed.

(** X14. When the handlers do not overlap (every upload and every batch
    has ended before the next event), the total counter is always the
    number of rows of the list: from the start of the component, over a
    storage that holds sessions whose total is the number of their rows,
    or nothing, every upload, matching of images, manual entry, clearing,
    batch, save, deletion and loading of a session keeps it so, in the
    state and in every session that is shown. *)
Theorem total_counts_the_rows ls stored w :
  getSessions ls = Ok (Sessions stored) → Forall SessionOk stored →
  rtc Step (initial ls) w →
  total (processingStats (app w)) = length (data (app w)) ∧
  Forall SessionOk (sessionsOf (historySessions w)).
Proof.
  intros Hg Hs Hsteps.
  assert (H0 : Counted (initial ls)).
  { split_and!; [done| |]; simpl; eauto. }
  assert (H : Counted w).
  { clear Hg Hs. induction Hsteps as [|w0 w1 w2 Hstep _ IH]; [done|].
    apply IH. by eapply Counted_step. }
  destruct H as (Hc & (l & -> & Hl) & _). done.
Qed.

Lemma Synced_step w w' : Synced w → Step w w' → Synced w'.
Proof.
  intros (shown & Hshown & Hstored) Hstep.
  destruct Hstep as [w|message w|key rules model mode text w|uuidv4 jsonData w
    |uuidv4 files w|files w|file w|newId w|w|e h ref w w' h' Hr Hsave
    |id foreign w w' Hdel|session w Hin|es r w Hrun Hfin].
  - unfold mount. rewrite Hstored. exists (take 20 shown). simpl.
    split; [done|]. by rewrite take_take, Nat.min_id.
  - by exists shown.
  - by exists shown.
  - by exists shown.
  - unfold handleImageUpload. destruct (length files =? 0); by exists shown.
  - unfold handleMatchImageUpload.
    destruct (length files =? 0); by exists shown.
  - by exists shown.
  - unfold addManualEntry. destruct (_ && _); by exists shown.
  - by exists shown.
  - apply handleSaveHistory_cases in Hsave; [|done]. cbv zeta in Hsave.
    destruct Hsave as [[_ ->]|[(_ & -> & _)|(_ & st0 & u & sh & ls' & Hg & Hp
      & Hset & Hp' & ->)]]; [by exists shown..|].
    rewrite Hstored in Hg. injection Hg as <-.
    rewrite Hshown in Hp'. simpl in Hp, Hp'.
    injection Hp as <-. injection Hp' as <-.
    apply getSessions_setItem in Hset. eexists. split; [done|].
    simpl. rewrite Hset. simpl. by rewrite take_take.
  - unfold handleDeleteSession in Hdel.
    destruct (deleteSession id foreign (storage w)) as [[v ls']|m] eqn:Ed;
      simpl in Hdel; [|done].
    injection Hdel as <-.
    destruct (deleteSession_sessions _ _ _ _ _ _ Hstored Ed) as [-> Hg].
    eexists. split; [done|]. simpl. rewrite Hg. do 2 f_equal.
    symmetry. apply take_ge.
    etrans; [apply length_filter|]. rewrite length_take. lia.
  - unfold handleLoadSession.
    destruct (length (session_data session) =? 0); by exists shown.
  - by exists shown.
Qed.

(** X15. What is stored is always the first twenty sessions of the
    history that is shown: from the moment the component is mounted over
    a storage that holds at most twenty sessions, every event keeps it
    so. The list that is shown can thus be longer than the one a reload
    would show. *)
Theorem stored_history_is_first_twenty ls stored w :
  getSessions ls = Ok (Sessions stored) → length stored ≤ 20 →
  rtc Step (mount (initial ls)) w →
  ∃ shown, historySessions w = Sessions shown ∧
           getSessions (storage w) = Ok (Sessions (take 20 shown)).
Proof.
  intros Hg Hl Hsteps.
  assert (H0 : Synced (mount (initial ls))).
  { unfold mount. simpl. rewrite Hg. exists stored. simpl.
    split; [done|]. by rewrite take_ge. }
  clear Hg Hl. induction Hsteps as [|w0 w1 w2 Hstep _ IH]; [done|].
  apply IH. by eapply Synced_step.
Qed.

(** X16. A save of a list that is not empty either fails, and then the
    only effect is the alert with the message of [saveSession], or puts a
    new session in front of the history that is shown and of the history
    that is stored. Loading that session gives back the rows without
    their images, in their order and with their statuses, and the
    counters as they were; the component is then not processing. *)
Theorem save_then_load e h ref w w1 h' shown :
  read_array h ref = Some (data (app w)) → data (app w) ≠ [] →
  historySessions w = Sessions shown →
  handleSaveHistory e h ref w = Some (Ok w1, h') →
  w1 = alert saveFailed w ∨
  ∃ session,
    historySessions w1 = Sessions (session :: shown) ∧
    alerts w1 = alerts w ++ [savedNotice] ∧ app w1 = app w ∧
    (∀ stored, getSessions (storage w) = Ok (Sessions stored) →
       getSessions (storage w1) = Ok (Sessions (take 20 (session :: stored)))) ∧
    data (app (handleLoadSession session w1)) = strip <$> data (app w) ∧
    Forall2 sameExceptImage (data (app w))
            (data (app (handleLoadSession session w1))) ∧
    processingStats (app (handleLoadSession session w1))
      = processingStats (app w) ∧
    isProcessing (app (handleLoadSession session w1)) = false ∧
    stopProcessingRef (app (handleLoadSession session w1)) = false.
Proof.
  intros Hr Hne Hshown Hsave.
  apply handleSaveHistory_cases in Hsave; [|done]. cbv zeta in Hsave.
  destruct Hsave as [[He _]|[(_ & -> & _)|(_ & st0 & u & sh & ls' & Hg & Hp
    & Hset & Hp' & ->)]]; [done|by left|].
  right. rewrite Hshown in Hp'. simpl in Hp'. injection Hp' as <-.
  eexists. split; [done|]. split; [done|]. split; [done|].
  assert (Hlen : (length (strip <$> data (app w)) =? 0) = false).
  { rewrite length_fmap. destruct (data (app w)); done. }
  unfold handleLoadSession. cbn [session_data stats]. rewrite Hlen.
  cbn [app data processingStats isProcessing stopProcessingRef].
  split_and!; try done.
  - intros stored Hst. rewrite Hst in Hg. injection Hg as <-.
    simpl in Hp. injection Hp as <-.
    by apply getSessions_setItem in Hset.
  - apply Forall2_fmap_r, Forall_Forall2_diag, Forall_forall.
    intros r _. apply strip_sameExceptImage.
Qed.

(** X17. Deleting the session that was just saved undoes the save, up
    to the twentieth session: when no stored session has the new id, what
    is stored afterwards is the first nineteen of the sessions that were
    stored before, which is all of them when there were fewer than
    twenty. *)
Theorem save_then_delete e h ref stats ls l saved h' ls1 foreign v ls2 :
  getSessions ls = Ok (Sessions l) →
  Forall (fun s => session_id s ≠ uuid e) l →
  saveSession e h ls ref stats = Some (Ok saved, h', ls1) →
  deleteSession (session_id (session saved)) foreign ls1 = Ok (v, ls2) →
  v = Sessions (take 19 l) ∧
  getSessions ls2 = Ok (Sessions (take 19 l)) ∧
  (length l < 20 → getSessions ls2 = getSessions ls).
Proof.
  intros Hg Hfresh Hsave Hdel.
  pose proof (saveSession_prepends _ _ _ _ _ _ _ _ _ Hg Hsave) as Hg1.
  assert (Hid : session_id (session saved) = uuid e).
  { unfold saveSession in Hsave.
    destruct (stripImageData h ref) as [[h1 stripped]|]; [|done].
    simpl in Hsave.
    destruct (read_array h1 stripped) as [rowsOut|]; [|done]. simpl in Hsave.
    rewrite Hg in Hsave. simpl in Hsave.
    destruct (setItem ls _) as [ls0|m]; simpl in Hsave; [|done].
    by injection Hsave as <- <- <-. }
  destruct (deleteSession_sessions _ _ _ _ _ _ Hg1 Hdel) as [-> Hg2].
  assert (Hfilter :
    filter (fun s => session_id s ≠ session_id (session saved))
           (take 20 (session saved :: l)) = take 19 l).
  { simpl. rewrite filter_cons_False by (intros H; by apply H).
    rewrite Hid. apply filter_all.
    eapply Forall_sublist; [apply sublist_take|done]. }
  rewrite Hfilter in *. split_and!; try done.
  intros Hlt. rewrite Hg2, Hg. by rewrite take_ge by lia.
Qed.

End Events.

Lemma save_then_load_witness :
  ∃ w1 h',
    handleSaveHistory env0 heap0 0 oneRow = Some (Ok w1, h') ∧
    (w1 = alert saveFailed oneRow ∨
     ∃ session,
       historySessions w1 = Sessions [session] ∧
       data (app (handleLoadSession session w1)) = [strip row0]).
Proof.
  destruct (handleSaveHistory env0 heap0 0 oneRow) as [[[w1|m] h']|] eqn:E.
  2: { exfalso. vm_compute in E. discriminate E. }
  2: { exfalso. vm_compute in E. discriminate E. }
  exists w1, h'. split; [reflexivity|].
  destruct (@save_then_load env0 heap0 0 oneRow w1 h' [])
    as [Hf|(session & Hh & _ & _ & _ & Hd & _)].
  - vm_compute. reflexivity.
  - discriminate.
  - reflexivity.
  - exact E.
  - left. exact Hf.
  - right. exists session. split; [exact Hh|exact Hd].
Defined.

Lemma save_then_delete_witness :
  ∃ saved h' ls1 v ls2,
    saveSession env0 heap0 storage0 0 stats0 = Some (Ok saved, h', ls1) ∧
    deleteSession (str "u") (Throw []) ls1 = Ok (v, ls2) ∧
    getSessions ls2 = Ok (Sessions []).
Proof.
  destruct (saveSession env0 heap0 storage0 0 stats0)
    as [[[[saved|m] h'] ls1]|] eqn:E.
  2: { exfalso. vm_compute in E. discriminate E. }
  2: { exfalso. vm_compute in E. discriminate E. }
  assert (Hid : session_id (session saved) = str "u").
  { vm_compute in E. injection E as <- _ _. reflexivity. }
  destruct (deleteSession (str "u") (Throw []) ls1) as [[v ls2]|m] eqn:Ed.
  2: { exfalso. vm_compute in E. injection E as _ _ <-.
       vm_compute in Ed. discriminate Ed. }
  exists saved, h', ls1, v, ls2. split; [reflexivity|]. split; [exact Ed|].
  rewrite <- Hid in Ed.
  destruct (@save_then_delete env0 heap0 0 stats0 storage0 [] saved h' ls1
              (Throw []) v ls2) as (_ & Hg & _).
  - reflexivity.
  - constructor.
  - exact E.
  - exact Ed.
  - exact Hg.
Defined.

Lemma stored_history_is_first_twenty_witness :
  ∃ w shown,
    rtc (@Step GeminiSpec.prompt0) (mount (initial storage0)) w ∧
    data (app w) = [manualRow] ∧
    historySessions w = Sessions shown ∧ length shown = 1 ∧
    getSessions (storage w) = Ok (Sessions (take 20 shown)).
Proof.
  set (w2 := addManualEntry (str "n")
               (handleManualImageSelect catFile (mount (initial storage0)))).
  destruct (handleSaveHistory env0 manualHeap 0 w2) as [[[w3|m] h']|] eqn:E.
  2: { exfalso. vm_compute in E. discriminate E. }
  2: { exfalso. vm_compute in E. discriminate E. }
  assert (Hreach : rtc (@Step GeminiSpec.prompt0) (mount (initial storage0)) w3).
  { eapply rtc_l; [apply step_select|].
    eapply rtc_l; [apply step_manual|].
    eapply rtc_l; [|apply rtc_refl].
    eapply (step_save env0 manualHeap 0); [|exact E]. reflexivity. }
  destruct (@stored_history_is_first_twenty GeminiSpec.prompt0 storage0 []
              w3 eq_refl ltac:(simpl; lia) Hreach) as (shown & Hs & Hg).
  exists w3, shown. split; [exact Hreach|].
  split_and!; [|exact Hs| |exact Hg].
  - vm_compute in E. injection E as <- _. reflexivity.
  - vm_compute in E. injection E as <- _. vm_compute in Hs.
    injection Hs as <-. reflexivity.
Defined.

Lemma total_counts_the_rows_witness :
  total (processingStats
           (app (addManualEntry (str "n")
                   (handleManualImageSelect catFile (initial storage0)))))
  = 1.
Proof.
  refine (proj1 (@total_counts_the_rows GeminiSpec.prompt0 storage0 [] _
                   _ _ _)).
  - reflexivity.
  - constructor.
  - eapply rtc_l; [apply step_select|].
    eapply rtc_l; [apply step_manual|]. apply rtc_refl.
Defined.

End HandlersProps.

(* ================================================================= *)
(** ** Matching image files to rows *)

Module UploadProps.
Import App Handlers HandlersSpec.

Lemma endsWith_suffix (s t : jsstring) :
  endsWith s t = true ↔ t `suffix_of` s.
Proof.
  unfold endsWith. destruct (length s <? length t) eqn:E.
  - apply Nat.ltb_lt in E. split; [done|]. intros [k ->].
    rewrite length_app in E. lia.
  - apply Nat.ltb_ge in E. unfold eqb. rewrite bool_decide_eq_true. split.
    + intros H. exists (take (length s - length t) s).
      rewrite <- (take_drop (length s - length t) s) at 1. by rewrite H.
    + intros [k ->]. rewrite length_app.
      replace (length k + length t - length t) with (length k) by lia.
      by rewrite drop_app_length.
Qed.

Lemma suffix_app_l (a name p : jsstring) :
  (a ++ name) `suffix_of` p → name `suffix_of` p.
Proof. intros [k ->]. exists (k ++ a). by rewrite <- app_assoc. Qed.

Lemma find_Some_elem {A} (p : A → bool) (l : list A) x :
  find p l = Some x → x ∈ l ∧ p x = true.
Proof.
  induction l as [|y l IH]; simpl; [done|].
  destruct (p y) eqn:E.
  - intros [= ->]. split; [left|done].
  - intros H. destruct (IH H). split; [by right|done].
Qed.

Lemma find_None_elem {A} (p : A → bool) (l : list A) x :
  find p l = None → x ∈ l → p x = false.
Proof.
  induction l as [|y l IH]; simpl; intros H Hx.
  - by apply elem_of_nil in Hx.
  - destruct (p y) eqn:E; [done|].
    apply elem_of_cons in Hx as [->|Hx]; auto.
Qed.

Lemma mapGet_Some m k v : mapGet m k = Some v → (k, v) ∈ m.
Proof.
  induction m as [|[k' v'] m IH]; simpl; [done|].
  unfold eqb. case_bool_decide as Hk.
  - intros [= ->]. subst. left.
  - intros H. right. by apply IH.
Qed.

Lemma mapGet_None m k v : mapGet m k = None → (k, v) ∉ m.
Proof.
  induction m as [|[k' v'] m IH]; simpl; [intros _; apply not_elem_of_nil|].
  unfold eqb. case_bool_decide as Hk; [done|].
  intros H Hin. apply elem_of_cons in Hin as [[= -> ->]|Hin]; [done|].
  by apply IH in H.
Qed.

Lemma mapSet_entries m k v k0 v0 :
  (k0, v0) ∈ mapSet m k v → (k0, v0) ∈ m ∨ (k0 = k ∧ v0 = v).
Proof.
  induction m as [|[k' v'] m IH]; simpl.
  - intros [[= -> ->]|H]%elem_of_cons; [by right|by apply elem_of_nil in H].
  - unfold eqb. case_bool_decide as Hk.
    + intros [[= -> ->]|H]%elem_of_cons; [by right|]. left. by right.
    + intros [[= -> ->]|H]%elem_of_cons; [left; left|].
      destruct (IH H) as [?|?]; [left; by right|by right].
Qed.

Lemma mapSet_keys m k v k0 :
  k0 ∈ (mapSet m k v).*1 ↔ k0 ∈ m.*1 ∨ k0 = k.
Proof.
  induction m as [|[k' v'] m IH]; simpl.
  - rewrite elem_of_cons. split; [intros [->|H]|intros [H| ->]]; auto;
      by apply elem_of_nil in H.
  - unfold eqb. case_bool_decide as Hk; simpl.
    + subst. rewrite !elem_of_cons. tauto.
    + rewrite !elem_of_cons, IH. tauto.
Qed.

Lemma fileMap_entries_from files : ∀ m name f,
  (name, f) ∈ foldl (fun m f => mapSet m (fileName f) f) m files →
  (name, f) ∈ m ∨ (f ∈ files ∧ fileName f = name).
Proof.
  induction files as [|g files IH]; intros m name f H; simpl in H; [by left|].
  apply IH in H as [H|[H1 H2]].
  - apply mapSet_entries in H as [H|[-> ->]]; [by left|].
    right. split; [left|done].
  - right. split; [by right|done].
Qed.

Lemma fileMap_entries files name f :
  (name, f) ∈ fileMap files → f ∈ files ∧ fileName f = name.
Proof.
  intros H. apply fileMap_entries_from in H as [H|H]; [|done].
  by apply elem_of_nil in H.
Qed.

Lemma fileMap_keys_from files : ∀ m k,
  k ∈ (foldl (fun m f => mapSet m (fileName f) f) m files).*1 ↔
  k ∈ m.*1 ∨ k ∈ fileName <$> files.
Proof.
  induction files as [|g files IH]; intros m k; simpl.
  - split; [by left|]. intros [H|H]; [done|by apply elem_of_nil in H].
  - rewrite IH, mapSet_keys, elem_of_cons. tauto.
Qed.

Lemma fileMap_keys files f :
  f ∈ files → ∃ f', (fileName f, f') ∈ fileMap files.
Proof.
  intros Hf.
  assert (H : fileName f ∈ (fileMap files).*1).
  { apply fileMap_keys_from. right. by apply list_elem_of_fmap_2. }
  apply list_elem_of_fmap in H as ([k f'] & Hk & Hin). simpl in Hk. subst.
  by exists f'.
Qed.

Lemma findMatch_unfold files (p : jsstring) :
  p ≠ [] →
  findMatch (fileMap files) (Some p)
  = match mapGet (fileMap files) p with
    | Some file => Some file
    | None =>
        snd <$> find (fun entry =>
                        endsWith p entry.1
                        || endsWith p (str "/" ++ entry.1)
                        || endsWith p ([0x5C]%N ++ entry.1))
                     (fileMap files)
    end.
Proof. intros Hp. unfold findMatch, or_undefined. by destruct p. Qed.

Lemma findMatch_sound files (p : jsstring) f :
  p ≠ [] → findMatch (fileMap files) (Some p) = Some f →
  f ∈ files ∧ fileName f `suffix_of` p.
Proof.
  intros Hp. rewrite findMatch_unfold by done.
  destruct (mapGet (fileMap files) p) as [file|] eqn:Eg.
  - intros [= ->]. apply mapGet_Some, fileMap_entries in Eg as [? ->].
    done.
  - destruct (find _ _) as [[name file]|] eqn:Ef; [|done].
    intros [= <-]. apply find_Some_elem in Ef as [Hin Ht]. simpl in Ht.
    apply fileMap_entries in Hin as [? ->]. split; [done|].
    apply orb_true_iff in Ht as [Ht|Ht];
      [apply orb_true_iff in Ht as [Ht|Ht]|];
      apply endsWith_suffix in Ht;
      first [done | by eapply suffix_app_l | by eapply suffix_cons_l].
Qed.

(** X18. [findMatch] pairs a path with a file by the end of the path:
    the file it returns is one of the chosen files and the path ends with
    its name, and every path that ends with the name of a chosen file gets
    a file. The tests with a separator add nothing to the plain test, so
    a file also matches a path whose last component merely ends with its
    name. A file named as the whole path is preferred, and a path that is
    absent or empty gets no file. *)
Theorem findMatch_by_suffix files (p : jsstring) :
  p ≠ [] →
  (∀ f, findMatch (fileMap files) (Some p) = Some f →
        f ∈ files ∧ fileName f `suffix_of` p) ∧
  (is_Some (findMatch (fileMap files) (Some p)) ↔
   ∃ f, f ∈ files ∧ fileName f `suffix_of` p) ∧
  (∀ f, f ∈ files → fileName f = p →
        ∃ f', findMatch (fileMap files) (Some p) = Some f' ∧
              fileName f' = p) ∧
  findMatch (fileMap files) None = None ∧
  findMatch (fileMap files) (Some []) = None.
Proof.
  intros Hp.
  pose proof (findMatch_unfold files p Hp) as Hunfold.
  assert (Hsound : ∀ f, findMatch (fileMap files) (Some p) = Some f →
                        f ∈ files ∧ fileName f `suffix_of` p).
  { intros f. by apply findMatch_sound. }
  split_and!; try done.
  - split.
    + intros [f Hf]. exists f. by apply Hsound.
    + intros (f & Hin & Hs). rewrite Hunfold.
      destruct (mapGet (fileMap files) p) as [file|] eqn:Eg; [done|].
      destruct (fileMap_keys _ _ Hin) as [f' Hf'].
      destruct (find _ _) as [entry|] eqn:Ef; [done|]. exfalso.
      pose proof (find_None_elem _ _ _ Ef Hf') as Hn. simpl in Hn.
      apply endsWith_suffix in Hs. by rewrite Hs in Hn.
  - intros f Hin Hname. rewrite Hunfold.
    destruct (fileMap_keys _ _ Hin) as [f' Hf']. rewrite Hname in Hf'.
    destruct (mapGet (fileMap files) p) as [file|] eqn:Eg.
    + exists file. split; [done|].
      by apply mapGet_Some, fileMap_entries in Eg as [_ ?].
    + by apply (mapGet_None _ _ f') in Eg.
Qed.

(** X19. When nothing else writes the list between the choice of the
    files and the end of the handler, matching image files only ever adds
    an image to a row that has none: the list keeps its length and its
    order, and a row its id, its texts, its status, its image path and
    its error; a row that has an image is left as it is; and a row that
    is changed has been given the data URL of a chosen file whose name
    ends the image path of the row. The counters are not touched. *)
Theorem match_upload_only_adds_images files w i row :
  data (app w) !! i = Some row →
  length (data (app (handleMatchImageUpload files w)))
    = length (data (app w)) ∧
  processingStats (app (handleMatchImageUpload files w))
    = processingStats (app w) ∧
  ∃ row', data (app (handleMatchImageUpload files w)) !! i = Some row' ∧
    id row' = id row ∧ original row' = original row ∧
    rewritten row' = rewritten row ∧ status row' = status row ∧
    imagePath row' = imagePath row ∧ error row' = error row ∧
    (truthy_opt (imageData row) = true → row' = row) ∧
    (row' ≠ row →
       ∃ f url p, f ∈ files ∧ imagePath row = Some p ∧
                  fileName f `suffix_of` p ∧ dataURL f = Ok url ∧
                  imageData row' = Some url).
Proof.
  intros Hrow. unfold handleMatchImageUpload.
  destruct (length files =? 0).
  { split_and!; try done. exists row. by split_and!. }
  cbn [app alert withApp setData data processingStats].
  rewrite !length_fmap. split_and!; try done.
  exists (matchRow (fileMap files) row).1.
  rewrite !list_lookup_fmap, Hrow. split; [done|].
  unfold matchRow.
  destruct (truthy_opt (imageData row)) eqn:Ei; [by split_and!|].
  destruct (findMatch (fileMap files) (imagePath row)) as [f|] eqn:Ef;
    [|by split_and!].
  destruct (dataURL f) as [url|m] eqn:Eu; [|by split_and!].
  cbn [fst]. split_and!; try done.
  intros _. destruct (imagePath row) as [p|] eqn:Ep; [|done].
  destruct p as [|c p]; [done|].
  destruct (findMatch_sound files (c :: p) f) as [Hin Hsuf]; [done..|].
  by exists f, url, (c :: p).
Qed.

Lemma findMatch_by_suffix_witness :
  is_Some (findMatch (fileMap [catFile]) (Some (str "img/mycat.png"))).
Proof.
  refine (proj2 (proj1 (proj2 (@findMatch_by_suffix [catFile]
            (str "img/mycat.png") _))) _).
  - discriminate.
  - exists catFile. split; [apply list_elem_of_singleton; reflexivity|].
    exists (str "img/my"). reflexivity.
Defined.

Lemma match_upload_only_adds_images_witness :
  ∃ row',
    data (app (handleMatchImageUpload [catFile] twoPaths)) !! 0 = Some row' ∧
    imageData row' = Some (str "data:image/png;base64,AAAA") ∧
    status row' = Status.pending ∧ original row' = str "a cat" ∧
    length (data (app (handleMatchImageUpload [catFile] twoPaths))) = 2.
Proof.
  destruct (@match_upload_only_adds_images [catFile] twoPaths 0
              (BatchSpec.pathRow 0 (str "img/cat.png") Status.pending)
              eq_refl)
    as (Hlen & _ & row' & Hrow' & _ & Ho & _ & Hst & _ & _ & _ & Hchg).
  exists row'. split; [exact Hrow'|].
  split_and!; [|exact Hst|exact Ho|exact Hlen].
  destruct Hchg as (f & url & p & Hf & _ & _ & Hurl & Himg).
  - intros ->. vm_compute in Hrow'. discriminate Hrow'.
  - apply list_elem_of_singleton in Hf as ->.
    injection Hurl as <-. exact Himg.
Defined.

End UploadProps.

(* ================================================================= *)
(** ** The parts of a data URL *)

Module InlineDataProps.
Import InlineData.

Lemma indexOf_first (pre rest : jsstring) c :
  c ∉ pre → indexOf (pre ++ c :: rest) c = Z.of_nat (length pre).
Proof.
  induction pre as [|a pre IH]; intros Hc; simpl.
  - by rewrite N.eqb_refl.
  - apply not_elem_of_cons in Hc as [Hne Hc].
    destruct (a =? c)%N eqn:E; [apply N.eqb_eq in E; congruence|].
    rewrite (IH Hc).
    destruct (Z.of_nat (length pre) <? 0)%Z eqn:E'; [|lia].
    apply Z.ltb_lt in E'. lia.
Qed.

Lemma indexOf_none (s : jsstring) c : c ∉ s → indexOf s c = (-1)%Z.
Proof.
  induction s as [|a s IH]; intros Hc; [done|]. simpl.
  apply not_elem_of_cons in Hc as [Hne Hc].
  destruct (a =? c)%N eqn:E; [apply N.eqb_eq in E; congruence|].
  by rewrite (IH Hc).
Qed.

Lemma split_none (s : jsstring) c : c ∉ s → split s c = [s].
Proof.
  induction s as [|a s IH]; intros Hc; [done|]. simpl.
  apply not_elem_of_cons in Hc as [Hne Hc].
  destruct (a =? c)%N eqn:E; [apply N.eqb_eq in E; congruence|].
  by rewrite (IH Hc).
Qed.

Lemma split_first (pre rest : jsstring) c :
  c ∉ pre → split (pre ++ c :: rest) c = pre :: split rest c.
Proof.
  induction pre as [|a pre IH]; intros Hc; simpl.
  - by rewrite N.eqb_refl.
  - apply not_elem_of_cons in Hc as [Hne Hc].
    destruct (a =? c)%N eqn:E; [apply N.eqb_eq in E; congruence|].
    by rewrite (IH Hc).
Qed.

Lemma substring_middle (pre mid post : jsstring) :
  substring (pre ++ mid ++ post) (Z.of_nat (length pre))
            (Z.of_nat (length pre + length mid)) = mid.
Proof.
  unfold substring. rewrite !length_app.
  assert (Ha : Z.min (Z.max (Z.of_nat (length pre)) 0)
                 (Z.of_nat (length pre + (length mid + length post)))
               = Z.of_nat (length pre)) by lia.
  assert (Hb : Z.min (Z.max (Z.of_nat (length pre + length mid)) 0)
                 (Z.of_nat (length pre + (length mid + length post)))
               = Z.of_nat (length pre + length mid)) by lia.
  rewrite Ha, Hb.
  replace (Z.to_nat (Z.max (Z.of_nat (length pre))
                       (Z.of_nat (length pre + length mid))
                     - Z.min (Z.of_nat (length pre))
                         (Z.of_nat (length pre + length mid))))
    with (length mid) by lia.
  replace (Z.to_nat (Z.min (Z.of_nat (length pre))
                       (Z.of_nat (length pre + length mid))))
    with (length pre) by lia.
  rewrite drop_app_length. by rewrite take_app_length.
Qed.

(** X24. The data URL that the reader of a file produces comes apart as
    it was put together: of [data:], a MIME type, [;base64,] and a
    payload, the MIME type and the payload are what is sent to the SDK,
    provided the MIME type has no semicolon or comma and the payload no
    comma. A URL without a comma has no payload to send, and a payload
    with a comma is cut at it. *)
Theorem data_url_comes_apart (mime payload : jsstring) :
  0x3B%N ∉ mime → 0x2C%N ∉ mime → 0x2C%N ∉ payload →
  mimeType (str "data:" ++ mime ++ str ";base64," ++ payload) = mime ∧
  base64Data (str "data:" ++ mime ++ str ";base64," ++ payload)
    = Some payload ∧
  (∀ url : jsstring, 0x2C%N ∉ url → base64Data url = None) ∧
  (∀ more, base64Data (str "data:" ++ mime ++ str ";base64," ++ payload
                       ++ [0x2C%N] ++ more) = Some payload).
Proof.
  intros Hsemi Hcomma Hpay.
  assert (Hhead : 0x2C%N ∉ str "data:" ++ mime ++ str ";base64").
  { rewrite !elem_of_app. intros [H|[H|H]]; [|done|]; revert H;
      apply (bool_decide_unpack _); vm_compute; exact I. }
  assert (Hurl : ∀ tail : jsstring,
    str "data:" ++ mime ++ str ";base64," ++ tail
    = (str "data:" ++ mime ++ str ";base64") ++ 0x2C%N :: tail).
  { intros tail. rewrite <- !app_assoc. do 2 f_equal. }
  split_and!.
  - unfold mimeType.
    assert (H1 : indexOf (str "data:" ++ mime ++ str ";base64," ++ payload)
                   0x3A = 4%Z).
    { refine (indexOf_first (str "data")
                (mime ++ str ";base64," ++ payload) 0x3A%N _).
      apply (bool_decide_unpack _). vm_compute. exact I. }
    assert (H2 : indexOf (str "data:" ++ mime ++ str ";base64," ++ payload)
                   0x3B = Z.of_nat (5 + length mime)).
    { rewrite (app_assoc (str "data:") mime).
      etrans; [refine (indexOf_first (str "data:" ++ mime)
                         (str "base64," ++ payload) 0x3B%N _)|].
      - rewrite elem_of_app. intros [H'|H']; [|done]. revert H'.
        apply (bool_decide_unpack _). vm_compute. exact I.
      - by rewrite length_app. }
    rewrite H1, H2.
    apply (substring_middle (str "data:") mime (str ";base64," ++ payload)).
  - unfold base64Data. rewrite Hurl, (split_first _ _ _ Hhead).
    by rewrite (split_none _ _ Hpay).
  - intros url Hu. unfold base64Data. by rewrite (split_none _ _ Hu).
  - intros more. unfold base64Data.
    rewrite Hurl, (split_first _ _ _ Hhead). simpl app.
    by rewrite (split_first _ _ _ Hpay).
Qed.

Lemma data_url_comes_apart_witness :
  mimeType (str "data:image/png;base64,AAAA") = str "image/png" ∧
  base64Data (str "data:image/png;base64,AAAA") = Some (str "AAAA").
Proof.
  destruct (data_url_comes_apart (str "image/png") (str "AAAA"))
    as (H1 & H2 & _).
  - apply (bool_decide_unpack _). vm_compute. exact I.
  - apply (bool_decide_unpack _). vm_compute. exact I.
  - apply (bool_decide_unpack _). vm_compute. exact I.
  - split; [exact H1|exact H2].
Defined.

End InlineDataProps.
